(** * libnrb: the NRB (Noir Binary) codec, embedded and verified

    A shallow embedding of [nrb.c] / [nrb.h]: the primitive big-endian codec,
    the document store with its two growable tables, the parser and the
    serializer, followed by the properties of the format that the
    natural-language specification states.

    Conventions of the embedding.
    - C integers are [Z]; arithmetic on [int32_t] and conversions between
      integer types whose operand is not pinned down by an adjacent check
      are written out with their wrap-around ([to_int32], [to_uint16],
      [to_uint32], [to_uint64]).
    - A [FILE*] opened for reading is the list of bytes still to be read; a
      [FILE*] opened for writing is the list of bytes written so far.
    - [abort()] terminates the process.  A computation is a function from a
      state to an [outcome]: either [Done] with a value and the next state,
      or [Fault] with the state in which [abort()] was reached.
    - Allocation failure and I/O errors other than end of file are outside
      the model: [malloc], [calloc], [realloc] and [putc] succeed. *)

From Stdlib Require Import ZArith List Lia.
From Stdlib Require Import Strings.Byte.
From stdpp Require Import base list sorting strings pretty.

Local Open Scope Z_scope.

(** ** Computations that may abort *)

Inductive outcome (S A : Type) : Type :=
  | Done (a : A) (s : S)
  | Fault (s : S).

Arguments Done {S A} a s.
Arguments Fault {S A} s.

Definition M (S A : Type) : Type := S -> outcome S A.

Definition ret {S A} (a : A) : M S A := fun s => Done a s.

Definition bind {S A B} (m : M S A) (k : A -> M S B) : M S B :=
  fun s =>
    match m s with
    | Done a s' => k a s'
    | Fault s' => Fault s'
    end.

Definition abort {S A} : M S A := fun s => Fault s.

(** Reading a field of the state. *)
Definition gets {S A} (f : S -> A) : M S A := fun s => Done (f s) s.

Notation "'let*' x ':=' m 'in' k" := (bind m (fun x => k))
  (at level 10, x pattern, m at level 100, k at level 200).

(** The value of a finished computation, forgetting the final state. *)
Definition value_of {S A} (o : outcome S A) : option A :=
  match o with
  | Done a _ => Some a
  | Fault _ => None
  end.

(** ** Constants ([nrb.h] lines 23-52, [nrb.c] lines 22-45) *)

Definition NRB_MAXSECT : Z := 65535.
Definition NRB_MAXNOTE : Z := 1048576.
Definition NRB_MINPITCH : Z := -39.
Definition NRB_MAXPITCH : Z := 48.
Definition NRB_MAXART : Z := 61.
Definition NRB_MAXRAMP : Z := 16384.

Definition NRB_VER_OK : Z := 0.
Definition NRB_VER_MINOR : Z := 1.
Definition NRB_VER_MAJOR : Z := 2.
Definition NRB_VER_ERROR : Z := 3.

Definition NRB_MAXUINT64 : Z := 9223372036854775807.
Definition NRB_MAXUINT32 : Z := 2147483647.
Definition NRB_MAXUINT16 : Z := 65535.

Definition NRB_MINBIAS8 : Z := -128.
Definition NRB_MAXBIAS8 : Z := 127.
Definition NRB_BIAS8 : Z := 128.

Definition NRB_SIGPRI : Z := 1928196216.
Definition NRB_SIGSEC : Z := 778990178.

Definition NRB_SECTALLOC_INIT : Z := 16.
Definition NRB_NOTEALLOC_INIT : Z := 256.

(** ** Bytes, streams and integer conversions *)

Abbreviation stream := (list byte) (only parsing).

(** The value of a byte as [getc] returns it, in [0, 255]. *)
Definition byte_val (b : byte) : Z := Z.of_N (Byte.to_N b).

(** The byte [putc] writes for an [int] in [0, 255]. *)
Definition byte_of_Z (c : Z) : byte :=
  match Byte.of_N (Z.to_N c) with
  | Some b => b
  | None => x00
  end.

(** The value of an [int32_t] expression whose mathematical value is [x]
    (two's complement wrap-around). *)
Definition to_int32 (x : Z) : Z :=
  (x + 2147483648) mod 4294967296 - 2147483648.

Definition to_uint16 (x : Z) : Z := x mod 65536.
Definition to_uint32 (x : Z) : Z := x mod 4294967296.
Definition to_uint64 (x : Z) : Z := x mod 18446744073709551616.

(** ** Primitive codec: writing ([nrb.c] lines 152-258) *)

(** [nrb_writeByte]: the range check aborts; [putc] appends the byte. *)
Definition nrb_writeByte (c : Z) : M stream unit :=
  fun pOut =>
    if (c <? 0) || (c >? 255) then Fault pOut
    else Done tt (pOut ++ [byte_of_Z c]).

(** [nrb_writeUint64], [v] a [uint64_t]. *)
Definition nrb_writeUint64 (v : Z) : M stream unit :=
  let* _ := nrb_writeByte (Z.shiftr v 56) in
  let* _ := nrb_writeByte (Z.land (Z.shiftr v 48) 255) in
  let* _ := nrb_writeByte (Z.land (Z.shiftr v 40) 255) in
  let* _ := nrb_writeByte (Z.land (Z.shiftr v 32) 255) in
  let* _ := nrb_writeByte (Z.land (Z.shiftr v 24) 255) in
  let* _ := nrb_writeByte (Z.land (Z.shiftr v 16) 255) in
  let* _ := nrb_writeByte (Z.land (Z.shiftr v 8) 255) in
  nrb_writeByte (Z.land v 255).

(** [nrb_writeUint32], [v] a [uint32_t]. *)
Definition nrb_writeUint32 (v : Z) : M stream unit :=
  let* _ := nrb_writeByte (Z.shiftr v 24) in
  let* _ := nrb_writeByte (Z.land (Z.shiftr v 16) 255) in
  let* _ := nrb_writeByte (Z.land (Z.shiftr v 8) 255) in
  nrb_writeByte (Z.land v 255).

(** [nrb_writeUint16], [v] a [uint16_t]. *)
Definition nrb_writeUint16 (v : Z) : M stream unit :=
  let* _ := nrb_writeByte (Z.shiftr v 8) in
  nrb_writeByte (Z.land v 255).

(** [nrb_writeBias8]: range check, then the biased value is written. *)
Definition nrb_writeBias8 (v : Z) : M stream unit :=
  if (v <? NRB_MINBIAS8) || (v >? NRB_MAXBIAS8) then abort
  else
    let v := v + NRB_BIAS8 in
    nrb_writeByte v.

(** ** Primitive codec: reading ([nrb.c] lines 277-694) *)

(** [nrb_readByte]: the next byte, or -1 at the end of the stream. *)
Definition nrb_readByte : M stream Z :=
  fun pf =>
    match pf with
    | [] => Done (-1) []
    | b :: pf' => Done (byte_val b) pf'
    end.

(** The loop shared by [nrb_read64], [nrb_read32] and [nrb_read16]: [n]
    iterations remain, [pv] is the accumulator of unsigned type with
    modulus [modulus].  The result is [(status, *pv)]. *)
Fixpoint read_raw (modulus : Z) (n : nat) (pv : Z) : M stream (bool * Z) :=
  match n with
  | O => ret (true, pv)
  | S n' =>
      let* c := nrb_readByte in
      if c <? 0 then ret (false, pv)
      else
        let pv := (Z.shiftl pv 8) mod modulus in
        let pv := Z.lor pv c in
        read_raw modulus n' pv
  end.

Definition nrb_read64 : M stream (bool * Z) :=
  read_raw 18446744073709551616 8 0.
Definition nrb_read32 : M stream (bool * Z) :=
  read_raw 4294967296 4 0.
Definition nrb_read16 : M stream (bool * Z) :=
  read_raw 65536 2 0.

(** [nrb_readUint64]: the raw value when it is at most [NRB_MAXUINT64],
    else -1. *)
Definition nrb_readUint64 : M stream Z :=
  let* (status, rv) := nrb_read64 in
  let status := if status then negb (rv >? NRB_MAXUINT64) else false in
  ret (if status then rv else -1).

Definition nrb_readUint32 : M stream Z :=
  let* (status, rv) := nrb_read32 in
  let status := if status then negb (rv >? NRB_MAXUINT32) else false in
  ret (if status then rv else -1).

Definition nrb_readUint16 : M stream Z :=
  let* (status, rv) := nrb_read16 in
  let status := if status then negb (rv >? NRB_MAXUINT16) else false in
  ret (if status then rv else -1).

(** [nrb_readBias8]: the result is [(status, *pv)]; [pv0] is the content of
    [*pv] before the call, left in place when the read fails. *)
Definition nrb_readBias8 (pv0 : Z) : M stream (bool * Z) :=
  let* rv := nrb_readByte in
  if rv <? 0 then ret (false, pv0)
  else if (rv <? 0) || (rv >? 255) then abort
  else
    let rv := rv - NRB_BIAS8 in
    ret (true, rv).

(** ** Data model ([nrb.h] lines 70-135, [nrb.c] lines 57-112) *)

Record NRB_NOTE : Type := mkNote {
  start : Z;     (* int64_t *)
  release : Z;   (* int64_t *)
  pitch : Z;     (* int8_t *)
  art : Z;       (* uint8_t *)
  ramp : Z;      (* uint16_t *)
  sect : Z;      (* uint16_t *)
  layer_i : Z    (* uint16_t *)
}.

(** A note as [calloc] or [memset] leaves it. *)
Definition zero_note : NRB_NOTE := mkNote 0 0 0 0 0 0 0.

Global Instance NRB_NOTE_inhabited : Inhabited NRB_NOTE := populate zero_note.

(** The values a C variable of type [NRB_NOTE] can hold. *)
Definition note_typed (pn : NRB_NOTE) : Prop :=
  -9223372036854775808 <= start pn <= 9223372036854775807 /\
  -9223372036854775808 <= release pn <= 9223372036854775807 /\
  -128 <= pitch pn <= 127 /\
  0 <= art pn <= 255 /\
  0 <= ramp pn <= 65535 /\
  0 <= sect pn <= 65535 /\
  0 <= layer_i pn <= 65535.

(** [struct NRB_DATA_TAG]: the two arrays are lists whose length is the
    allocated capacity. *)
Record NRB_DATA : Type := mkData {
  sect_count : Z;
  sect_cap : Z;
  note_count : Z;
  note_cap : Z;
  pSect : list Z;
  pNote : list NRB_NOTE
}.

Definition set_pSect (pd : NRB_DATA) (l : list Z) : NRB_DATA :=
  mkData (sect_count pd) (sect_cap pd) (note_count pd) (note_cap pd)
         l (pNote pd).
Definition set_pNote (pd : NRB_DATA) (l : list NRB_NOTE) : NRB_DATA :=
  mkData (sect_count pd) (sect_cap pd) (note_count pd) (note_cap pd)
         (pSect pd) l.
Definition set_sect_count (pd : NRB_DATA) (n : Z) : NRB_DATA :=
  mkData n (sect_cap pd) (note_count pd) (note_cap pd) (pSect pd) (pNote pd).
Definition set_sect_cap (pd : NRB_DATA) (n : Z) : NRB_DATA :=
  mkData (sect_count pd) n (note_count pd) (note_cap pd) (pSect pd) (pNote pd).
Definition set_note_count (pd : NRB_DATA) (n : Z) : NRB_DATA :=
  mkData (sect_count pd) (sect_cap pd) n (note_cap pd) (pSect pd) (pNote pd).
Definition set_note_cap (pd : NRB_DATA) (n : Z) : NRB_DATA :=
  mkData (sect_count pd) (sect_cap pd) (note_count pd) n (pSect pd) (pNote pd).

(** The tables as the format sees them: the used part of each array. *)
Definition sections (pd : NRB_DATA) : list Z :=
  take (Z.to_nat (sect_count pd)) (pSect pd).
Definition notes (pd : NRB_DATA) : list NRB_NOTE :=
  take (Z.to_nat (note_count pd)) (pNote pd).

(** ** Document store ([nrb.c] lines 763-794 and 1115-1376) *)

(** [nrb_alloc]: both arrays come zeroed from [calloc]; section 0 is set to
    offset 0. *)
Definition nrb_alloc : NRB_DATA :=
  mkData 1 NRB_SECTALLOC_INIT 0 NRB_NOTEALLOC_INIT
         (<[0%nat := 0]> (replicate (Z.to_nat NRB_SECTALLOC_INIT) 0))
         (replicate (Z.to_nat NRB_NOTEALLOC_INIT) zero_note).

Definition nrb_sections : M NRB_DATA Z := fun pd => Done (sect_count pd) pd.

Definition nrb_notes : M NRB_DATA Z := fun pd => Done (note_count pd) pd.

(** [nrb_offset] and [nrb_get] abort on an index out of bounds. *)
Definition nrb_offset (sect_i : Z) : M NRB_DATA Z :=
  fun pd =>
    if (sect_i <? 0) || (sect_i >=? sect_count pd) then Fault pd
    else Done (pSect pd !!! Z.to_nat sect_i) pd.

Definition nrb_get (note_i : Z) : M NRB_DATA NRB_NOTE :=
  fun pd =>
    if (note_i <? 0) || (note_i >=? note_count pd) then Fault pd
    else Done (pNote pd !!! Z.to_nat note_i) pd.

(** The field checks shared, line for line, by [nrb_set] (lines 1171-1192)
    and [nrb_append] (lines 1282-1303). *)
Definition check_note (pn : NRB_NOTE) : M NRB_DATA unit :=
  if start pn <? 0 then abort else
  if release pn <=? start pn then abort else
  if (pitch pn <? NRB_MINPITCH) || (pitch pn >? NRB_MAXPITCH) then abort else
  if Z.land (art pn) 63 >? NRB_MAXART then abort else
  if ramp pn >? NRB_MAXRAMP then abort else
  let* count := gets sect_count in
  if sect pn >=? count then abort else
  let* off := nrb_offset (sect pn) in
  if start pn <? off then abort else
  ret tt.

(** [nrb_set]: index check, field checks, then the note is copied in. *)
Definition nrb_set (note_i : Z) (pn : NRB_NOTE) : M NRB_DATA unit :=
  let* count := gets note_count in
  if (note_i <? 0) || (note_i >=? count) then abort else
  let* _ := check_note pn in
  fun pd => Done tt (set_pNote pd (<[Z.to_nat note_i := pn]> (pNote pd))).

(** [nrb_sect].  [realloc] followed by [memset] of the added tail is
    [resize]; the store at index [sect_count] is within the array whenever
    the count does not exceed the capacity, which is the length of the
    array ([doc_inv] below). *)
Definition nrb_sect (offset : Z) : M NRB_DATA Z :=
  if offset <? 0 then abort else
  let* count := gets sect_count in
  let* last := nrb_offset (count - 1) in
  if offset <? last then abort else
  fun pd =>
    if sect_count pd <? NRB_MAXSECT then
      let pd :=
        if sect_count pd >=? sect_cap pd then
          let newcap := to_int32 (sect_cap pd * 2) in
          let newcap :=
            if newcap <? NRB_SECTALLOC_INIT then NRB_SECTALLOC_INIT
            else newcap in
          let newcap := if newcap >? NRB_MAXSECT then NRB_MAXSECT else newcap in
          let pd := set_pSect pd (resize (Z.to_nat newcap) 0 (pSect pd)) in
          set_sect_cap pd newcap
        else pd in
      let pd :=
        set_pSect pd (<[Z.to_nat (sect_count pd) := offset]> (pSect pd)) in
      let pd := set_sect_count pd (to_int32 (sect_count pd + 1)) in
      Done 1 pd
    else Done 0 pd.

(** [nrb_append], with the same growth policy on the note table. *)
Definition nrb_append (pn : NRB_NOTE) : M NRB_DATA Z :=
  let* _ := check_note pn in
  fun pd =>
    if note_count pd <? NRB_MAXNOTE then
      let pd :=
        if note_count pd >=? note_cap pd then
          let newcap := to_int32 (note_cap pd * 2) in
          let newcap :=
            if newcap <? NRB_NOTEALLOC_INIT then NRB_NOTEALLOC_INIT
            else newcap in
          let newcap := if newcap >? NRB_MAXNOTE then NRB_MAXNOTE else newcap in
          let pd :=
            set_pNote pd (resize (Z.to_nat newcap) zero_note (pNote pd)) in
          set_note_cap pd newcap
        else pd in
      let pd :=
        set_pNote pd (<[Z.to_nat (note_count pd) := pn]> (pNote pd)) in
      let pd := set_note_count pd (to_int32 (note_count pd + 1)) in
      Done 1 pd
    else Done 0 pd.

(** [nrb_cmp]: the comparison function handed to [qsort].  It touches no
    state, so it runs in any. *)
Definition nrb_cmp {S} (pa pb : NRB_NOTE) : M S Z :=
  if start pa <? start pb then ret (-1)
  else if start pa >? start pb then ret 1
  else if start pa =? start pb then ret 0
  else abort.

(** [qsort] belongs to the C library, not to this repository.  It is a
    parameter of [nrb_sort]: a computation on the array being sorted that
    calls the comparison function it is given. *)
Definition qsort_type : Type :=
  (NRB_NOTE -> NRB_NOTE -> M (list NRB_NOTE) Z) -> M (list NRB_NOTE) unit.

(** What ISO C (7.22.5) promises of [qsort] when the comparison function
    returns normally, leaves the array alone and orders the elements
    consistently: the array is rearranged into ascending order. *)
Definition qsort_contract (qsort : qsort_type) : Prop :=
  forall (cmp : NRB_NOTE -> NRB_NOTE -> M (list NRB_NOTE) Z)
         (f : NRB_NOTE -> NRB_NOTE -> Z),
    (forall a b s, cmp a b s = Done (f a b) s) ->
    (forall a b, f a b <= 0 \/ f b a <= 0) ->
    (forall a b c, f a b <= 0 -> f b c <= 0 -> f a c <= 0) ->
    forall l, exists l',
      qsort cmp l = Done tt l' /\
      l' ≡ₚ l /\
      StronglySorted (fun a b => f a b <= 0) l'.

(** [nrb_sort]: [qsort] runs on the first [note_count] elements. *)
Definition nrb_sort (qsort : qsort_type) : M NRB_DATA unit :=
  fun pd =>
    if note_count pd >? 1 then
      let n := Z.to_nat (note_count pd) in
      match qsort nrb_cmp (take n (pNote pd)) with
      | Done _ l => Done tt (set_pNote pd (l ++ drop n (pNote pd)))
      | Fault l => Fault (set_pNote pd (l ++ drop n (pNote pd)))
      end
    else Done tt pd.

(** An insertion sort with the interface of [qsort], to have one function
    that meets [qsort_contract]. *)
Fixpoint insert_by (cmp : NRB_NOTE -> NRB_NOTE -> M (list NRB_NOTE) Z)
    (x : NRB_NOTE) (l : list NRB_NOTE) (s : list NRB_NOTE)
    : option (list NRB_NOTE) :=
  match l with
  | [] => Some [x]
  | y :: l' =>
      match cmp x y s with
      | Done c _ =>
          if c <=? 0 then Some (x :: y :: l')
          else option_map (cons y) (insert_by cmp x l' s)
      | Fault _ => None
      end
  end.

Fixpoint isort_by (cmp : NRB_NOTE -> NRB_NOTE -> M (list NRB_NOTE) Z)
    (l : list NRB_NOTE) (s : list NRB_NOTE) : option (list NRB_NOTE) :=
  match l with
  | [] => Some []
  | x :: l' =>
      match isort_by cmp l' s with
      | Some r => insert_by cmp x r s
      | None => None
      end
  end.

Definition insertion_qsort : qsort_type :=
  fun cmp s =>
    match isort_by cmp s s with
    | Some r => Done tt r
    | None => Fault s
    end.

(** ** Format driver: parsing ([nrb.c] lines 799-1065)

    [nrb_parse] keeps a [status] flag and guards every step with it; here a
    step that clears the flag returns at once.  The function is cut into
    its consecutive steps. *)

(** Lines 821-863: signatures and version.  The result is [(status, *pVer)];
    [*pVer] is not written again after this step. *)
Definition parse_version : M stream (bool * Z) :=
  let* sig := nrb_readUint32 in
  if negb (sig =? NRB_SIGPRI) then ret (false, NRB_VER_ERROR) else
  let* sig := nrb_readUint32 in
  if negb (sig =? NRB_SIGSEC) then ret (false, NRB_VER_ERROR) else
  let* ver_major := nrb_readByte in
  if ver_major <? 0 then ret (false, NRB_VER_ERROR) else
  let* ver_minor := nrb_readByte in
  if ver_minor <? 0 then ret (false, NRB_VER_ERROR) else
  if negb (ver_major =? 1) then ret (false, NRB_VER_MAJOR) else
  if ver_minor =? 0 then ret (true, NRB_VER_OK)
  else ret (true, NRB_VER_MINOR).

(** Lines 876-910: the two counts and the four reserved fields.  The result
    is [(sect_count, note_count)], or [None] when the status was cleared. *)
Definition parse_counts : M stream (option (Z * Z)) :=
  let* sect_count := nrb_readUint16 in
  if (sect_count <? 1) || (sect_count >? NRB_MAXSECT) then ret None else
  let* note_count := nrb_readUint32 in
  if (note_count <? 1) || (note_count >? NRB_MAXNOTE) then ret None else
  let* r := nrb_readUint32 in
  if r <? 0 then ret None else
  let* r := nrb_readUint32 in
  if r <? 0 then ret None else
  let* r := nrb_readUint32 in
  if r <? 0 then ret None else
  let* r := nrb_readUint32 in
  if r <? 0 then ret None else
  ret (Some (sect_count, note_count)).

(** Lines 936-962: the loop over the section table, with [n] iterations
    left, at index [i], on the array [pSect]. *)
Fixpoint parse_sect_loop (n : nat) (i : Z) (pSect : list Z)
    : M stream (option (list Z)) :=
  match n with
  | O => ret (Some pSect)
  | S n' =>
      let* v := nrb_readUint64 in
      let pSect := <[Z.to_nat i := v]> pSect in
      if pSect !!! Z.to_nat i <? 0 then ret None else
      if i <? 1 then
        if negb (pSect !!! Z.to_nat i =? 0) then ret None
        else parse_sect_loop n' (i + 1) pSect
      else
        if pSect !!! Z.to_nat i <? pSect !!! Z.to_nat (i - 1) then ret None
        else parse_sect_loop n' (i + 1) pSect
  end.

(** Lines 971-1042: one note record.  The fields are collected and the note
    is stored when the last check has passed; the C code writes each field
    into the array as it goes, which only a failed parse, where the array is
    freed, could tell apart. *)
Definition parse_note (sect_count : Z) (pSect : list Z) (v0 : Z)
    : M stream (option (NRB_NOTE * Z)) :=
  let* start := nrb_readUint64 in
  if start <? 0 then ret None else
  let* release := nrb_readUint64 in
  if release <=? start then ret None else
  let* (ok, v) := nrb_readBias8 v0 in
  if negb ok then ret None else
  if negb ((v >=? NRB_MINPITCH) && (v <=? NRB_MAXPITCH)) then ret None else
  let pitch := v in
  let* v := nrb_readByte in
  if negb (v >=? 0) then ret None else
  if negb (Z.land v 63 <=? NRB_MAXART) then ret None else
  let art := v in
  let* u := nrb_readUint16 in
  if negb ((u >=? 0) && (u <=? NRB_MAXRAMP)) then ret None else
  let ramp := u in
  let* v := nrb_readUint16 in
  if negb ((v >=? 0) && (v <? sect_count)) then ret None else
  let sect := v in
  let* v := nrb_readUint16 in
  if negb (v >=? 0) then ret None else
  let layer_i := v in
  if start <? pSect !!! Z.to_nat sect then ret None else
  ret (Some (mkNote start release pitch art ramp sect layer_i, v)).

(** Lines 965-1049: the loop over the note table.  [v] is the local
    variable of that name, carried from one iteration to the next. *)
Fixpoint parse_note_loop (n : nat) (i : Z) (sect_count : Z) (pSect : list Z)
    (v : Z) (pNote : list NRB_NOTE) : M stream (option (list NRB_NOTE)) :=
  match n with
  | O => ret (Some pNote)
  | S n' =>
      let* r := parse_note sect_count pSect v in
      match r with
      | None => ret None
      | Some (pn, v) =>
          parse_note_loop n' (i + 1) sect_count pSect v
                          (<[Z.to_nat i := pn]> pNote)
      end
  end.

(** [nrb_parse]: the result is the document, or [None] for [NULL], and the
    version status written to [*pVer]. *)
Definition nrb_parse : M stream (option NRB_DATA * Z) :=
  let* (status, ver) := parse_version in
  if negb status then ret (None, ver) else
  let* counts := parse_counts in
  match counts with
  | None => ret (None, ver)
  | Some (sect_count, note_count) =>
      let sect_cap := sect_count in
      let note_cap := note_count in
      let pSect := replicate (Z.to_nat sect_count) 0 in
      let pNote := replicate (Z.to_nat note_count) zero_note in
      let* st := parse_sect_loop (Z.to_nat sect_count) 0 pSect in
      match st with
      | None => ret (None, ver)
      | Some pSect =>
          let* nt :=
            parse_note_loop (Z.to_nat note_count) 0 sect_count pSect 0 pNote in
          match nt with
          | None => ret (None, ver)
          | Some pNote =>
              ret (Some (mkData sect_count sect_cap note_count note_cap
                                pSect pNote), ver)
          end
      end
  end.

(** ** Format driver: serializing ([nrb.c] lines 1381-1441) *)

(** Lines 1414-1416. *)
Fixpoint write_sect_loop (n : nat) (i : Z) (pd : NRB_DATA) : M stream unit :=
  match n with
  | O => ret tt
  | S n' =>
      let* _ := nrb_writeUint64 (to_uint64 (pSect pd !!! Z.to_nat i)) in
      write_sect_loop n' (i + 1) pd
  end.

(** Lines 1425-1431: one note record. *)
Definition write_note (pn : NRB_NOTE) : M stream unit :=
  let* _ := nrb_writeUint64 (to_uint64 (start pn)) in
  let* _ := nrb_writeUint64 (to_uint64 (release pn)) in
  let* _ := nrb_writeBias8 (pitch pn) in
  let* _ := nrb_writeByte (art pn) in
  let* _ := nrb_writeUint16 (ramp pn) in
  let* _ := nrb_writeUint16 (sect pn) in
  nrb_writeUint16 (layer_i pn).

(** Lines 1419-1432. *)
Fixpoint write_note_loop (n : nat) (i : Z) (pd : NRB_DATA) : M stream unit :=
  match n with
  | O => ret tt
  | S n' =>
      let* _ := write_note (pNote pd !!! Z.to_nat i) in
      write_note_loop n' (i + 1) pd
  end.

(** [nrb_serialize]: the result is the status; nothing is written when
    there is no note. *)
Definition nrb_serialize (pd : NRB_DATA) : M stream Z :=
  if note_count pd >? 0 then
    let* _ := nrb_writeUint32 (to_uint32 NRB_SIGPRI) in
    let* _ := nrb_writeUint32 (to_uint32 NRB_SIGSEC) in
    let* _ := nrb_writeByte 1 in
    let* _ := nrb_writeByte 0 in
    let* _ := nrb_writeUint16 (to_uint16 (sect_count pd)) in
    let* _ := nrb_writeUint32 (to_uint32 (note_count pd)) in
    let* _ := nrb_writeUint32 0 in
    let* _ := nrb_writeUint32 0 in
    let* _ := nrb_writeUint32 0 in
    let* _ := nrb_writeUint32 0 in
    let* _ := write_sect_loop (Z.to_nat (sect_count pd)) 0 pd in
    let* _ := write_note_loop (Z.to_nat (note_count pd)) 0 pd in
    ret 1
  else ret 0.

(** ** The byte image of values (specification level) *)

(** The eight, four and two bytes of a value, most significant first. *)
Definition be16 (v : Z) : stream :=
  [byte_of_Z (v / 256); byte_of_Z (v mod 256)].
Definition be32 (v : Z) : stream :=
  [byte_of_Z (v / 16777216); byte_of_Z (v / 65536 mod 256);
   byte_of_Z (v / 256 mod 256); byte_of_Z (v mod 256)].
Definition be64 (v : Z) : stream :=
  [byte_of_Z (v / 72057594037927936); byte_of_Z (v / 281474976710656 mod 256);
   byte_of_Z (v / 1099511627776 mod 256); byte_of_Z (v / 4294967296 mod 256);
   byte_of_Z (v / 16777216 mod 256); byte_of_Z (v / 65536 mod 256);
   byte_of_Z (v / 256 mod 256); byte_of_Z (v mod 256)].

(** The value of a sequence of bytes read most significant first. *)
Definition be_val (bs : stream) : Z :=
  fold_left (fun acc b => acc * 256 + byte_val b) bs 0.

(** ** Well-formed documents (specification level) *)

(** The seven rules of the validator for a note, relative to a section
    count and a section table. *)
Definition note_ok (count : Z) (table : list Z) (pn : NRB_NOTE) : Prop :=
  0 <= start pn /\
  start pn < release pn /\
  NRB_MINPITCH <= pitch pn <= NRB_MAXPITCH /\
  Z.land (art pn) 63 <= NRB_MAXART /\
  ramp pn <= NRB_MAXRAMP /\
  0 <= sect pn < count /\
  table !!! Z.to_nat (sect pn) <= start pn.

Definition note_valid (pd : NRB_DATA) (pn : NRB_NOTE) : Prop :=
  note_ok (sect_count pd) (sections pd) pn.

(** The rule of the validator for a new section offset. *)
Definition sect_valid (pd : NRB_DATA) (offset : Z) : Prop :=
  0 <= offset /\
  sections pd !!! Z.to_nat (sect_count pd - 1) <= offset.

(** A section table: first offset zero, offsets non-decreasing and within
    [int64_t]. *)
Definition sect_table_ok (l : list Z) : Prop :=
  (forall x, l !! 0%nat = Some x -> x = 0) /\
  (forall i x y, l !! i = Some x -> l !! S i = Some y -> x <= y) /\
  Forall (fun x => x <= NRB_MAXUINT64) l.

(** The invariant that the comments of [struct NRB_DATA_TAG] describe. *)
Record doc_inv (pd : NRB_DATA) : Prop := {
  inv_sect_count : 1 <= sect_count pd <= NRB_MAXSECT;
  inv_sect_cap : sect_count pd <= sect_cap pd <= NRB_MAXSECT;
  inv_sect_len : length (pSect pd) = Z.to_nat (sect_cap pd);
  inv_note_count : 0 <= note_count pd <= NRB_MAXNOTE;
  inv_note_cap : note_count pd <= note_cap pd <= NRB_MAXNOTE;
  inv_note_len : length (pNote pd) = Z.to_nat (note_cap pd);
  inv_sections : sect_table_ok (sections pd);
  inv_notes : Forall (fun pn => note_typed pn /\ note_valid pd pn) (notes pd)
}.

(** Calling [f] on each element of [l] in turn, as a client that stops at
    the first zero status would. *)
Fixpoint append_each {S A} (f : A -> M S Z) (l : list A) : M S Z :=
  match l with
  | [] => ret 1
  | x :: l' =>
      let* st := f x in
      if st =? 0 then ret 0 else append_each f l'
  end.

(** A document built through the public interface: allocated or parsed, then
    modified by calls that returned.  Arguments range over the values of
    their C types. *)
Inductive constructed (qsort : qsort_type) : NRB_DATA -> Prop :=
  | constructed_alloc : constructed qsort nrb_alloc
  | constructed_parse pf pd ver rest :
      nrb_parse pf = Done (Some pd, ver) rest ->
      constructed qsort pd
  | constructed_sect pd offset st pd' :
      constructed qsort pd ->
      -9223372036854775808 <= offset <= 9223372036854775807 ->
      nrb_sect offset pd = Done st pd' ->
      constructed qsort pd'
  | constructed_append pd pn st pd' :
      constructed qsort pd ->
      note_typed pn ->
      nrb_append pn pd = Done st pd' ->
      constructed qsort pd'
  | constructed_set pd note_i pn pd' :
      constructed qsort pd ->
      note_typed pn ->
      nrb_set note_i pn pd = Done tt pd' ->
      constructed qsort pd'
  | constructed_sort pd pd' :
      constructed qsort pd ->
      nrb_sort qsort pd = Done tt pd' ->
      constructed qsort pd'.

(** The value [nrb_cmp] returns: the sign of the difference of the start
    times. *)
Definition cmp_start (pa pb : NRB_NOTE) : Z :=
  if start pa <? start pb then -1
  else if start pa >? start pb then 1
  else 0.

(** Ascending order of start times. *)
Definition by_start (pa pb : NRB_NOTE) : Prop := start pa <= start pb.

(** Sample data for the instances below. *)
Definition growth_notes : list NRB_NOTE :=
  [mkNote 0 1000 0 0 0 0 7; mkNote 10 20 (-39) 189 16384 0 0].

(** A document with both tables at their ceiling. *)
Definition full_doc : NRB_DATA :=
  mkData NRB_MAXSECT NRB_MAXSECT NRB_MAXNOTE NRB_MAXNOTE
         (replicate (Z.to_nat NRB_MAXSECT) 0)
         (replicate (Z.to_nat NRB_MAXNOTE) zero_note).

(** ** The byte image of a document (specification level) *)

(** The twenty-four bytes of a note record. *)
Definition note_bytes (pn : NRB_NOTE) : stream :=
  be64 (start pn) ++ be64 (release pn) ++
  [byte_of_Z (pitch pn + NRB_BIAS8); byte_of_Z (art pn)] ++
  be16 (ramp pn) ++ be16 (sect pn) ++ be16 (layer_i pn).

(** Signatures and version: ten bytes. *)
Definition version_bytes (minor : Z) : stream :=
  be32 NRB_SIGPRI ++ be32 NRB_SIGSEC ++ [byte_of_Z 1; byte_of_Z minor].

(** Counts and reserved fields: twenty-two bytes. *)
Definition counts_bytes (sect_count note_count : Z) (rsv : Z * Z * Z * Z)
    : stream :=
  let '(r1, r2, r3, r4) := rsv in
  be16 sect_count ++ be32 note_count ++
  be32 r1 ++ be32 r2 ++ be32 r3 ++ be32 r4.

Definition tables_bytes (sects : list Z) (nts : list NRB_NOTE) : stream :=
  flat_map be64 sects ++ flat_map note_bytes nts.

(** The NRB file of a document, with a given minor version and given
    reserved fields. *)
Definition nrb_image (minor : Z) (rsv : Z * Z * Z * Z) (pd : NRB_DATA)
    : stream :=
  version_bytes minor ++
  counts_bytes (sect_count pd) (note_count pd) rsv ++
  tables_bytes (sections pd) (notes pd).

(** The document [nrb_parse] builds for the tables of [pd]: capacities equal
    to the counts. *)
Definition trimmed (pd : NRB_DATA) : NRB_DATA :=
  mkData (sect_count pd) (sect_count pd) (note_count pd) (note_count pd)
         (sections pd) (notes pd).

Definition ver_of_minor (minor : Z) : Z :=
  if minor =? 0 then NRB_VER_OK else NRB_VER_MINOR.

Definition rsv_ok (rsv : Z * Z * Z * Z) : Prop :=
  let '(r1, r2, r3, r4) := rsv in
  0 <= r1 <= NRB_MAXUINT32 /\ 0 <= r2 <= NRB_MAXUINT32 /\
  0 <= r3 <= NRB_MAXUINT32 /\ 0 <= r4 <= NRB_MAXUINT32.

(** A document built by two calls of [nrb_append]. *)
Definition sample_doc : NRB_DATA :=
  match append_each nrb_append growth_notes nrb_alloc with
  | Done _ pd => pd
  | Fault pd => pd
  end.

(** The stream of scenario B, byte for byte: signatures, version 1.1, one
    section, one note, zero reserved fields, section offset 0, and the note
    start 0, release 1000, pitch 0, articulation 0, ramp 0, section 0,
    layer 0. *)
Definition scenario_b : stream :=
  [x72; xed; xf0; x78;  x2e; x6e; x72; x62;  x01; x01;  x00; x01;
   x00; x00; x00; x01;
   x00; x00; x00; x00;  x00; x00; x00; x00;
   x00; x00; x00; x00;  x00; x00; x00; x00;
   x00; x00; x00; x00; x00; x00; x00; x00;
   x00; x00; x00; x00; x00; x00; x00; x00;
   x00; x00; x00; x00; x00; x00; x03; xe8;
   x80; x00;  x00; x00;  x00; x00;  x00; x00].

Definition scenario_b_note : NRB_NOTE := mkNote 0 1000 0 0 0 0 0.

(** A stream with two section offsets, 0 and 2^63, followed by one note. *)
Definition high_offset_stream : stream :=
  version_bytes 0 ++ counts_bytes 2 1 (0, 0, 0, 0) ++
  flat_map be64 [0; 9223372036854775808] ++
  note_bytes (mkNote 0 1 0 0 0 0 0).

(** The stream of scenario B with the top bit of the first reserved field
    set. *)
Definition reserved_high_stream : stream :=
  take 16 scenario_b ++ [x80] ++ drop 17 scenario_b.

(** The reserved fields of a stream are within the range of the format's
    32-bit integers: the first byte of each field, when present, has its
    top bit clear. *)
Definition reserved_in_range (s : stream) : Prop :=
  forall (k : nat) (b : byte),
    (k < 4)%nat -> s !! (16 + 4 * k)%nat = Some b -> byte_val b < 128.

(** Two streams of the same length that agree outside bytes 16 to 31. *)
Definition differ_in_reserved_only (s1 s2 : stream) : Prop :=
  length s1 = length s2 /\
  forall i : nat, (i < 16 \/ 32 <= i)%nat -> s1 !! i = s2 !! i.

(** The document that scenario B describes, as [nrb_parse] builds it. *)
Definition scenario_b_doc : NRB_DATA :=
  mkData 1 1 1 1 [0] [scenario_b_note].

(** The stream of scenario B with other reserved fields, all within the
    range of the format. *)
Definition reserved_low_stream : stream :=
  take 16 scenario_b ++
  [x7f; xff; xff; xff;  x00; x00; x00; x01;
   x12; x34; x56; x78;  x00; xff; x00; xff] ++
  drop 32 scenario_b.

(** ** Parsing a file by path ([nrb.c] lines 1070-1099)

    The file system is a function from paths to file contents; [fopen]
    for reading fails on a path without content.  [pVer] is provided. *)
Definition nrb_parse_path (pPath : string)
    : M (string -> option (list byte)) (option NRB_DATA * Z) :=
  fun fs =>
    match fs pPath with
    | Some fp =>
        match nrb_parse fp with
        | Done pResult _ => Done pResult fs
        | Fault _ => Fault fs
        end
    | None => Done (None, NRB_VER_ERROR) fs
    end.

(** ** The command-line tool ([nrbwalk.c])

    A text file opened for writing is the list of bytes written so far,
    like the binary files above. *)

(** The newline character. *)
Definition nl : string := String.string_of_list_byte [x0a].

(** [fprintf], given the text that the format and its arguments produce. *)
Definition fprintf (text : string) : M stream unit :=
  fun po => Done tt (po ++ String.list_byte_of_string text).

(** A call of a function of the library on the document [pd], from a
    computation with another state. *)
Definition on_doc {S A} (pd : NRB_DATA) (m : M NRB_DATA A) : M S A :=
  fun s =>
    match m pd with
    | Done a _ => Done a s
    | Fault _ => Fault s
    end.

Definition to_int64 (x : Z) : Z :=
  (x + 9223372036854775808) mod 18446744073709551616 - 9223372036854775808.

(** The text of the two [fprintf] calls in the loops of [report]
    (lines 83-85 and 96-106). *)
Definition section_text (x off : Z) : string :=
  "SECTION " +:+ pretty x +:+ " AT " +:+ pretty off +:+ nl.

Definition note_text (n : NRB_NOTE) : string :=
  "NOTE T=" +:+ pretty (start n) +:+
  " DUR=" +:+ pretty (to_int64 (release n - start n)) +:+
  " Pi=" +:+ pretty (pitch n) +:+
  " Pd=" +:+ pretty (Z.shiftr (Z.land (art n) 128) 7) +:+
  " Gr=" +:+ pretty (Z.shiftr (Z.land (art n) 64) 6) +:+
  " A=" +:+ pretty (art n) +:+
  " R=" +:+ pretty (ramp n) +:+
  " S=" +:+ pretty (sect n) +:+
  " L=" +:+ pretty (layer_i n + 1) +:+ nl.

(** Lines 82-86. *)
Fixpoint report_sect_loop (n : nat) (x : Z) (pd : NRB_DATA) : M stream unit :=
  match n with
  | O => ret tt
  | S n' =>
      let* off := on_doc pd (nrb_offset x) in
      let* _ := fprintf (section_text x off) in
      report_sect_loop n' (x + 1) pd
  end.

(** Lines 90-107. *)
Fixpoint report_note_loop (n : nat) (x : Z) (pd : NRB_DATA) : M stream unit :=
  match n with
  | O => ret tt
  | S n' =>
      let* pn := on_doc pd (nrb_get x) in
      let* _ := fprintf (note_text pn) in
      report_note_loop n' (x + 1) pd
  end.

(** [report], on the output file [po]. *)
Definition report (pd : NRB_DATA) : M stream unit :=
  let* scount := on_doc pd nrb_sections in
  let* ncount := on_doc pd nrb_notes in
  let* _ := fprintf ("SECTIONS: " +:+ pretty scount +:+ nl) in
  let* _ := fprintf ("NOTES   : " +:+ pretty ncount +:+ nl) in
  let* _ := fprintf nl in
  let* _ := report_sect_loop (Z.to_nat scount) 0 pd in
  let* _ := fprintf nl in
  report_note_loop (Z.to_nat ncount) 0 pd.

(** The three standard streams of the process. *)
Record walk_io : Type := mkIO {
  io_stdin : list byte;
  io_stdout : list byte;
  io_stderr : list byte
}.

Definition on_stdin {A} (m : M stream A) : M walk_io A :=
  fun io =>
    match m (io_stdin io) with
    | Done a s => Done a (mkIO s (io_stdout io) (io_stderr io))
    | Fault s => Fault (mkIO s (io_stdout io) (io_stderr io))
    end.

Definition on_stdout {A} (m : M stream A) : M walk_io A :=
  fun io =>
    match m (io_stdout io) with
    | Done a s => Done a (mkIO (io_stdin io) s (io_stderr io))
    | Fault s => Fault (mkIO (io_stdin io) s (io_stderr io))
    end.

Definition on_stderr {A} (m : M stream A) : M walk_io A :=
  fun io =>
    match m (io_stderr io) with
    | Done a s => Done a (mkIO (io_stdin io) (io_stdout io) s)
    | Fault s => Fault (mkIO (io_stdin io) (io_stdout io) s)
    end.

(** Lines 159-182 of [main]: parsing standard input and reporting on the
    version status.  The result is [(status, pd)]. *)
Definition main_parse (pModule : string) : M walk_io (bool * option NRB_DATA) :=
  let* (pd, ver) := on_stdin nrb_parse in
  let* _ :=
    if negb (ver =? NRB_VER_OK) then
      if ver =? NRB_VER_MINOR then
        on_stderr (fprintf
          (pModule +:+ ": WARNING: Unsupported minor NRB version!" +:+ nl))
      else if ver =? NRB_VER_MAJOR then
        on_stderr (fprintf
          (pModule +:+ ": ERROR: Unsupported major NRB version!" +:+ nl))
      else
        on_stderr (fprintf
          (pModule +:+ ": Couldn't read valid NRB version!" +:+ nl))
    else ret tt in
  match pd with
  | None =>
      let* _ := on_stderr (fprintf
        (pModule +:+ ": A valid NRB file could not be read!" +:+ nl)) in
      ret (false, pd)
  | Some _ => ret (true, pd)
  end.

(** [main]: [argv] is the list of the [argc] arguments, none of them
    [NULL]; the result is the exit status.  [nrb_free] has no counterpart
    in a model without a heap. *)
Definition main (argv : list string) : M walk_io Z :=
  let argc := Z.of_nat (length argv) in
  let pModule :=
    match argv with
    | a :: _ => a
    | [] => "nrbwalk"
    end in
  let* status :=
    if argc >? 2 then
      let* _ := on_stderr (fprintf
        (pModule +:+ ": Too many arguments!" +:+ nl)) in
      ret false
    else ret true in
  let* (status, silent) :=
    if status && (argc =? 2) then
      if negb (String.eqb (argv !!! 1%nat) "-check") then
        let* _ := on_stderr (fprintf
          (pModule +:+ ": Unrecognized argument!" +:+ nl)) in
        ret (false, false)
      else ret (true, true)
    else ret (status, false) in
  let* (status, pd) :=
    if status then main_parse pModule
    else ret (false, None) in
  let* _ :=
    if status && negb silent then
      match pd with
      | Some d => on_stdout (report d)
      | None => abort
      end
    else ret tt in
  ret (if status then 0 else 1).

(** What [report] writes for given tables (specification level). *)
Fixpoint sect_lines (x : Z) (l : list Z) : list byte :=
  match l with
  | [] => []
  | off :: l' =>
      String.list_byte_of_string (section_text x off) ++ sect_lines (x + 1) l'
  end.

Definition report_bytes (pd : NRB_DATA) : list byte :=
  String.list_byte_of_string
    ("SECTIONS: " +:+ pretty (sect_count pd) +:+ nl) ++
  String.list_byte_of_string
    ("NOTES   : " +:+ pretty (note_count pd) +:+ nl) ++
  String.list_byte_of_string nl ++
  sect_lines 0 (sections pd) ++
  String.list_byte_of_string nl ++
  flat_map (fun pn => String.list_byte_of_string (note_text pn)) (notes pd).

(** The arguments [main] accepts: at most one beyond the program name, and
    that one equal to [-check]. *)
Definition args_ok (argv : list string) : Prop :=
  (length argv <= 1)%nat \/ exists prog, argv = [prog; "-check"].

(** A file system with one file, holding the stream of scenario B. *)
Definition sample_fs (path : string) : option (list byte) :=
  if String.eqb path "b.nrb" then Some scenario_b else None.

(** The process state of [nrbwalk] started on the stream of scenario B,
    and the states it ends in without argument and with [-check]. *)
Definition sample_io : walk_io := mkIO scenario_b [] [].

Definition minor_warning : list byte :=
  String.list_byte_of_string
    ("nrbwalk: WARNING: Unsupported minor NRB version!" +:+ nl).

Definition sample_io_report : walk_io :=
  mkIO [] (report_bytes scenario_b_doc) minor_warning.

Definition sample_io_check : walk_io := mkIO [] [] minor_warning.

(** A document built by two calls of [nrb_sect], with offsets 7 and 12. *)
Definition sectioned_doc : NRB_DATA :=
  match append_each nrb_sect [7; 12] nrb_alloc with
  | Done _ pd => pd
  | Fault pd => pd
  end.

(** * Properties *)

(** ** Bytes and big-endian arithmetic *)

Lemma byte_val_range (b : byte) : 0 <= byte_val b <= 255.
Proof.
  unfold byte_val. pose proof (Byte.to_N_bounded b). lia.
Qed.

Lemma byte_val_of_Z (c : Z) : 0 <= c <= 255 -> byte_val (byte_of_Z c) = c.
Proof.
  intros Hc. unfold byte_of_Z, byte_val.
  destruct (Byte.of_N (Z.to_N c)) as [b|] eqn:E.
  - apply Byte.to_of_N in E. rewrite E. lia.
  - apply Byte.of_N_None_iff in E. lia.
Qed.

Lemma byte_of_Z_val (b : byte) : byte_of_Z (byte_val b) = b.
Proof.
  unfold byte_of_Z, byte_val. now rewrite N2Z.id, Byte.of_to_N.
Qed.

Lemma land_shiftl8_low (a c : Z) :
  0 <= c < 256 -> Z.land (Z.shiftl a 8) c = 0.
Proof.
  intros Hc. apply Z.bits_inj'. intros n Hn.
  rewrite Z.land_spec, Z.bits_0.
  destruct (Z.lt_ge_cases n 8) as [Hlt|Hge].
  - now rewrite Z.shiftl_spec_low.
  - destruct (Z.eq_dec c 0) as [->|Hc0].
    + now rewrite Z.bits_0, andb_false_r.
    + rewrite (Z.bits_above_log2 c n), andb_false_r; [easy|lia|].
      apply Z.lt_le_trans with 8; [|easy].
      apply Z.log2_lt_pow2; lia.
Qed.

Lemma lor_shiftl8 (a c : Z) :
  0 <= c < 256 -> Z.lor (Z.shiftl a 8) c = a * 256 + c.
Proof.
  intros Hc. rewrite <- Z.lxor_lor, <- Z.add_nocarry_lxor
    by now apply land_shiftl8_low.
  now rewrite Z.shiftl_mul_pow2.
Qed.

(** One turn of the reading loop, in arithmetic. *)
Lemma read_step_arith (modulus a c : Z) :
  0 <= a -> a * 256 + 255 < modulus -> 0 <= c < 256 ->
  Z.lor (Z.shiftl a 8 mod modulus) c = a * 256 + c.
Proof.
  intros Ha Hm Hc.
  rewrite Z.mod_small by (rewrite Z.shiftl_mul_pow2; lia).
  now apply lor_shiftl8.
Qed.

Lemma to_int32_small (x : Z) :
  -2147483648 <= x <= 2147483647 -> to_int32 x = x.
Proof. intros Hx. unfold to_int32. rewrite Z.mod_small by lia. lia. Qed.

Lemma shiftr_div (v k : Z) : 0 <= k -> Z.shiftr v k = v / 2 ^ k.
Proof. intros. now apply Z.shiftr_div_pow2. Qed.

Lemma land_255 (v : Z) : Z.land v 255 = v mod 256.
Proof. change 255 with (Z.ones 8). now rewrite Z.land_ones. Qed.

Ltac ediv := Z.to_euclidean_division_equations; lia.

Lemma be_val_be16 (v : Z) : 0 <= v < 65536 -> be_val (be16 v) = v.
Proof.
  intros Hv. unfold be_val, be16. simpl.
  rewrite !byte_val_of_Z by ediv. ediv.
Qed.

Lemma be_val_be32 (v : Z) : 0 <= v < 4294967296 -> be_val (be32 v) = v.
Proof.
  intros Hv. unfold be_val, be32. simpl.
  rewrite !byte_val_of_Z by ediv. ediv.
Qed.

Lemma be_val_be64 (v : Z) :
  0 <= v < 18446744073709551616 -> be_val (be64 v) = v.
Proof.
  intros Hv. unfold be_val, be64. simpl.
  rewrite !byte_val_of_Z by ediv. ediv.
Qed.

Lemma be16_be_val (bs : stream) : length bs = 2%nat -> be16 (be_val bs) = bs.
Proof.
  destruct bs as [|b0 [|b1 [|]]]; try discriminate. intros _.
  pose proof (byte_val_range b0). pose proof (byte_val_range b1).
  set (v := be_val _).
  assert (Hv : v = byte_val b0 * 256 + byte_val b1)
    by (subst v; unfold be_val; simpl; lia).
  unfold be16.
  replace (v / 256) with (byte_val b0) by ediv.
  replace (v mod 256) with (byte_val b1) by ediv.
  now rewrite !byte_of_Z_val.
Qed.

Lemma be32_be_val (bs : stream) : length bs = 4%nat -> be32 (be_val bs) = bs.
Proof.
  destruct bs as [|b0 [|b1 [|b2 [|b3 [|]]]]]; try discriminate. intros _.
  pose proof (byte_val_range b0). pose proof (byte_val_range b1).
  pose proof (byte_val_range b2). pose proof (byte_val_range b3).
  set (v := be_val _).
  assert (Hv : v = ((byte_val b0 * 256 + byte_val b1) * 256 + byte_val b2)
                   * 256 + byte_val b3)
    by (subst v; unfold be_val; simpl; lia).
  unfold be32.
  replace (v / 16777216) with (byte_val b0) by ediv.
  replace (v / 65536 mod 256) with (byte_val b1) by ediv.
  replace (v / 256 mod 256) with (byte_val b2) by ediv.
  replace (v mod 256) with (byte_val b3) by ediv.
  now rewrite !byte_of_Z_val.
Qed.

Lemma be64_be_val (bs : stream) : length bs = 8%nat -> be64 (be_val bs) = bs.
Proof.
  destruct bs as [|b0 [|b1 [|b2 [|b3 [|b4 [|b5 [|b6 [|b7 [|]]]]]]]]];
    try discriminate. intros _.
  pose proof (byte_val_range b0). pose proof (byte_val_range b1).
  pose proof (byte_val_range b2). pose proof (byte_val_range b3).
  pose proof (byte_val_range b4). pose proof (byte_val_range b5).
  pose proof (byte_val_range b6). pose proof (byte_val_range b7).
  set (v := be_val _).
  assert (Hv : v = (((((((byte_val b0 * 256 + byte_val b1) * 256
                   + byte_val b2) * 256 + byte_val b3) * 256
                   + byte_val b4) * 256 + byte_val b5) * 256
                   + byte_val b6) * 256 + byte_val b7))
    by (subst v; unfold be_val; simpl; lia).
  unfold be64.
  replace (v / 72057594037927936) with (byte_val b0) by ediv.
  replace (v / 281474976710656 mod 256) with (byte_val b1) by ediv.
  replace (v / 1099511627776 mod 256) with (byte_val b2) by ediv.
  replace (v / 4294967296 mod 256) with (byte_val b3) by ediv.
  replace (v / 16777216 mod 256) with (byte_val b4) by ediv.
  replace (v / 65536 mod 256) with (byte_val b5) by ediv.
  replace (v / 256 mod 256) with (byte_val b6) by ediv.
  replace (v mod 256) with (byte_val b7) by ediv.
  now rewrite !byte_of_Z_val.
Qed.

Lemma be_val_snoc (bs : stream) (b : byte) :
  be_val (bs ++ [b]) = be_val bs * 256 + byte_val b.
Proof. unfold be_val. now rewrite fold_left_app. Qed.

Lemma be_val_bound (bs : stream) :
  0 <= be_val bs < 256 ^ Z.of_nat (length bs).
Proof.
  induction bs as [|b bs IH] using rev_ind.
  - unfold be_val; simpl; lia.
  - rewrite be_val_snoc, length_app, Nat2Z.inj_add, Z.pow_add_r by lia.
    pose proof (byte_val_range b). simpl (length [b]).
    change (256 ^ Z.of_nat 1) with 256. nia.
Qed.

(** ** The primitive codec *)

Lemma nrb_writeByte_ok (c : Z) (out : stream) :
  0 <= c <= 255 -> nrb_writeByte c out = Done tt (out ++ [byte_of_Z c]).
Proof.
  intros Hc. unfold nrb_writeByte.
  destruct (c <? 0) eqn:E1; [lia|]. destruct (c >? 255) eqn:E2; [lia|].
  reflexivity.
Qed.

Ltac norm_bits :=
  rewrite ?shiftr_div by lia; rewrite ?land_255;
  change (2 ^ 8) with 256; change (2 ^ 16) with 65536;
  change (2 ^ 24) with 16777216; change (2 ^ 32) with 4294967296;
  change (2 ^ 40) with 1099511627776; change (2 ^ 48) with 281474976710656;
  change (2 ^ 56) with 72057594037927936.

Lemma nrb_writeUint16_ok (v : Z) (out : stream) :
  0 <= v < 65536 -> nrb_writeUint16 v out = Done tt (out ++ be16 v).
Proof.
  intros Hv. unfold nrb_writeUint16, bind, be16. norm_bits.
  rewrite !nrb_writeByte_ok by ediv.
  now rewrite <- !app_assoc.
Qed.

Lemma nrb_writeUint32_ok (v : Z) (out : stream) :
  0 <= v < 4294967296 -> nrb_writeUint32 v out = Done tt (out ++ be32 v).
Proof.
  intros Hv. unfold nrb_writeUint32, bind, be32. norm_bits.
  rewrite !nrb_writeByte_ok by ediv.
  now rewrite <- !app_assoc.
Qed.

Lemma nrb_writeUint64_ok (v : Z) (out : stream) :
  0 <= v < 18446744073709551616 ->
  nrb_writeUint64 v out = Done tt (out ++ be64 v).
Proof.
  intros Hv. unfold nrb_writeUint64, bind, be64. norm_bits.
  rewrite !nrb_writeByte_ok by ediv.
  now rewrite <- !app_assoc.
Qed.

Lemma nrb_writeBias8_ok (v : Z) (out : stream) :
  -128 <= v <= 127 ->
  nrb_writeBias8 v out = Done tt (out ++ [byte_of_Z (v + 128)]).
Proof.
  intros Hv. unfold nrb_writeBias8, NRB_MINBIAS8, NRB_MAXBIAS8, NRB_BIAS8.
  destruct (v <? -128) eqn:E1; [lia|]. destruct (v >? 127) eqn:E2; [lia|].
  simpl. apply nrb_writeByte_ok. lia.
Qed.

Lemma read_raw_eof (modulus : Z) (n : nat) :
  forall (pv : Z) (s : stream),
    (length s < n)%nat ->
    exists pv', read_raw modulus n pv s = Done (false, pv') [].
Proof.
  induction n as [|n IH]; intros pv s Hlen; [lia|].
  destruct s as [|b s]; simpl.
  - unfold bind. simpl. eauto.
  - unfold bind. simpl. pose proof (byte_val_range b).
    destruct (byte_val b <? 0) eqn:E; [lia|].
    apply IH. simpl in Hlen. lia.
Qed.

Lemma read_raw_ok (modulus : Z) (n : nat) :
  forall (pv : Z) (s : stream),
    (n <= length s)%nat ->
    0 <= pv -> (pv + 1) * 256 ^ Z.of_nat n <= modulus ->
    read_raw modulus n pv s =
      Done (true, fold_left (fun acc b => acc * 256 + byte_val b)
                            (take n s) pv)
           (drop n s).
Proof.
  induction n as [|n IH]; intros pv s Hlen Hpv Hm.
  - reflexivity.
  - destruct s as [|b s]; [simpl in Hlen; lia|].
    simpl. unfold bind. simpl. pose proof (byte_val_range b).
    destruct (byte_val b <? 0) eqn:E; [lia|].
    rewrite Nat2Z.inj_succ, Z.pow_succ_r in Hm by lia.
    assert (0 < 256 ^ Z.of_nat n) by (apply Z.pow_pos_nonneg; lia).
    rewrite read_step_arith by nia.
    apply IH; [simpl in Hlen; lia|lia|nia].
Qed.

Lemma be_val_take_bound (n : nat) (s : stream) :
  (n <= length s)%nat -> 0 <= be_val (take n s) < 256 ^ Z.of_nat n.
Proof.
  intros Hlen. pose proof (be_val_bound (take n s)) as H.
  rewrite length_take in H. now replace (n `min` length s)%nat with n in H by lia.
Qed.

Lemma nrb_readUint64_ok (s : stream) :
  (8 <= length s)%nat ->
  nrb_readUint64 s =
    Done (if be_val (take 8 s) >? NRB_MAXUINT64 then -1
          else be_val (take 8 s))
         (drop 8 s).
Proof.
  intros Hlen. unfold nrb_readUint64, nrb_read64, bind.
  rewrite read_raw_ok by (try done; vm_compute; discriminate).
  fold (be_val (take 8 s)). unfold ret.
  now destruct (be_val (take 8 s) >? NRB_MAXUINT64).
Qed.

Lemma nrb_readUint64_eof (s : stream) :
  (length s < 8)%nat -> nrb_readUint64 s = Done (-1) [].
Proof.
  intros Hlen. unfold nrb_readUint64, nrb_read64, bind.
  destruct (read_raw_eof 18446744073709551616 8 0 s Hlen) as [pv ->].
  reflexivity.
Qed.

Lemma nrb_readUint32_ok (s : stream) :
  (4 <= length s)%nat ->
  nrb_readUint32 s =
    Done (if be_val (take 4 s) >? NRB_MAXUINT32 then -1
          else be_val (take 4 s))
         (drop 4 s).
Proof.
  intros Hlen. unfold nrb_readUint32, nrb_read32, bind.
  rewrite read_raw_ok by (try done; vm_compute; discriminate).
  fold (be_val (take 4 s)). unfold ret.
  now destruct (be_val (take 4 s) >? NRB_MAXUINT32).
Qed.

Lemma nrb_readUint32_eof (s : stream) :
  (length s < 4)%nat -> nrb_readUint32 s = Done (-1) [].
Proof.
  intros Hlen. unfold nrb_readUint32, nrb_read32, bind.
  destruct (read_raw_eof 4294967296 4 0 s Hlen) as [pv ->].
  reflexivity.
Qed.

Lemma nrb_readUint16_ok (s : stream) :
  (2 <= length s)%nat ->
  nrb_readUint16 s = Done (be_val (take 2 s)) (drop 2 s).
Proof.
  intros Hlen. unfold nrb_readUint16, nrb_read16, bind.
  rewrite read_raw_ok by (try done; vm_compute; discriminate).
  fold (be_val (take 2 s)). unfold ret, NRB_MAXUINT16.
  pose proof (be_val_take_bound 2 s Hlen) as Hb.
  change (256 ^ Z.of_nat 2) with 65536 in Hb.
  destruct (be_val (take 2 s) >? 65535) eqn:E; [lia|reflexivity].
Qed.

Lemma nrb_readUint16_eof (s : stream) :
  (length s < 2)%nat -> nrb_readUint16 s = Done (-1) [].
Proof.
  intros Hlen. unfold nrb_readUint16, nrb_read16, bind.
  destruct (read_raw_eof 65536 2 0 s Hlen) as [pv ->].
  reflexivity.
Qed.

(** Reading what was written. *)
Lemma nrb_readUint64_be64 (v : Z) (rest : stream) :
  0 <= v <= NRB_MAXUINT64 -> nrb_readUint64 (be64 v ++ rest) = Done v rest.
Proof.
  unfold NRB_MAXUINT64. intros Hv.
  rewrite nrb_readUint64_ok by (simpl; lia).
  change (take 8 (be64 v ++ rest)) with (be64 v).
  change (drop 8 (be64 v ++ rest)) with rest.
  rewrite be_val_be64 by lia. unfold NRB_MAXUINT64.
  destruct (v >? 9223372036854775807) eqn:E; [lia|reflexivity].
Qed.

Lemma nrb_readUint32_be32 (v : Z) (rest : stream) :
  0 <= v <= NRB_MAXUINT32 -> nrb_readUint32 (be32 v ++ rest) = Done v rest.
Proof.
  unfold NRB_MAXUINT32. intros Hv.
  rewrite nrb_readUint32_ok by (simpl; lia).
  change (take 4 (be32 v ++ rest)) with (be32 v).
  change (drop 4 (be32 v ++ rest)) with rest.
  rewrite be_val_be32 by lia. unfold NRB_MAXUINT32.
  destruct (v >? 2147483647) eqn:E; [lia|reflexivity].
Qed.

Lemma nrb_readUint16_be16 (v : Z) (rest : stream) :
  0 <= v <= NRB_MAXUINT16 -> nrb_readUint16 (be16 v ++ rest) = Done v rest.
Proof.
  unfold NRB_MAXUINT16. intros Hv.
  rewrite nrb_readUint16_ok by (simpl; lia).
  change (take 2 (be16 v ++ rest)) with (be16 v).
  change (drop 2 (be16 v ++ rest)) with rest.
  now rewrite be_val_be16 by lia.
Qed.

(** A read that did not return -1 consumed exactly the image of its
    result. *)
Lemma nrb_readUint64_inv (s r : stream) (v : Z) :
  nrb_readUint64 s = Done v r -> 0 <= v ->
  v <= NRB_MAXUINT64 /\ s = be64 v ++ r.
Proof.
  intros H Hv. destruct (le_lt_dec 8 (length s)) as [Hlen|Hlen].
  - rewrite nrb_readUint64_ok in H by done.
    destruct (be_val (take 8 s) >? NRB_MAXUINT64) eqn:E;
      injection H as <- <-; [lia|].
    split; [lia|].
    rewrite be64_be_val by (rewrite length_take; lia).
    now rewrite take_drop.
  - rewrite nrb_readUint64_eof in H by done. injection H as <- <-. lia.
Qed.

Lemma nrb_readUint32_inv (s r : stream) (v : Z) :
  nrb_readUint32 s = Done v r -> 0 <= v ->
  v <= NRB_MAXUINT32 /\ s = be32 v ++ r.
Proof.
  intros H Hv. destruct (le_lt_dec 4 (length s)) as [Hlen|Hlen].
  - rewrite nrb_readUint32_ok in H by done.
    destruct (be_val (take 4 s) >? NRB_MAXUINT32) eqn:E;
      injection H as <- <-; [lia|].
    split; [lia|].
    rewrite be32_be_val by (rewrite length_take; lia).
    now rewrite take_drop.
  - rewrite nrb_readUint32_eof in H by done. injection H as <- <-. lia.
Qed.

Lemma nrb_readUint16_inv (s r : stream) (v : Z) :
  nrb_readUint16 s = Done v r -> 0 <= v ->
  v <= NRB_MAXUINT16 /\ s = be16 v ++ r.
Proof.
  intros H Hv. destruct (le_lt_dec 2 (length s)) as [Hlen|Hlen].
  - rewrite nrb_readUint16_ok in H by done. injection H as <- <-.
    pose proof (be_val_take_bound 2 s Hlen) as Hb.
    change (256 ^ Z.of_nat 2) with 65536 in Hb.
    split; [unfold NRB_MAXUINT16; lia|].
    rewrite be16_be_val by (rewrite length_take; lia).
    now rewrite take_drop.
  - rewrite nrb_readUint16_eof in H by done. injection H as <- <-. lia.
Qed.

(** The readers always return. *)
Lemma nrb_readUint64_total (s : stream) :
  exists v r, nrb_readUint64 s = Done v r.
Proof.
  destruct (le_lt_dec 8 (length s)) as [Hlen|Hlen].
  - rewrite nrb_readUint64_ok by done. eauto.
  - rewrite nrb_readUint64_eof by done. eauto.
Qed.

Lemma nrb_readUint32_total (s : stream) :
  exists v r, nrb_readUint32 s = Done v r.
Proof.
  destruct (le_lt_dec 4 (length s)) as [Hlen|Hlen].
  - rewrite nrb_readUint32_ok by done. eauto.
  - rewrite nrb_readUint32_eof by done. eauto.
Qed.

Lemma nrb_readUint16_total (s : stream) :
  exists v r, nrb_readUint16 s = Done v r.
Proof.
  destruct (le_lt_dec 2 (length s)) as [Hlen|Hlen].
  - rewrite nrb_readUint16_ok by done. eauto.
  - rewrite nrb_readUint16_eof by done. eauto.
Qed.

Lemma nrb_readByte_inv (s r : stream) (c : Z) :
  nrb_readByte s = Done c r -> 0 <= c ->
  c <= 255 /\ s = byte_of_Z c :: r.
Proof.
  destruct s as [|b s]; simpl; intros H Hc; injection H as <- <-; [lia|].
  pose proof (byte_val_range b). now rewrite byte_of_Z_val.
Qed.

Lemma nrb_readByte_total (s : stream) : exists c r, nrb_readByte s = Done c r.
Proof. destruct s; simpl; eauto. Qed.

Lemma nrb_readBias8_cons (pv0 : Z) (b : byte) (rest : stream) :
  nrb_readBias8 pv0 (b :: rest) = Done (true, byte_val b - 128) rest.
Proof.
  unfold nrb_readBias8, bind. simpl. pose proof (byte_val_range b).
  destruct (byte_val b <? 0) eqn:E1; [lia|].
  destruct (byte_val b >? 255) eqn:E2; [lia|]. reflexivity.
Qed.

Lemma nrb_readBias8_nil (pv0 : Z) : nrb_readBias8 pv0 [] = Done (false, pv0) [].
Proof. reflexivity. Qed.

Arguments be16 : simpl never.
Arguments be32 : simpl never.
Arguments be64 : simpl never.

(** ** The biased byte *)

(** C6. Bias encoding symmetry: for every integer [v] in [-128, 127],
    [nrb_writeBias8] appends the single byte of value [v + 128], and
    [nrb_readBias8] on that byte returns success and exactly [v]. *)
Theorem bias8_roundtrip (v pv0 : Z) (out rest : stream) :
  -128 <= v <= 127 ->
  exists b : byte,
    nrb_writeBias8 v out = Done tt (out ++ [b]) /\
    byte_val b = v + 128 /\
    nrb_readBias8 pv0 (b :: rest) = Done (true, v) rest.
Proof.
  intros Hv. exists (byte_of_Z (v + 128)).
  split; [now apply nrb_writeBias8_ok|].
  split; [apply byte_val_of_Z; lia|].
  rewrite nrb_readBias8_cons, byte_val_of_Z by lia.
  do 3 f_equal. lia.
Qed.

Lemma bias8_roundtrip_witness :
  exists b : byte,
    nrb_writeBias8 (-39) [] = Done tt ([] ++ [b]) /\
    byte_val b = -39 + 128 /\
    nrb_readBias8 0 (b :: []) = Done (true, -39) [].
Proof. apply (bias8_roundtrip (-39) 0 [] []). lia. Defined.

(** ** Contract violations of [nrb_append] *)

(** C9. [nrb_append] with a note whose release is not after its start
    reaches [abort()] in the validation branch: the state at the abort is
    the document as it was passed in, so its note count (and everything
    else) is unaltered, and no status is returned. *)
Theorem nrb_append_release_aborts (pd : NRB_DATA) (pn : NRB_NOTE) :
  release pn <= start pn ->
  nrb_append pn pd = Fault pd /\
  (forall pd', nrb_append pn pd = Fault pd' ->
               note_count pd' = note_count pd) /\
  (forall st pd', nrb_append pn pd <> Done st pd').
Proof.
  intros Hrel.
  assert (H : nrb_append pn pd = Fault pd).
  { unfold nrb_append, bind, check_note.
    destruct (start pn <? 0); [reflexivity|].
    destruct (release pn <=? start pn) eqn:E; [reflexivity|lia]. }
  rewrite H. split; [reflexivity|]. split; [|discriminate].
  intros pd' [= <-]. reflexivity.
Qed.

Lemma nrb_append_release_aborts_witness :
  nrb_append (mkNote 5 5 0 0 0 0 0) nrb_alloc = Fault nrb_alloc /\
  (forall pd', nrb_append (mkNote 5 5 0 0 0 0 0) nrb_alloc = Fault pd' ->
               note_count pd' = note_count nrb_alloc) /\
  (forall st pd', nrb_append (mkNote 5 5 0 0 0 0 0) nrb_alloc <> Done st pd').
Proof.
  apply (nrb_append_release_aborts nrb_alloc (mkNote 5 5 0 0 0 0 0)).
  simpl. lia.
Defined.

(** ** The document store *)

Lemma take_S_insert {A} (l l' : list A) (n : nat) (x : A) :
  take n l' = take n l -> (n < length l')%nat ->
  take (S n) (<[n := x]> l') = take n l ++ [x].
Proof.
  intros Ht Hn.
  rewrite (take_S_r _ _ x) by now apply list_lookup_insert_eq.
  now rewrite take_insert_ge by lia; rewrite Ht.
Qed.

Lemma lookup_total_take_lt {A} `{Inhabited A} (l : list A) (n i : nat) :
  (i < n)%nat -> take n l !!! i = l !!! i.
Proof.
  intros Hi. rewrite !list_lookup_total_alt. now rewrite lookup_take_lt.
Qed.

Lemma sections_lookup (pd : NRB_DATA) (i : Z) :
  0 <= i < sect_count pd ->
  sections pd !!! Z.to_nat i = pSect pd !!! Z.to_nat i.
Proof. intros Hi. apply lookup_total_take_lt. lia. Qed.

Lemma notes_lookup (pd : NRB_DATA) (i : Z) :
  0 <= i < note_count pd ->
  notes pd !!! Z.to_nat i = pNote pd !!! Z.to_nat i.
Proof. intros Hi. apply lookup_total_take_lt. lia. Qed.

Lemma check_note_ok (pd : NRB_DATA) (pn : NRB_NOTE) :
  note_valid pd pn -> check_note pn pd = Done tt pd.
Proof.
  intros (H1 & H2 & H3 & H4 & H5 & H6 & H7).
  rewrite sections_lookup in H7 by done.
  unfold check_note, bind, gets, nrb_offset, ret.
  repeat match goal with
  | |- context [if ?b then _ else _] =>
      let E := fresh "E" in destruct b eqn:E; try lia
  end; reflexivity.
Qed.

Lemma check_note_inv (pd pd' : NRB_DATA) (pn : NRB_NOTE) (u : unit) :
  check_note pn pd = Done u pd' -> pd' = pd /\ note_valid pd pn.
Proof.
  unfold check_note, bind, gets, nrb_offset, ret, abort, note_valid, note_ok.
  repeat match goal with
  | |- context [if ?b then _ else _] =>
      let E := fresh "E" in destruct b eqn:E; try discriminate
  end.
  destruct u. intros [= <-]. split; [reflexivity|].
  rewrite sections_lookup by lia.
  unfold NRB_MINPITCH, NRB_MAXPITCH in *. lia.
Qed.

Lemma check_note_fault (pd pd' : NRB_DATA) (pn : NRB_NOTE) :
  check_note pn pd = Fault pd' -> pd' = pd.
Proof.
  unfold check_note, bind, gets, nrb_offset, ret, abort.
  repeat match goal with
  | |- context [if ?b then _ else _] => destruct b
  end; congruence.
Qed.

Lemma note_valid_ext (pd pd' : NRB_DATA) (pn : NRB_NOTE) :
  sect_count pd' = sect_count pd -> sections pd' = sections pd ->
  note_valid pd pn -> note_valid pd' pn.
Proof. unfold note_valid. now intros -> ->. Qed.

Lemma note_valid_grow (pd pd' : NRB_DATA) (pn : NRB_NOTE) (x : Z) :
  sect_count pd' = sect_count pd + 1 ->
  sections pd' = sections pd ++ [x] ->
  length (sections pd) = Z.to_nat (sect_count pd) ->
  note_valid pd pn -> note_valid pd' pn.
Proof.
  unfold note_valid, note_ok.
  intros -> -> Hlen (H1 & H2 & H3 & H4 & H5 & H6 & H7).
  rewrite lookup_total_app_l by lia. repeat split; try tauto; lia.
Qed.

Lemma sections_length (pd : NRB_DATA) :
  doc_inv pd -> length (sections pd) = Z.to_nat (sect_count pd).
Proof.
  intros I. unfold sections. rewrite length_take, (inv_sect_len _ I).
  pose proof (inv_sect_cap _ I). lia.
Qed.

Lemma notes_length (pd : NRB_DATA) :
  doc_inv pd -> length (notes pd) = Z.to_nat (note_count pd).
Proof.
  intros I. unfold notes. rewrite length_take, (inv_note_len _ I).
  pose proof (inv_note_cap _ I). lia.
Qed.

Lemma nrb_alloc_inv : doc_inv nrb_alloc.
Proof.
  split.
  - simpl. unfold NRB_MAXSECT. lia.
  - simpl. unfold NRB_SECTALLOC_INIT, NRB_MAXSECT. lia.
  - reflexivity.
  - simpl. unfold NRB_MAXNOTE. lia.
  - simpl. unfold NRB_NOTEALLOC_INIT, NRB_MAXNOTE. lia.
  - reflexivity.
  - change (sections nrb_alloc) with [0].
    split; [now intros x [= <-]|]. split.
    + intros [|i] x y; [|destruct i]; discriminate.
    + repeat constructor. unfold NRB_MAXUINT64. lia.
  - change (notes nrb_alloc) with (@nil NRB_NOTE). constructor.
Qed.

(** Storing a note at index [note_count] of an array that has room. *)
Lemma store_note_inv (pd : NRB_DATA) (pn : NRB_NOTE) (l' : list NRB_NOTE)
    (cap' : Z) :
  doc_inv pd -> note_typed pn -> note_valid pd pn ->
  note_count pd < cap' <= NRB_MAXNOTE ->
  length l' = Z.to_nat cap' ->
  take (Z.to_nat (note_count pd)) l' = notes pd ->
  let pd' := mkData (sect_count pd) (sect_cap pd) (note_count pd + 1) cap'
                    (pSect pd) (<[Z.to_nat (note_count pd) := pn]> l') in
  doc_inv pd' /\ notes pd' = notes pd ++ [pn].
Proof.
  intros I Ht Hv Hcap Hlen Htake pd'.
  pose proof (inv_note_count _ I) as Hnc.
  assert (Hn : notes pd' = notes pd ++ [pn]).
  { unfold notes at 1. simpl.
    replace (Z.to_nat (note_count pd + 1)) with (S (Z.to_nat (note_count pd)))
      by lia.
    apply take_S_insert; [done|lia]. }
  split; [|done].
  split; simpl; try apply I; try lia.
  - rewrite length_insert. lia.
  - rewrite Hn. apply Forall_app. split.
    + eapply Forall_impl; [apply (inv_notes _ I)|].
      intros x [? ?]. split; [done|]. now apply (note_valid_ext pd).
    + constructor; [|constructor]. split; [done|].
      now apply (note_valid_ext pd).
Qed.

Lemma nrb_append_ok (pd : NRB_DATA) (pn : NRB_NOTE) :
  doc_inv pd -> note_typed pn -> note_valid pd pn ->
  note_count pd < NRB_MAXNOTE ->
  exists pd',
    nrb_append pn pd = Done 1 pd' /\
    doc_inv pd' /\
    notes pd' = notes pd ++ [pn] /\
    note_count pd' = note_count pd + 1 /\
    sect_count pd' = sect_count pd /\
    pSect pd' = pSect pd.
Proof.
  intros I Ht Hv Hlt.
  pose proof (inv_note_count _ I) as Hnc.
  pose proof (inv_note_cap _ I) as Hcap.
  pose proof (inv_note_len _ I) as Hlen.
  unfold nrb_append, bind. rewrite check_note_ok by done.
  destruct (note_count pd <? NRB_MAXNOTE) eqn:E; [|lia].
  rewrite (to_int32_small (note_cap pd * 2))
    by (unfold NRB_MAXNOTE in *; lia).
  destruct (note_count pd >=? note_cap pd) eqn:Eg;
    cbn [note_count set_pNote set_note_cap];
    rewrite (to_int32_small (note_count pd + 1))
      by (unfold NRB_MAXNOTE in *; lia).
  - set (c1 := if note_cap pd * 2 <? NRB_NOTEALLOC_INIT
               then NRB_NOTEALLOC_INIT else note_cap pd * 2).
    set (newcap := if c1 >? NRB_MAXNOTE then NRB_MAXNOTE else c1).
    assert (Hnew : note_count pd < newcap <= NRB_MAXNOTE).
    { subst newcap c1. unfold NRB_NOTEALLOC_INIT, NRB_MAXNOTE in *.
      destruct (note_cap pd * 2 <? 256) eqn:E1;
        match goal with |- context [if ?b then _ else _] =>
          destruct b eqn:E2 end; lia. }
    eexists. split; [reflexivity|]. simpl.
    assert (Hl : length (resize (Z.to_nat newcap) zero_note (pNote pd))
                 = Z.to_nat newcap) by now rewrite length_resize.
    assert (Htk : take (Z.to_nat (note_count pd))
                    (resize (Z.to_nat newcap) zero_note (pNote pd))
                  = notes pd)
      by (rewrite resize_ge, take_app_le by lia; reflexivity).
    destruct (store_note_inv pd pn _ newcap I Ht Hv Hnew Hl Htk) as [I' Hn].
    split; [exact I'|]. split; [exact Hn|]. done.
  - eexists. split; [reflexivity|]. simpl.
    assert (Hc : note_count pd < note_cap pd <= NRB_MAXNOTE) by lia.
    destruct (store_note_inv pd pn (pNote pd) (note_cap pd) I Ht Hv Hc Hlen
                eq_refl) as [I' Hn].
    destruct pd; simpl in *. split; [exact I'|]. split; [exact Hn|]. done.
Qed.

Lemma nrb_append_full (pd : NRB_DATA) (pn : NRB_NOTE) :
  note_valid pd pn -> NRB_MAXNOTE <= note_count pd ->
  nrb_append pn pd = Done 0 pd.
Proof.
  intros Hv Hfull. unfold nrb_append, bind. rewrite check_note_ok by done.
  destruct (note_count pd <? NRB_MAXNOTE) eqn:E; [lia|reflexivity].
Qed.

Lemma sect_table_ok_snoc (l : list Z) (x : Z) :
  sect_table_ok l -> (0 < length l)%nat ->
  l !!! (length l - 1)%nat <= x -> x <= NRB_MAXUINT64 ->
  sect_table_ok (l ++ [x]).
Proof.
  intros (H0 & Hadj & Hall) Hlen Hlast Hx.
  split; [|split].
  - now rewrite lookup_app_l.
  - intros i a b Ha Hb.
    destruct (decide (S i < length l)%nat) as [Hi|Hi].
    + rewrite lookup_app_l in Ha, Hb by lia. eauto.
    + assert (Hb' := Hb). apply lookup_lt_Some in Hb'.
      rewrite length_app in Hb'. simpl in Hb'.
      assert (i = (length l - 1)%nat) as -> by lia.
      rewrite lookup_app_l in Ha by lia.
      rewrite lookup_app_r in Hb by lia.
      replace (S (length l - 1) - length l)%nat with 0%nat in Hb by lia.
      injection Hb as <-.
      rewrite list_lookup_total_alt, Ha in Hlast. exact Hlast.
  - apply Forall_app. split; [done|]. now constructor.
Qed.

Lemma sect_check_ok (pd : NRB_DATA) (offset : Z) :
  1 <= sect_count pd -> sect_valid pd offset ->
  (let* count := gets sect_count in
   let* last := nrb_offset (count - 1) in
   if offset <? last then abort else ret tt) pd = Done tt pd.
Proof.
  intros Hsc [H0 Hlast]. rewrite sections_lookup in Hlast by lia.
  unfold bind, gets, nrb_offset, ret.
  destruct (sect_count pd - 1 <? 0) eqn:E1; [lia|].
  destruct (sect_count pd - 1 >=? sect_count pd) eqn:E2; [lia|]. simpl.
  destruct (offset <? pSect pd !!! Z.to_nat (sect_count pd - 1)) eqn:E3; [lia|reflexivity].
Qed.

Lemma nrb_sect_done_valid (pd pd' : NRB_DATA) (offset st : Z) :
  nrb_sect offset pd = Done st pd' -> sect_valid pd offset.
Proof.
  unfold nrb_sect, bind, gets, nrb_offset, abort, sect_valid.
  destruct (offset <? 0) eqn:E0; [discriminate|].
  destruct (sect_count pd - 1 <? 0) eqn:E1; [discriminate|].
  destruct (sect_count pd - 1 >=? sect_count pd) eqn:E2; [discriminate|].
  simpl. destruct (offset <? pSect pd !!! Z.to_nat (sect_count pd - 1)) eqn:E3; [discriminate|].
  intros _. rewrite sections_lookup by lia. lia.
Qed.

Lemma nrb_sect_full (pd : NRB_DATA) (offset : Z) :
  1 <= sect_count pd -> sect_valid pd offset ->
  NRB_MAXSECT <= sect_count pd ->
  nrb_sect offset pd = Done 0 pd.
Proof.
  intros Hsc Hv Hfull. pose proof (sect_check_ok pd offset Hsc Hv) as Hc.
  destruct Hv as [H0 Hlast]. rewrite sections_lookup in Hlast by lia.
  unfold nrb_sect, bind, gets, nrb_offset, ret in *.
  destruct (offset <? 0) eqn:E0; [lia|].
  destruct (sect_count pd - 1 <? 0) eqn:E1; [lia|].
  destruct (sect_count pd - 1 >=? sect_count pd) eqn:E2; [lia|]. simpl.
  destruct (offset <? pSect pd !!! Z.to_nat (sect_count pd - 1)) eqn:E3; [lia|].
  destruct (sect_count pd <? NRB_MAXSECT) eqn:E4; [lia|reflexivity].
Qed.

(** Storing an offset at index [sect_count] of an array that has room. *)
Lemma store_sect_inv (pd : NRB_DATA) (offset : Z) (l' : list Z) (cap' : Z) :
  doc_inv pd -> sect_valid pd offset -> offset <= NRB_MAXUINT64 ->
  sect_count pd < cap' <= NRB_MAXSECT ->
  length l' = Z.to_nat cap' ->
  take (Z.to_nat (sect_count pd)) l' = sections pd ->
  let pd' := mkData (sect_count pd + 1) cap' (note_count pd) (note_cap pd)
                    (<[Z.to_nat (sect_count pd) := offset]> l') (pNote pd) in
  doc_inv pd' /\ sections pd' = sections pd ++ [offset].
Proof.
  intros I [Ho Hlast] Hmax Hcap Hlen Htake pd'.
  pose proof (inv_sect_count _ I) as Hsc.
  pose proof (sections_length _ I) as Hsl.
  assert (Hs : sections pd' = sections pd ++ [offset]).
  { unfold sections at 1. simpl.
    replace (Z.to_nat (sect_count pd + 1)) with (S (Z.to_nat (sect_count pd)))
      by lia.
    apply take_S_insert; [done|lia]. }
  split; [|done].
  split; simpl; try apply I; try lia.
  - rewrite length_insert. lia.
  - rewrite Hs. apply sect_table_ok_snoc; [apply I|lia| |done].
    rewrite Hsl. now replace (Z.to_nat (sect_count pd) - 1)%nat
      with (Z.to_nat (sect_count pd - 1)) by lia.
  - change (notes pd') with (notes pd).
    eapply Forall_impl; [apply (inv_notes _ I)|].
    intros x [? ?]. split; [done|].
    now apply (note_valid_grow pd pd' x offset).
Qed.

Lemma nrb_sect_ok (pd : NRB_DATA) (offset : Z) :
  doc_inv pd -> sect_valid pd offset -> offset <= NRB_MAXUINT64 ->
  sect_count pd < NRB_MAXSECT ->
  exists pd',
    nrb_sect offset pd = Done 1 pd' /\
    doc_inv pd' /\
    sections pd' = sections pd ++ [offset] /\
    sect_count pd' = sect_count pd + 1 /\
    note_count pd' = note_count pd /\
    pNote pd' = pNote pd.
Proof.
  intros I Hv Hmax Hlt.
  pose proof (inv_sect_count _ I) as Hsc.
  pose proof (inv_sect_cap _ I) as Hcap.
  pose proof (inv_sect_len _ I) as Hlen.
  assert (Hv' := Hv). destruct Hv' as [H0 Hlast].
  rewrite sections_lookup in Hlast by lia.
  unfold nrb_sect, bind, gets, nrb_offset, ret.
  destruct (offset <? 0) eqn:E0; [lia|].
  destruct (sect_count pd - 1 <? 0) eqn:E1; [lia|].
  destruct (sect_count pd - 1 >=? sect_count pd) eqn:E2; [lia|]. simpl.
  destruct (offset <? pSect pd !!! Z.to_nat (sect_count pd - 1)) eqn:E3; [lia|].
  destruct (sect_count pd <? NRB_MAXSECT) eqn:E4; [|lia].
  rewrite (to_int32_small (sect_cap pd * 2))
    by (unfold NRB_MAXSECT in *; lia).
  destruct (sect_count pd >=? sect_cap pd) eqn:Eg;
    cbn [sect_count set_pSect set_sect_cap];
    rewrite (to_int32_small (sect_count pd + 1))
      by (unfold NRB_MAXSECT in *; lia).
  - set (c1 := if sect_cap pd * 2 <? NRB_SECTALLOC_INIT
               then NRB_SECTALLOC_INIT else sect_cap pd * 2).
    set (newcap := if c1 >? NRB_MAXSECT then NRB_MAXSECT else c1).
    assert (Hnew : sect_count pd < newcap <= NRB_MAXSECT).
    { subst newcap c1. unfold NRB_SECTALLOC_INIT, NRB_MAXSECT in *.
      destruct (sect_cap pd * 2 <? 16) eqn:E5;
        match goal with |- context [if ?b then _ else _] =>
          destruct b eqn:E6 end; lia. }
    eexists. split; [reflexivity|]. simpl.
    assert (Hl : length (resize (Z.to_nat newcap) 0 (pSect pd))
                 = Z.to_nat newcap) by now rewrite length_resize.
    assert (Htk : take (Z.to_nat (sect_count pd))
                    (resize (Z.to_nat newcap) 0 (pSect pd))
                  = sections pd)
      by (rewrite resize_ge, take_app_le by lia; reflexivity).
    destruct (store_sect_inv pd offset _ newcap I Hv Hmax Hnew Hl Htk)
      as [I' Hn].
    split; [exact I'|]. split; [exact Hn|]. done.
  - eexists. split; [reflexivity|]. simpl.
    assert (Hc : sect_count pd < sect_cap pd <= NRB_MAXSECT) by lia.
    destruct (store_sect_inv pd offset (pSect pd) (sect_cap pd) I Hv Hmax Hc
                Hlen eq_refl) as [I' Hn].
    destruct pd; simpl in *. split; [exact I'|]. split; [exact Hn|]. done.
Qed.

Lemma nrb_offset_ok (pd : NRB_DATA) (i : Z) :
  0 <= i < sect_count pd ->
  nrb_offset i pd = Done (sections pd !!! Z.to_nat i) pd.
Proof.
  intros Hi. unfold nrb_offset. rewrite sections_lookup by done.
  destruct (i <? 0) eqn:E1; [lia|].
  destruct (i >=? sect_count pd) eqn:E2; [lia|]. reflexivity.
Qed.

Lemma nrb_get_ok (pd : NRB_DATA) (i : Z) :
  0 <= i < note_count pd ->
  nrb_get i pd = Done (notes pd !!! Z.to_nat i) pd.
Proof.
  intros Hi. unfold nrb_get. rewrite notes_lookup by done.
  destruct (i <? 0) eqn:E1; [lia|].
  destruct (i >=? note_count pd) eqn:E2; [lia|]. reflexivity.
Qed.

Lemma nrb_set_inv (pd pd' : NRB_DATA) (i : Z) (pn : NRB_NOTE) (u : unit) :
  doc_inv pd -> note_typed pn ->
  nrb_set i pn pd = Done u pd' ->
  doc_inv pd' /\
  0 <= i < note_count pd /\ note_valid pd pn /\
  notes pd' = <[Z.to_nat i := pn]> (notes pd) /\
  note_count pd' = note_count pd /\
  sect_count pd' = sect_count pd /\
  pSect pd' = pSect pd.
Proof.
  intros I Ht. destruct u. unfold nrb_set, bind, gets, abort.
  destruct ((i <? 0) || (i >=? note_count pd)) eqn:E; [discriminate|].
  destruct (check_note pn pd) as [[] pd1|pd1] eqn:Ec; [|discriminate].
  apply check_note_inv in Ec as [-> Hv]. intros [= <-].
  assert (Hn : notes (set_pNote pd (<[Z.to_nat i:=pn]> (pNote pd)))
               = <[Z.to_nat i := pn]> (notes pd)).
  { unfold notes. simpl. apply take_insert_lt. lia. }
  apply orb_false_iff in E as [E1 E2].
  split; [|split; [lia|done]].
  split; simpl; try apply I.
  - rewrite length_insert. apply I.
  - rewrite Hn. apply Forall_insert.
    + eapply Forall_impl; [apply (inv_notes _ I)|].
      intros x [? ?]. split; [done|]. now apply (note_valid_ext pd).
    + split; [done|]. now apply (note_valid_ext pd).
Qed.

(** ** Sorting *)

Lemma nrb_cmp_pure {S} (pa pb : NRB_NOTE) (s : S) :
  nrb_cmp pa pb s = Done (cmp_start pa pb) s.
Proof.
  unfold nrb_cmp, cmp_start, ret.
  destruct (start pa <? start pb) eqn:E1; [reflexivity|].
  destruct (start pa >? start pb) eqn:E2; [reflexivity|].
  destruct (start pa =? start pb) eqn:E3; [reflexivity|lia].
Qed.

Lemma cmp_start_le (pa pb : NRB_NOTE) :
  cmp_start pa pb <= 0 <-> by_start pa pb.
Proof.
  unfold cmp_start, by_start.
  destruct (start pa <? start pb) eqn:E1; [lia|].
  destruct (start pa >? start pb) eqn:E2; lia.
Qed.

Lemma cmp_start_total (pa pb : NRB_NOTE) :
  cmp_start pa pb <= 0 \/ cmp_start pb pa <= 0.
Proof. rewrite !cmp_start_le. unfold by_start. lia. Qed.

Lemma cmp_start_trans (pa pb pc : NRB_NOTE) :
  cmp_start pa pb <= 0 -> cmp_start pb pc <= 0 -> cmp_start pa pc <= 0.
Proof. rewrite !cmp_start_le. unfold by_start. lia. Qed.

Lemma sorted_cmp_by_start (l : list NRB_NOTE) :
  StronglySorted (fun a b => cmp_start a b <= 0) l ->
  StronglySorted by_start l.
Proof.
  induction 1; constructor; [done|].
  eapply Forall_impl; [eassumption|]. intros b. apply cmp_start_le.
Qed.

(** Two arrangements of the same notes in ascending order of start time
    carry the same sequence of start times. *)
Lemma sorted_starts_unique (l1 l2 : list NRB_NOTE) :
  StronglySorted by_start l1 -> StronglySorted by_start l2 -> l1 ≡ₚ l2 ->
  start <$> l1 = start <$> l2.
Proof.
  intros H1 H2 Hp.
  assert (Hf : forall l, StronglySorted by_start l ->
                         StronglySorted Z.le (start <$> l)).
  { intros l Hl. eapply StronglySorted_fmap; [|exact Hl].
    intros x y Hxy. exact Hxy. }
  apply (StronglySorted_unique Z.le); auto.
  now rewrite Hp.
Qed.

Section Sort.
Variable qsort : qsort_type.
Hypothesis qsort_ok : qsort_contract qsort.

Lemma nrb_sort_spec (pd : NRB_DATA) :
  exists pd',
    nrb_sort qsort pd = Done tt pd' /\
    notes pd' ≡ₚ notes pd /\
    StronglySorted by_start (notes pd') /\
    length (pNote pd') = length (pNote pd) /\
    note_count pd' = note_count pd /\ note_cap pd' = note_cap pd /\
    sect_count pd' = sect_count pd /\ sect_cap pd' = sect_cap pd /\
    pSect pd' = pSect pd.
Proof.
  unfold nrb_sort. destruct (note_count pd >? 1) eqn:E.
  - set (n := Z.to_nat (note_count pd)).
    destruct (qsort_ok nrb_cmp cmp_start nrb_cmp_pure cmp_start_total
                cmp_start_trans (take n (pNote pd)))
      as (l' & -> & Hp & Hs).
    assert (Hlen : length l' = (n `min` length (pNote pd))%nat)
      by now rewrite Hp, length_take.
    assert (Hn : notes (set_pNote pd (l' ++ drop n (pNote pd))) = l').
    { unfold notes. simpl. fold n. rewrite take_app, take_ge by lia.
      destruct (decide (n <= length (pNote pd))%nat).
      - replace (n - length l')%nat with 0%nat by lia.
        now rewrite take_0, app_nil_r.
      - rewrite drop_ge by lia. now rewrite take_nil, app_nil_r. }
    eexists. split; [reflexivity|]. rewrite Hn.
    split; [exact Hp|]. split; [now apply sorted_cmp_by_start|].
    split; [|done]. simpl.
    rewrite length_app, length_drop. lia.
  - exists pd. split; [reflexivity|]. split; [reflexivity|].
    split; [|done]. unfold notes.
    destruct (Z.to_nat (note_count pd)) as [|[|k]] eqn:En; [| |lia].
    + constructor.
    + destruct (pNote pd) as [|x l]; simpl; repeat constructor.
Qed.

Lemma nrb_sort_inv (pd pd' : NRB_DATA) (u : unit) :
  doc_inv pd -> nrb_sort qsort pd = Done u pd' -> doc_inv pd'.
Proof.
  intros I H.
  destruct (nrb_sort_spec pd)
    as (pd1 & H1 & Hp & _ & Hl & Hnc & Hncap & Hsc & Hscap & Hps).
  destruct u. rewrite H1 in H. injection H as <-.
  assert (Hsec : sections pd1 = sections pd)
    by (unfold sections; now rewrite Hsc, Hps).
  split; rewrite ?Hnc, ?Hncap, ?Hsc, ?Hscap, ?Hps, ?Hl, ?Hsec;
    try apply I.
  rewrite Hp. eapply Forall_impl; [apply (inv_notes _ I)|].
  intros x [? ?]. split; [done|]. now apply (note_valid_ext pd).
Qed.
End Sort.

(** The insertion sort meets the contract of [qsort]. *)
Section InsertionSort.
Variable cmp : NRB_NOTE -> NRB_NOTE -> M (list NRB_NOTE) Z.
Variable f : NRB_NOTE -> NRB_NOTE -> Z.
Hypothesis cmp_pure : forall a b s, cmp a b s = Done (f a b) s.
Hypothesis f_total : forall a b, f a b <= 0 \/ f b a <= 0.
Hypothesis f_trans : forall a b c, f a b <= 0 -> f b c <= 0 -> f a c <= 0.

Let R (a b : NRB_NOTE) : Prop := f a b <= 0.

Lemma insert_by_spec (x : NRB_NOTE) (s l : list NRB_NOTE) :
  StronglySorted R l ->
  exists l', insert_by cmp x l s = Some l' /\
             l' ≡ₚ x :: l /\ StronglySorted R l'.
Proof.
  induction 1 as [|y l Hs IH Hy]; simpl.
  - exists [x]. repeat split; [done|repeat constructor].
  - rewrite cmp_pure. destruct (f x y <=? 0) eqn:E.
    + exists (x :: y :: l). repeat split; [done|].
      constructor; [now constructor|]. constructor; [unfold R; lia|].
      eapply Forall_impl; [exact Hy|]. intros z Hz.
      apply (f_trans x y z); [lia|exact Hz].
    + destruct IH as (l' & -> & Hp & Hs'). simpl.
      exists (y :: l'). repeat split.
      * rewrite Hp. apply Permutation_swap.
      * constructor; [done|]. rewrite Hp. constructor; [|done].
        destruct (f_total x y); [lia|done].
Qed.

Lemma isort_by_spec (s l : list NRB_NOTE) :
  exists l', isort_by cmp l s = Some l' /\
             l' ≡ₚ l /\ StronglySorted R l'.
Proof.
  induction l as [|x l IH]; simpl.
  - exists []. repeat split; [done|constructor].
  - destruct IH as (r & -> & Hp & Hs).
    destruct (insert_by_spec x s r Hs) as (l' & -> & Hp' & Hs').
    exists l'. repeat split; [|done]. now rewrite Hp', Hp.
Qed.
End InsertionSort.

Lemma insertion_qsort_contract : qsort_contract insertion_qsort.
Proof.
  intros cmp f Hpure Htot Htrans l. unfold insertion_qsort.
  destruct (isort_by_spec cmp f Hpure Htot Htrans l l) as (l' & -> & Hp & Hs).
  now exists l'.
Qed.

(** C8. [nrb_sort] returns for any document, with any [qsort] that meets
    the contract of the C library; it rearranges the notes (same notes,
    same counts, same sections) into ascending order of [start].  Sorting
    again returns as well and yields the same sequence of start times: the
    two results are equal up to the order among notes of equal start. *)
Theorem nrb_sort_ascending_idempotent (qsort : qsort_type) (pd : NRB_DATA) :
  qsort_contract qsort ->
  exists pd1 pd2,
    nrb_sort qsort pd = Done tt pd1 /\
    notes pd1 ≡ₚ notes pd /\
    StronglySorted by_start (notes pd1) /\
    note_count pd1 = note_count pd /\
    sections pd1 = sections pd /\
    nrb_sort qsort pd1 = Done tt pd2 /\
    notes pd2 ≡ₚ notes pd1 /\
    StronglySorted by_start (notes pd2) /\
    start <$> notes pd2 = start <$> notes pd1.
Proof.
  intros Hq.
  destruct (nrb_sort_spec qsort Hq pd)
    as (pd1 & H1 & Hp1 & Hs1 & _ & Hn1 & _ & Hsc1 & _ & Hps1).
  destruct (nrb_sort_spec qsort Hq pd1)
    as (pd2 & H2 & Hp2 & Hs2 & _).
  exists pd1, pd2. repeat split; try done.
  - unfold sections. now rewrite Hsc1, Hps1.
  - now apply sorted_starts_unique.
Qed.

Lemma nrb_sort_ascending_idempotent_witness :
  let pd := mkData 1 1 3 3 [0]
              [mkNote 7 9 0 0 0 0 0; mkNote 2 3 1 0 0 0 0;
               mkNote 7 8 2 0 0 0 0] in
  exists pd1 pd2,
    nrb_sort insertion_qsort pd = Done tt pd1 /\
    notes pd1 ≡ₚ notes pd /\
    StronglySorted by_start (notes pd1) /\
    note_count pd1 = note_count pd /\
    sections pd1 = sections pd /\
    nrb_sort insertion_qsort pd1 = Done tt pd2 /\
    notes pd2 ≡ₚ notes pd1 /\
    StronglySorted by_start (notes pd2) /\
    start <$> notes pd2 = start <$> notes pd1.
Proof.
  intros pd.
  apply (nrb_sort_ascending_idempotent insertion_qsort pd).
  exact insertion_qsort_contract.
Defined.

(** ** Growth of the two tables *)

Lemma sect_table_ok_nonneg (l : list Z) (i : nat) (x : Z) :
  sect_table_ok l -> l !! i = Some x -> 0 <= x.
Proof.
  intros (H0 & Hadj & _). revert x. induction i as [|i IH]; intros x Hx.
  - rewrite (H0 x Hx). lia.
  - destruct (l !! i) as [y|] eqn:Ey.
    + specialize (IH y eq_refl). specialize (Hadj i y x Ey Hx). lia.
    + apply lookup_ge_None in Ey. apply lookup_lt_Some in Hx. lia.
Qed.

Lemma sect_table_ok_app_l (l k : list Z) :
  sect_table_ok (l ++ k) -> sect_table_ok l.
Proof.
  intros (H0 & Hadj & Hall). split; [|split].
  - intros x Hx. apply H0. now apply lookup_app_l_Some.
  - intros i x y Hx Hy. apply (Hadj i); now apply lookup_app_l_Some.
  - now apply Forall_app in Hall as [? _].
Qed.

Lemma append_each_notes (l : list NRB_NOTE) :
  forall pd : NRB_DATA,
    doc_inv pd ->
    Forall (fun pn => note_typed pn /\ note_valid pd pn) l ->
    note_count pd + Z.of_nat (length l) <= NRB_MAXNOTE ->
    exists pd',
      append_each nrb_append l pd = Done 1 pd' /\
      doc_inv pd' /\
      notes pd' = notes pd ++ l /\
      note_count pd' = note_count pd + Z.of_nat (length l) /\
      sect_count pd' = sect_count pd /\
      pSect pd' = pSect pd.
Proof.
  induction l as [|pn l IH]; intros pd I Hl Hlen.
  - exists pd. simpl. rewrite app_nil_r.
    split; [reflexivity|]. split; [done|]. split; [done|]. split; [lia|done].
  - apply Forall_cons in Hl as [[Ht Hv] Hl]. simpl length in Hlen.
    destruct (nrb_append_ok pd pn I Ht Hv)
      as (pd1 & H1 & I1 & Hn1 & Hc1 & Hs1 & Hp1); [lia|].
    destruct (IH pd1) as (pd' & H' & I' & Hn' & Hc' & Hs' & Hp'); [done| |lia|].
    { eapply Forall_impl; [exact Hl|]. intros x [? ?]. split; [done|].
      apply (note_valid_ext pd); [done| |done].
      unfold sections. now rewrite Hs1, Hp1. }
    exists pd'. simpl. unfold bind. rewrite H1. simpl.
    split; [exact H'|]. split; [done|].
    split; [now rewrite Hn', Hn1, <- app_assoc|].
    split; [lia|]. split; congruence.
Qed.

Lemma append_each_sects (l : list Z) :
  forall pd : NRB_DATA,
    doc_inv pd ->
    sect_table_ok (sections pd ++ l) ->
    sect_count pd + Z.of_nat (length l) <= NRB_MAXSECT ->
    exists pd',
      append_each nrb_sect l pd = Done 1 pd' /\
      doc_inv pd' /\
      sections pd' = sections pd ++ l /\
      sect_count pd' = sect_count pd + Z.of_nat (length l) /\
      note_count pd' = note_count pd /\
      pNote pd' = pNote pd.
Proof.
  induction l as [|o l IH]; intros pd I Hl Hlen.
  - exists pd. simpl. rewrite app_nil_r.
    split; [reflexivity|]. split; [done|]. split; [done|]. split; [lia|done].
  - simpl length in Hlen.
    pose proof (sections_length pd I) as Hsl.
    pose proof (inv_sect_count _ I) as Hsc.
    assert (Hv : sect_valid pd o).
    { split.
      - apply (sect_table_ok_nonneg _ (length (sections pd)) _ Hl).
        now rewrite lookup_app_r, Nat.sub_diag by lia.
      - destruct Hl as (_ & Hadj & _).
        apply (Hadj (Z.to_nat (sect_count pd - 1))).
        + rewrite lookup_app_l by lia.
          apply list_lookup_lookup_total_lt. lia.
        + rewrite lookup_app_r by lia.
          now replace (S (Z.to_nat (sect_count pd - 1)) - length (sections pd))%nat
            with 0%nat by lia. }
    assert (Hmax : o <= NRB_MAXUINT64).
    { destruct Hl as (_ & _ & Hall). apply Forall_app in Hall as [_ Hall].
      now apply Forall_cons in Hall as [? _]. }
    destruct (nrb_sect_ok pd o I Hv Hmax)
      as (pd1 & H1 & I1 & Hn1 & Hc1 & Hs1 & Hp1); [lia|].
    destruct (IH pd1) as (pd' & H' & I' & Hn' & Hc' & Hs' & Hp');
      [done| |lia|].
    { now rewrite Hn1, <- app_assoc. }
    exists pd'. simpl. unfold bind. rewrite H1. simpl.
    split; [exact H'|]. split; [done|].
    split; [now rewrite Hn', Hn1, <- app_assoc|].
    split; [lia|]. split; congruence.
Qed.

(** C5, as the code has it.  From a freshly allocated document:
    - appending [N] valid notes with [nrb_append], [N] up to 1,048,576,
      succeeds every time, leaves a note count of [N], and [nrb_get]
      returns the notes unchanged and in order;
    - appending [N] valid offsets with [nrb_sect], [N] up to 65,534,
      succeeds every time and leaves a section count of [N + 1]: section 0
      of offset 0 is there from the start, and [nrb_offset] returns it
      followed by the appended offsets;
    - at the ceiling, [nrb_append] (note count 1,048,576) and [nrb_sect]
      (section count 65,535) return 0 and leave the whole document as it
      was. *)
Theorem growth_correct (l : list NRB_NOTE) (offs : list Z) (pd : NRB_DATA)
    (pn : NRB_NOTE) (offset : Z) :
  (Forall (fun pn => note_typed pn /\ note_valid nrb_alloc pn) l ->
   Z.of_nat (length l) <= NRB_MAXNOTE ->
   exists pd',
     append_each nrb_append l nrb_alloc = Done 1 pd' /\
     nrb_notes pd' = Done (Z.of_nat (length l)) pd' /\
     forall i, (i < length l)%nat ->
               nrb_get (Z.of_nat i) pd' = Done (l !!! i) pd') /\
  (sect_table_ok (0 :: offs) ->
   Z.of_nat (length offs) <= NRB_MAXSECT - 1 ->
   exists pd',
     append_each nrb_sect offs nrb_alloc = Done 1 pd' /\
     nrb_sections pd' = Done (Z.of_nat (length offs) + 1) pd' /\
     forall i, (i <= length offs)%nat ->
               nrb_offset (Z.of_nat i) pd' = Done ((0 :: offs) !!! i) pd') /\
  (note_count pd = NRB_MAXNOTE -> note_valid pd pn ->
   nrb_append pn pd = Done 0 pd) /\
  (sect_count pd = NRB_MAXSECT -> sect_valid pd offset ->
   nrb_sect offset pd = Done 0 pd).
Proof.
  split; [|split; [|split]].
  - intros Hl Hlen.
    destruct (append_each_notes l nrb_alloc nrb_alloc_inv Hl)
      as (pd' & H & I' & Hn & Hc & _); [simpl; lia|].
    change (notes nrb_alloc) with (@nil NRB_NOTE) in Hn. simpl in Hn, Hc.
    exists pd'. split; [exact H|]. split.
    + unfold nrb_notes. now rewrite Hc.
    + intros i Hi. rewrite nrb_get_ok by lia.
      now rewrite Nat2Z.id, Hn.
  - intros Hl Hlen.
    destruct (append_each_sects offs nrb_alloc nrb_alloc_inv Hl)
      as (pd' & H & I' & Hn & Hc & _); [simpl; lia|].
    change (sections nrb_alloc) with [0] in Hn. simpl in Hn, Hc.
    exists pd'. split; [exact H|]. split.
    + unfold nrb_sections. rewrite Hc. f_equal. lia.
    + intros i Hi. rewrite nrb_offset_ok by lia.
      now rewrite Nat2Z.id, Hn.
  - intros Hc Hv. apply nrb_append_full; [done|lia].
  - intros Hc Hv. apply nrb_sect_full; [|done|lia].
    rewrite Hc. unfold NRB_MAXSECT. lia.
Qed.

Lemma growth_correct_witness :
  (exists pd',
     append_each nrb_append growth_notes nrb_alloc = Done 1 pd' /\
     nrb_notes pd' = Done 2 pd' /\
     forall i, (i < 2)%nat ->
               nrb_get (Z.of_nat i) pd' = Done (growth_notes !!! i) pd') /\
  (exists pd',
     append_each nrb_sect [0; 10] nrb_alloc = Done 1 pd' /\
     nrb_sections pd' = Done 3 pd' /\
     forall i, (i <= 2)%nat ->
               nrb_offset (Z.of_nat i) pd' = Done ([0; 0; 10] !!! i) pd') /\
  nrb_append (mkNote 0 1 0 0 0 0 0) full_doc = Done 0 full_doc /\
  nrb_sect 0 full_doc = Done 0 full_doc.
Proof.
  pose proof (growth_correct growth_notes [0; 10] full_doc
                (mkNote 0 1 0 0 0 0 0) 0) as H.
  split; [|split; [|split]].
  - apply (proj1 H); clear H; [|vm_compute; discriminate].
    repeat constructor; vm_compute; congruence.
  - apply (proj1 (proj2 H)); clear H; [|vm_compute; discriminate].
    split; [now intros x [= <-]|]. split.
    + intros [|[|[|i]]] x y Hx Hy; simpl in Hx, Hy; try discriminate;
        injection Hx as <-; injection Hy as <-; lia.
    + repeat constructor; vm_compute; discriminate.
  - apply (proj1 (proj2 (proj2 H))); clear H; [reflexivity|].
    repeat split; vm_compute; congruence.
  - apply (proj2 (proj2 (proj2 H))); clear H; [reflexivity|].
    split; vm_compute; congruence.
Defined.

(** C5 as stated fails for sections: one successful [nrb_sect] on a fresh
    document leaves a section count of 2, not 1. *)
Lemma growth_sections_counterexample :
  exists pd',
    append_each nrb_sect [5] nrb_alloc = Done 1 pd' /\
    nrb_sections pd' = Done 2 pd' /\
    2 <> Z.of_nat (length [5]).
Proof.
  eexists. split; [vm_compute; reflexivity|].
  split; [reflexivity|]. simpl. lia.
Qed.

(** ** The parser, step by step *)

(** *** The section table *)

Lemma sect_slot_insert {A} (done : list A) (n : nat) (z v : A) :
  <[Z.to_nat (Z.of_nat (length done)) := v]> (done ++ replicate (S n) z)
  = (done ++ [v]) ++ replicate n z.
Proof.
  rewrite Nat2Z.id, insert_app_r_alt, Nat.sub_diag by lia.
  simpl. now rewrite <- app_assoc.
Qed.

Lemma sect_slot_lookup {A} `{Inhabited A} (done k : list A) (v : A) :
  ((done ++ [v]) ++ k) !!! Z.to_nat (Z.of_nat (length done)) = v.
Proof.
  rewrite Nat2Z.id, <- app_assoc. simpl. now apply list_lookup_total_middle.
Qed.

Lemma sect_slot_prev (done k : list Z) (v : Z) :
  (0 < length done)%nat ->
  ((done ++ [v]) ++ k) !!! Z.to_nat (Z.of_nat (length done) - 1)
  = done !!! (length done - 1)%nat.
Proof.
  intros Hlen. rewrite <- app_assoc, lookup_total_app_l by lia.
  f_equal. lia.
Qed.

Lemma sect_table_ok_first (v : Z) (vs : list Z) :
  sect_table_ok (v :: vs) -> v = 0.
Proof. intros (H0 & _). now apply H0. Qed.

Lemma sect_table_ok_adjacent (done vs : list Z) (v : Z) :
  (0 < length done)%nat -> sect_table_ok (done ++ v :: vs) ->
  done !!! (length done - 1)%nat <= v.
Proof.
  intros Hlen (_ & Hadj & _).
  apply (Hadj (length done - 1)%nat).
  - rewrite lookup_app_l by lia. apply list_lookup_lookup_total_lt. lia.
  - replace (S (length done - 1)) with (length done) by lia.
    now rewrite list_lookup_middle.
Qed.

Lemma sect_table_ok_mid (done vs : list Z) (v : Z) :
  sect_table_ok (done ++ v :: vs) -> 0 <= v <= NRB_MAXUINT64.
Proof.
  intros Hok. split.
  - apply (sect_table_ok_nonneg _ (length done) _ Hok).
    now rewrite list_lookup_middle.
  - destruct Hok as (_ & _ & Hall).
    apply Forall_app in Hall as [_ Hall].
    now apply Forall_cons in Hall as [? _].
Qed.

Lemma parse_sect_loop_ok (vs : list Z) :
  forall (done : list Z) (rest : stream),
    sect_table_ok (done ++ vs) ->
    parse_sect_loop (length vs) (Z.of_nat (length done))
                    (done ++ replicate (length vs) 0)
                    (flat_map be64 vs ++ rest)
    = Done (Some (done ++ vs)) rest.
Proof.
  induction vs as [|v vs IH]; intros done rest Hok.
  - simpl. now rewrite !app_nil_r.
  - pose proof (sect_table_ok_mid _ _ _ Hok) as Hv.
    cbn [length parse_sect_loop flat_map]. unfold bind.
    rewrite <- app_assoc, nrb_readUint64_be64 by done.
    rewrite sect_slot_insert, sect_slot_lookup.
    destruct (v <? 0) eqn:E0; [lia|].
    assert (Hnext : parse_sect_loop (length vs)
                      (Z.of_nat (length done) + 1)
                      ((done ++ [v]) ++ replicate (length vs) 0)
                      (flat_map be64 vs ++ rest)
                    = Done (Some (done ++ v :: vs)) rest).
    { replace (Z.of_nat (length done) + 1)
        with (Z.of_nat (length (done ++ [v])))
        by (rewrite length_app; simpl; lia).
      rewrite IH by now rewrite <- app_assoc.
      now rewrite <- app_assoc. }
    destruct (Z.of_nat (length done) <? 1) eqn:E1.
    + assert (done = []) as ->
        by (apply length_zero_iff_nil; lia).
      rewrite (sect_table_ok_first _ _ Hok) in *. exact Hnext.
    + rewrite sect_slot_prev by lia.
      pose proof (sect_table_ok_adjacent done vs v ltac:(lia) Hok) as Hadj.
      destruct (v <? done !!! (length done - 1)%nat) eqn:E2; [lia|].
      exact Hnext.
Qed.

Lemma parse_sect_loop_inv (n : nat) :
  forall (done tbl : list Z) (s rest : stream),
    sect_table_ok done ->
    parse_sect_loop n (Z.of_nat (length done)) (done ++ replicate n 0) s
    = Done (Some tbl) rest ->
    exists vs,
      length vs = n /\ tbl = done ++ vs /\
      s = flat_map be64 vs ++ rest /\ sect_table_ok (done ++ vs).
Proof.
  induction n as [|n IH]; intros done tbl s rest Hok H.
  - simpl in H. injection H as <- <-. exists [].
    rewrite !app_nil_r. done.
  - cbn [parse_sect_loop] in H. unfold bind in H.
    destruct (nrb_readUint64 s) as [v s1|] eqn:Er; [|discriminate].
    rewrite sect_slot_insert, sect_slot_lookup in H.
    destruct (v <? 0) eqn:E0; [discriminate|].
    destruct (nrb_readUint64_inv _ _ _ Er) as [Hmax ->]; [lia|].
    assert (Hstep : sect_table_ok (done ++ [v]) ->
              parse_sect_loop n (Z.of_nat (length done) + 1)
                ((done ++ [v]) ++ replicate n 0) s1 = Done (Some tbl) rest ->
              exists vs, length vs = S n /\ tbl = done ++ vs /\
                be64 v ++ s1 = flat_map be64 vs ++ rest /\
                sect_table_ok (done ++ vs)).
    { intros Hok' H'.
      replace (Z.of_nat (length done) + 1)
        with (Z.of_nat (length (done ++ [v]))) in H'
        by (rewrite length_app; simpl; lia).
      destruct (IH _ _ _ _ Hok' H') as (vs & Hlen & -> & -> & Hok'').
      exists (v :: vs). rewrite <- !app_assoc in Hok''. simpl in Hok''.
      split; [simpl; now rewrite Hlen|].
      split; [now rewrite <- app_assoc|].
      split; [|done]. cbn [flat_map]. now rewrite <- app_assoc. }
    destruct (Z.of_nat (length done) <? 1) eqn:E1.
    + assert (done = []) as ->
        by (apply length_zero_iff_nil; lia).
      destruct (v =? 0) eqn:E2; [|discriminate].
      apply Hstep; [|exact H].
      assert (v = 0) as -> by lia.
      split; [now intros x [= <-]|]. split.
      * intros [|i] x y; [|destruct i]; discriminate.
      * repeat constructor. unfold NRB_MAXUINT64. lia.
    + rewrite sect_slot_prev in H by lia.
      destruct (v <? done !!! (length done - 1)%nat) eqn:E2; [discriminate|].
      apply Hstep; [|exact H].
      apply sect_table_ok_snoc; [done|lia|lia|done].
Qed.

Lemma parse_sect_loop_total (n : nat) :
  forall (i : Z) (pSect : list Z) (s : stream),
    exists r s', parse_sect_loop n i pSect s = Done r s'.
Proof.
  induction n as [|n IH]; intros i pSect s.
  - simpl. unfold ret. eauto.
  - cbn [parse_sect_loop]. unfold bind.
    destruct (nrb_readUint64_total s) as (v & s1 & ->).
    repeat match goal with
    | |- context [if ?b then _ else _] => destruct b
    end; unfold ret; eauto.
Qed.

(** *** The note table *)

Lemma parse_note_ok (count : Z) (table : list Z) (v0 : Z) (pn : NRB_NOTE)
    (rest : stream) :
  note_typed pn -> note_ok count table pn ->
  parse_note count table v0 (note_bytes pn ++ rest)
  = Done (Some (pn, layer_i pn)) rest.
Proof.
  intros (T1 & T2 & T3 & T4 & T5 & T6 & T7) (H1 & H2 & H3 & H4 & H5 & H6 & H7).
  unfold NRB_MINPITCH, NRB_MAXPITCH, NRB_MAXART, NRB_MAXRAMP in *.
  destruct pn as [st rl pt ar rp sc ly].
  cbn [start release pitch art ramp sect layer_i] in *.
  unfold parse_note, note_bytes, bind, ret.
  cbn [start release pitch art ramp sect layer_i].
  rewrite <- !app_assoc.
  rewrite nrb_readUint64_be64 by (unfold NRB_MAXUINT64; lia).
  destruct (st <? 0) eqn:E1; [lia|].
  rewrite nrb_readUint64_be64 by (unfold NRB_MAXUINT64; lia).
  destruct (rl <=? st) eqn:E2; [lia|].
  cbn [app]. rewrite nrb_readBias8_cons. cbn [negb].
  unfold NRB_BIAS8, NRB_MINPITCH, NRB_MAXPITCH, NRB_MAXART, NRB_MAXRAMP.
  rewrite byte_val_of_Z by lia.
  replace (pt + 128 - 128) with pt by lia.
  destruct ((pt >=? -39) && (pt <=? 48)) eqn:E3; [|lia]. cbn [negb].
  cbn [nrb_readByte]. rewrite byte_val_of_Z by lia.
  destruct (ar >=? 0) eqn:E4; [|lia]. cbn [negb].
  destruct (Z.land ar 63 <=? 61) eqn:E5; [|lia]. cbn [negb].
  rewrite nrb_readUint16_be16 by (unfold NRB_MAXUINT16; lia).
  destruct ((rp >=? 0) && (rp <=? 16384)) eqn:E6; [|lia]. cbn [negb].
  rewrite nrb_readUint16_be16 by (unfold NRB_MAXUINT16; lia).
  destruct ((sc >=? 0) && (sc <? count)) eqn:E7; [|lia]. cbn [negb].
  rewrite nrb_readUint16_be16 by (unfold NRB_MAXUINT16; lia).
  destruct (ly >=? 0) eqn:E8; [|lia]. cbn [negb].
  destruct (st <? table !!! Z.to_nat sc) eqn:E9; [lia|].
  reflexivity.
Qed.

Lemma parse_note_inv (count : Z) (table : list Z) (v0 v : Z) (pn : NRB_NOTE)
    (s rest : stream) :
  parse_note count table v0 s = Done (Some (pn, v)) rest ->
  s = note_bytes pn ++ rest /\
  note_typed pn /\ note_ok count table pn /\ v = layer_i pn.
Proof.
  unfold parse_note, bind, ret. intros H.
  destruct (nrb_readUint64 s) as [st s1|] eqn:R1; [|discriminate].
  destruct (st <? 0) eqn:E1; [discriminate|].
  destruct (nrb_readUint64 s1) as [rl s2|] eqn:R2; [|discriminate].
  destruct (rl <=? st) eqn:E2; [discriminate|].
  destruct s2 as [|bp s3]; [discriminate|].
  rewrite nrb_readBias8_cons in H. cbn [negb] in H.
  destruct ((byte_val bp - 128 >=? NRB_MINPITCH)
            && (byte_val bp - 128 <=? NRB_MAXPITCH)) eqn:E3; [|discriminate].
  cbn [negb] in H.
  destruct s3 as [|ba s4]; [discriminate|]. cbn [nrb_readByte] in H.
  destruct (byte_val ba >=? 0) eqn:E4; [|discriminate]. cbn [negb] in H.
  destruct (Z.land (byte_val ba) 63 <=? NRB_MAXART) eqn:E5; [|discriminate].
  cbn [negb] in H.
  destruct (nrb_readUint16 s4) as [rp s5|] eqn:R3; [|discriminate].
  destruct ((rp >=? 0) && (rp <=? NRB_MAXRAMP)) eqn:E6; [|discriminate].
  cbn [negb] in H.
  destruct (nrb_readUint16 s5) as [sc s6|] eqn:R4; [|discriminate].
  destruct ((sc >=? 0) && (sc <? count)) eqn:E7; [|discriminate].
  cbn [negb] in H.
  destruct (nrb_readUint16 s6) as [ly s7|] eqn:R5; [|discriminate].
  destruct (ly >=? 0) eqn:E8; [|discriminate]. cbn [negb] in H.
  destruct (st <? table !!! Z.to_nat sc) eqn:E9; [discriminate|].
  injection H as <- <- <-.
  destruct (nrb_readUint64_inv _ _ _ R1) as [M1 ->]; [lia|].
  destruct (nrb_readUint64_inv _ _ _ R2) as [M2 ->]; [lia|].
  destruct (nrb_readUint16_inv _ _ _ R3) as [M3 ->]; [lia|].
  destruct (nrb_readUint16_inv _ _ _ R4) as [M4 ->]; [lia|].
  destruct (nrb_readUint16_inv _ _ _ R5) as [M5 ->]; [lia|].
  pose proof (byte_val_range bp). pose proof (byte_val_range ba).
  unfold NRB_MINPITCH, NRB_MAXPITCH, NRB_MAXART, NRB_MAXRAMP,
    NRB_MAXUINT64, NRB_MAXUINT16 in *.
  split; [|split; [|split; [|reflexivity]]].
  - unfold note_bytes. cbn [start release pitch art ramp sect layer_i].
    unfold NRB_BIAS8.
    replace (byte_val bp - 128 + 128) with (byte_val bp) by lia.
    rewrite !byte_of_Z_val, <- !app_assoc. reflexivity.
  - unfold note_typed. simpl. lia.
  - unfold note_ok, NRB_MINPITCH, NRB_MAXPITCH, NRB_MAXART, NRB_MAXRAMP.
    simpl. lia.
Qed.

Lemma parse_note_total (count : Z) (table : list Z) (v0 : Z) (s : stream) :
  exists r s', parse_note count table v0 s = Done r s'.
Proof.
  unfold parse_note, bind, ret.
  destruct (nrb_readUint64_total s) as (st & s1 & ->).
  destruct (st <? 0); [eauto|].
  destruct (nrb_readUint64_total s1) as (rl & s2 & ->).
  destruct (rl <=? st); [eauto|].
  destruct s2 as [|bp s3]; [simpl; eauto|].
  rewrite nrb_readBias8_cons. cbn [negb].
  match goal with |- context [if negb ?b then _ else _] => destruct b end;
    cbn [negb]; [|eauto].
  destruct s3 as [|ba s4]; [simpl; eauto|]. cbn [nrb_readByte].
  match goal with |- context [if negb ?b then _ else _] => destruct b end;
    cbn [negb]; [|eauto].
  match goal with |- context [if negb ?b then _ else _] => destruct b end;
    cbn [negb]; [|eauto].
  destruct (nrb_readUint16_total s4) as (rp & s5 & ->).
  match goal with |- context [if negb ?b then _ else _] => destruct b end;
    cbn [negb]; [|eauto].
  destruct (nrb_readUint16_total s5) as (sc & s6 & ->).
  match goal with |- context [if negb ?b then _ else _] => destruct b end;
    cbn [negb]; [|eauto].
  destruct (nrb_readUint16_total s6) as (ly & s7 & ->).
  match goal with |- context [if negb ?b then _ else _] => destruct b end;
    cbn [negb]; [|eauto].
  match goal with |- context [if ?b then _ else _] => destruct b end; eauto.
Qed.

Lemma parse_note_loop_ok (count : Z) (table : list Z) (l : list NRB_NOTE) :
  forall (done : list NRB_NOTE) (v : Z) (rest : stream),
    Forall (fun pn => note_typed pn /\ note_ok count table pn) l ->
    parse_note_loop (length l) (Z.of_nat (length done)) count table v
                    (done ++ replicate (length l) zero_note)
                    (flat_map note_bytes l ++ rest)
    = Done (Some (done ++ l)) rest.
Proof.
  induction l as [|pn l IH]; intros done v rest Hl.
  - simpl. now rewrite !app_nil_r.
  - apply Forall_cons in Hl as [[Ht Hv] Hl].
    cbn [length parse_note_loop flat_map]. unfold bind.
    rewrite <- app_assoc, parse_note_ok by done.
    rewrite sect_slot_insert.
    replace (Z.of_nat (length done) + 1)
      with (Z.of_nat (length (done ++ [pn])))
      by (rewrite length_app; simpl; lia).
    rewrite IH by done. now rewrite <- app_assoc.
Qed.

Lemma parse_note_loop_inv (count : Z) (table : list Z) (n : nat) :
  forall (done res : list NRB_NOTE) (v : Z) (s rest : stream),
    parse_note_loop n (Z.of_nat (length done)) count table v
                    (done ++ replicate n zero_note) s
    = Done (Some res) rest ->
    exists l,
      length l = n /\ res = done ++ l /\
      s = flat_map note_bytes l ++ rest /\
      Forall (fun pn => note_typed pn /\ note_ok count table pn) l.
Proof.
  induction n as [|n IH]; intros done res v s rest H.
  - simpl in H. injection H as <- <-. exists [].
    rewrite !app_nil_r. done.
  - cbn [parse_note_loop] in H. unfold bind in H.
    destruct (parse_note count table v s) as [[[pn v']|] s1|] eqn:Ep;
      try discriminate.
    apply parse_note_inv in Ep as (-> & Ht & Hv & ->).
    rewrite sect_slot_insert in H.
    replace (Z.of_nat (length done) + 1)
      with (Z.of_nat (length (done ++ [pn]))) in H
      by (rewrite length_app; simpl; lia).
    destruct (IH _ _ _ _ _ H) as (l & Hlen & -> & -> & Hl).
    exists (pn :: l).
    split; [simpl; now rewrite Hlen|].
    split; [now rewrite <- app_assoc|].
    split; [cbn [flat_map]; now rewrite <- app_assoc|].
    now constructor.
Qed.

Lemma parse_note_loop_total (count : Z) (table : list Z) (n : nat) :
  forall (i v : Z) (pNote : list NRB_NOTE) (s : stream),
    exists r s', parse_note_loop n i count table v pNote s = Done r s'.
Proof.
  induction n as [|n IH]; intros i v pNote s.
  - simpl. unfold ret. eauto.
  - cbn [parse_note_loop]. unfold bind.
    destruct (parse_note_total count table v s) as ([[pn v']|] & s1 & ->).
    + apply IH.
    + unfold ret. eauto.
Qed.

(** *** The header *)

Lemma parse_version_ok (minor : Z) (rest : stream) :
  0 <= minor <= 255 ->
  parse_version (version_bytes minor ++ rest)
  = Done (true, ver_of_minor minor) rest.
Proof.
  intros Hm. unfold parse_version, version_bytes, bind, ret.
  rewrite <- !app_assoc.
  rewrite nrb_readUint32_be32 by (vm_compute; split; discriminate).
  rewrite Z.eqb_refl. cbn [negb].
  rewrite nrb_readUint32_be32 by (vm_compute; split; discriminate).
  rewrite Z.eqb_refl. cbn [negb app nrb_readByte].
  rewrite !(byte_val_of_Z 1) by lia.
  change (1 <? 0) with false. change (1 =? 1) with true.
  cbn [negb nrb_readByte].
  rewrite !(byte_val_of_Z minor) by lia.
  destruct (minor <? 0) eqn:E; [lia|].
  unfold ver_of_minor. now destruct (minor =? 0).
Qed.

Lemma parse_version_inv (s rest : stream) (ver : Z) :
  parse_version s = Done (true, ver) rest ->
  exists minor,
    0 <= minor <= 255 /\ ver = ver_of_minor minor /\
    s = version_bytes minor ++ rest.
Proof.
  unfold parse_version, bind, ret. intros H.
  destruct (nrb_readUint32 s) as [g1 s1|] eqn:R1; [|discriminate].
  destruct (g1 =? NRB_SIGPRI) eqn:E1; [|discriminate]. cbn [negb] in H.
  destruct (nrb_readUint32 s1) as [g2 s2|] eqn:R2; [|discriminate].
  destruct (g2 =? NRB_SIGSEC) eqn:E2; [|discriminate]. cbn [negb] in H.
  destruct s2 as [|bmaj s3]; [discriminate|]. cbn [nrb_readByte] in H.
  destruct (byte_val bmaj <? 0) eqn:E3; [discriminate|].
  destruct s3 as [|bmin s4]; [discriminate|]. cbn [nrb_readByte] in H.
  destruct (byte_val bmin <? 0) eqn:E4; [discriminate|].
  destruct (byte_val bmaj =? 1) eqn:E5; [|discriminate]. cbn [negb] in H.
  apply Z.eqb_eq in E1, E2, E5. subst g1 g2.
  destruct (nrb_readUint32_inv _ _ _ R1) as [_ ->];
    [unfold NRB_SIGPRI; lia|].
  destruct (nrb_readUint32_inv _ _ _ R2) as [_ ->];
    [unfold NRB_SIGSEC; lia|].
  exists (byte_val bmin). pose proof (byte_val_range bmin).
  split; [lia|]. unfold version_bytes, ver_of_minor.
  rewrite <- E5, !byte_of_Z_val, <- !app_assoc.
  destruct (byte_val bmin =? 0); injection H as <- <-; done.
Qed.

Lemma parse_version_total (s : stream) :
  exists st ver s', parse_version s = Done (st, ver) s'.
Proof.
  unfold parse_version, bind, ret.
  destruct (nrb_readUint32_total s) as (g1 & s1 & ->).
  destruct (negb (g1 =? NRB_SIGPRI)); [eauto|].
  destruct (nrb_readUint32_total s1) as (g2 & s2 & ->).
  destruct (negb (g2 =? NRB_SIGSEC)); [eauto|].
  destruct (nrb_readByte_total s2) as (c1 & s3 & ->).
  destruct (c1 <? 0); [eauto|].
  destruct (nrb_readByte_total s3) as (c2 & s4 & ->).
  destruct (c2 <? 0); [eauto|].
  destruct (negb (c1 =? 1)); [eauto|].
  destruct (c2 =? 0); eauto.
Qed.

Lemma parse_counts_ok (sc nc : Z) (rsv : Z * Z * Z * Z) (rest : stream) :
  1 <= sc <= NRB_MAXSECT -> 1 <= nc <= NRB_MAXNOTE -> rsv_ok rsv ->
  parse_counts (counts_bytes sc nc rsv ++ rest) = Done (Some (sc, nc)) rest.
Proof.
  destruct rsv as [[[r1 r2] r3] r4].
  unfold NRB_MAXSECT, NRB_MAXNOTE. intros Hsc Hnc (R1 & R2 & R3 & R4).
  unfold parse_counts, counts_bytes, bind, ret. rewrite <- !app_assoc.
  rewrite nrb_readUint16_be16 by (unfold NRB_MAXUINT16; lia).
  unfold NRB_MAXSECT, NRB_MAXNOTE.
  destruct ((sc <? 1) || (sc >? 65535)) eqn:E1; [lia|].
  rewrite nrb_readUint32_be32 by (unfold NRB_MAXUINT32; lia).
  destruct ((nc <? 1) || (nc >? 1048576)) eqn:E2; [lia|].
  rewrite nrb_readUint32_be32 by done.
  destruct (r1 <? 0) eqn:E3; [lia|].
  rewrite nrb_readUint32_be32 by done.
  destruct (r2 <? 0) eqn:E4; [lia|].
  rewrite nrb_readUint32_be32 by done.
  destruct (r3 <? 0) eqn:E5; [lia|].
  rewrite nrb_readUint32_be32 by done.
  destruct (r4 <? 0) eqn:E6; [lia|].
  reflexivity.
Qed.

Lemma parse_counts_inv (s rest : stream) (sc nc : Z) :
  parse_counts s = Done (Some (sc, nc)) rest ->
  exists rsv,
    rsv_ok rsv /\ 1 <= sc <= NRB_MAXSECT /\ 1 <= nc <= NRB_MAXNOTE /\
    s = counts_bytes sc nc rsv ++ rest.
Proof.
  unfold parse_counts, bind, ret. intros H.
  destruct (nrb_readUint16 s) as [c1 s1|] eqn:R1; [|discriminate].
  destruct ((c1 <? 1) || (c1 >? NRB_MAXSECT)) eqn:E1; [discriminate|].
  destruct (nrb_readUint32 s1) as [c2 s2|] eqn:R2; [|discriminate].
  destruct ((c2 <? 1) || (c2 >? NRB_MAXNOTE)) eqn:E2; [discriminate|].
  destruct (nrb_readUint32 s2) as [r1 s3|] eqn:R3; [|discriminate].
  destruct (r1 <? 0) eqn:E3; [discriminate|].
  destruct (nrb_readUint32 s3) as [r2 s4|] eqn:R4; [|discriminate].
  destruct (r2 <? 0) eqn:E4; [discriminate|].
  destruct (nrb_readUint32 s4) as [r3 s5|] eqn:R5; [|discriminate].
  destruct (r3 <? 0) eqn:E5; [discriminate|].
  destruct (nrb_readUint32 s5) as [r4 s6|] eqn:R6; [|discriminate].
  destruct (r4 <? 0) eqn:E6; [discriminate|].
  injection H as <- <- <-.
  apply orb_false_iff in E1 as [E1a E1b], E2 as [E2a E2b].
  destruct (nrb_readUint16_inv _ _ _ R1) as [_ ->]; [lia|].
  destruct (nrb_readUint32_inv _ _ _ R2) as [_ ->]; [lia|].
  destruct (nrb_readUint32_inv _ _ _ R3) as [M3 ->]; [lia|].
  destruct (nrb_readUint32_inv _ _ _ R4) as [M4 ->]; [lia|].
  destruct (nrb_readUint32_inv _ _ _ R5) as [M5 ->]; [lia|].
  destruct (nrb_readUint32_inv _ _ _ R6) as [M6 ->]; [lia|].
  exists (r1, r2, r3, r4). unfold rsv_ok, counts_bytes.
  rewrite <- !app_assoc. repeat split; try lia.
Qed.

Lemma parse_counts_total (s : stream) :
  exists r s', parse_counts s = Done r s'.
Proof.
  unfold parse_counts, bind, ret.
  destruct (nrb_readUint16_total s) as (c1 & s1 & ->).
  match goal with |- context [if ?b then _ else _] => destruct b end;
    [eauto|].
  destruct (nrb_readUint32_total s1) as (c2 & s2 & ->).
  match goal with |- context [if ?b then _ else _] => destruct b end;
    [eauto|].
  destruct (nrb_readUint32_total s2) as (r1 & s3 & ->).
  destruct (r1 <? 0); [eauto|].
  destruct (nrb_readUint32_total s3) as (r2 & s4 & ->).
  destruct (r2 <? 0); [eauto|].
  destruct (nrb_readUint32_total s4) as (r3 & s5 & ->).
  destruct (r3 <? 0); [eauto|].
  destruct (nrb_readUint32_total s5) as (r4 & s6 & ->).
  destruct (r4 <? 0); eauto.
Qed.

(** *** The whole parser *)

Lemma nrb_parse_image (minor : Z) (rsv : Z * Z * Z * Z) (pd : NRB_DATA)
    (rest : stream) :
  doc_inv pd -> 1 <= note_count pd -> 0 <= minor <= 255 -> rsv_ok rsv ->
  nrb_parse (nrb_image minor rsv pd ++ rest)
  = Done (Some (trimmed pd), ver_of_minor minor) rest.
Proof.
  intros I Hnc Hm Hr.
  pose proof (inv_sect_count _ I) as Hsc.
  pose proof (inv_note_count _ I) as Hnc'.
  unfold nrb_parse, nrb_image, tables_bytes, bind.
  rewrite <- !app_assoc.
  rewrite parse_version_ok by done. cbn [negb].
  rewrite parse_counts_ok by (try done; lia).
  rewrite <- (sections_length pd I).
  change 0 with (Z.of_nat (length (@nil Z))) at 1.
  rewrite (parse_sect_loop_ok (sections pd) [] _) by apply I.
  rewrite <- (notes_length pd I).
  change 0 with (Z.of_nat (length (@nil NRB_NOTE))) at 1.
  rewrite (parse_note_loop_ok _ _ (notes pd) [] _ rest) by apply I.
  reflexivity.
Qed.

Lemma take_all {A} (l : list A) (n : Z) :
  length l = Z.to_nat n -> take (Z.to_nat n) l = l.
Proof. intros H. apply take_ge. lia. Qed.

Lemma nrb_parse_inv (s rest : stream) (pd : NRB_DATA) (ver : Z) :
  nrb_parse s = Done (Some pd, ver) rest ->
  exists minor rsv,
    0 <= minor <= 255 /\ rsv_ok rsv /\ ver = ver_of_minor minor /\
    s = nrb_image minor rsv pd ++ rest /\
    doc_inv pd /\ 1 <= note_count pd /\ trimmed pd = pd.
Proof.
  unfold nrb_parse, bind, ret. intros H.
  destruct (parse_version s) as [[[|] v] s1|] eqn:Ev; try discriminate.
  cbn [negb] in H.
  destruct (parse_counts s1) as [[[sc nc]|] s2|] eqn:Ec; try discriminate.
  destruct (parse_sect_loop (Z.to_nat sc) 0 (replicate (Z.to_nat sc) 0) s2)
    as [[tbl|] s3|] eqn:Es; try discriminate.
  destruct (parse_note_loop (Z.to_nat nc) 0 sc tbl 0
              (replicate (Z.to_nat nc) zero_note) s3)
    as [[nts|] s4|] eqn:En; try discriminate.
  injection H as <- <- <-.
  apply parse_version_inv in Ev as (minor & Hm & -> & ->).
  apply parse_counts_inv in Ec as (rsv & Hr & Hsc & Hnc & ->).
  change 0 with (Z.of_nat (length (@nil Z))) in Es at 1.
  apply (parse_sect_loop_inv _ []) in Es as (vs & Hlen & -> & -> & Hok).
  2:{ split; [discriminate|]. split; [discriminate|constructor]. }
  change 0 with (Z.of_nat (length (@nil NRB_NOTE))) in En at 1.
  apply (parse_note_loop_inv _ _ _ []) in En as (l & Hlen' & -> & -> & Hl).
  simpl app in *.
  set (pd := mkData sc sc nc nc vs l).
  assert (Hs : sections pd = vs) by now apply take_all.
  assert (Hn : notes pd = l) by now apply take_all.
  exists minor, rsv.
  split; [done|]. split; [done|]. split; [done|].
  split; [|split; [|split]].
  - unfold nrb_image, tables_bytes. rewrite Hs, Hn, <- !app_assoc. done.
  - split; simpl; try lia.
    + now rewrite Hs.
    + rewrite Hn. unfold note_valid. simpl. now rewrite Hs.
  - simpl. lia.
  - unfold trimmed. now rewrite Hs, Hn.
Qed.

Lemma nrb_parse_total (s : stream) :
  exists r ver s', nrb_parse s = Done (r, ver) s'.
Proof.
  unfold nrb_parse, bind, ret.
  destruct (parse_version_total s) as (st & ver & s1 & ->).
  destruct st; cbn [negb]; [|eauto].
  destruct (parse_counts_total s1) as ([[sc nc]|] & s2 & ->); [|eauto].
  destruct (parse_sect_loop_total (Z.to_nat sc) 0
              (replicate (Z.to_nat sc) 0) s2) as ([tbl|] & s3 & ->); [|eauto].
  destruct (parse_note_loop_total sc tbl (Z.to_nat nc) 0 0
              (replicate (Z.to_nat nc) zero_note) s3)
    as ([nts|] & s4 & ->); eauto.
Qed.

(** ** The serializer *)

Lemma write_note_ok (count : Z) (table : list Z) (pn : NRB_NOTE)
    (out : stream) :
  note_typed pn -> note_ok count table pn ->
  write_note pn out = Done tt (out ++ note_bytes pn).
Proof.
  intros (T1 & T2 & T3 & T4 & T5 & T6 & T7) (H1 & H2 & H3 & H4 & H5 & H6 & H7).
  unfold NRB_MINPITCH, NRB_MAXPITCH in *.
  unfold write_note, note_bytes, bind, to_uint64.
  rewrite !Z.mod_small by lia.
  rewrite !nrb_writeUint64_ok by lia.
  rewrite nrb_writeBias8_ok by lia.
  rewrite nrb_writeByte_ok by lia.
  rewrite !nrb_writeUint16_ok by lia.
  unfold NRB_BIAS8. now rewrite <- !app_assoc.
Qed.

Lemma write_sect_loop_ok (pd : NRB_DATA) (n : nat) :
  forall (i : nat) (out : stream),
    doc_inv pd -> (i + n <= Z.to_nat (sect_count pd))%nat ->
    write_sect_loop n (Z.of_nat i) pd out
    = Done tt (out ++ flat_map be64 (take n (drop i (sections pd)))).
Proof.
  induction n as [|n IH]; intros i out I Hi.
  - simpl. now rewrite app_nil_r.
  - pose proof (sections_length pd I) as Hlen.
    cbn [write_sect_loop]. unfold bind.
    rewrite <- sections_lookup, Nat2Z.id by lia.
    assert (Hx : sections pd !! i = Some (sections pd !!! i))
      by (apply list_lookup_lookup_total_lt; lia).
    pose proof (sect_table_ok_nonneg _ _ _ (inv_sections _ I) Hx) as Hnn.
    assert (Hmx : sections pd !!! i <= NRB_MAXUINT64).
    { destruct (inv_sections _ I) as (_ & _ & Hall).
      now apply (Forall_lookup_1 _ _ _ _ Hall Hx). }
    unfold NRB_MAXUINT64 in Hmx.
    unfold to_uint64. rewrite Z.mod_small by lia.
    rewrite nrb_writeUint64_ok by lia.
    replace (Z.of_nat i + 1) with (Z.of_nat (S i)) by lia.
    rewrite IH by (try done; lia).
    rewrite (drop_S _ _ _ Hx). cbn [take flat_map].
    now rewrite <- app_assoc.
Qed.

Lemma write_note_loop_ok (pd : NRB_DATA) (n : nat) :
  forall (i : nat) (out : stream),
    doc_inv pd -> (i + n <= Z.to_nat (note_count pd))%nat ->
    write_note_loop n (Z.of_nat i) pd out
    = Done tt (out ++ flat_map note_bytes (take n (drop i (notes pd)))).
Proof.
  induction n as [|n IH]; intros i out I Hi.
  - simpl. now rewrite app_nil_r.
  - pose proof (notes_length pd I) as Hlen.
    cbn [write_note_loop]. unfold bind.
    rewrite <- notes_lookup, Nat2Z.id by lia.
    assert (Hx : notes pd !! i = Some (notes pd !!! i))
      by (apply list_lookup_lookup_total_lt; lia).
    destruct (Forall_lookup_1 _ _ _ _ (inv_notes _ I) Hx) as [Ht Hv].
    rewrite (write_note_ok _ _ _ _ Ht Hv).
    replace (Z.of_nat i + 1) with (Z.of_nat (S i)) by lia.
    rewrite IH by (try done; lia).
    rewrite (drop_S _ _ _ Hx). cbn [take flat_map].
    now rewrite <- app_assoc.
Qed.

Lemma write_sect_loop_all (pd : NRB_DATA) (out : stream) :
  doc_inv pd ->
  write_sect_loop (Z.to_nat (sect_count pd)) 0 pd out
  = Done tt (out ++ flat_map be64 (sections pd)).
Proof.
  intros I.
  pose proof (write_sect_loop_ok pd (Z.to_nat (sect_count pd)) 0 out I) as H.
  change (Z.of_nat 0) with 0 in H. rewrite H by lia.
  now rewrite drop_0, <- (sections_length pd I), firstn_all.
Qed.

Lemma write_note_loop_all (pd : NRB_DATA) (out : stream) :
  doc_inv pd ->
  write_note_loop (Z.to_nat (note_count pd)) 0 pd out
  = Done tt (out ++ flat_map note_bytes (notes pd)).
Proof.
  intros I.
  pose proof (write_note_loop_ok pd (Z.to_nat (note_count pd)) 0 out I) as H.
  change (Z.of_nat 0) with 0 in H. rewrite H by lia.
  now rewrite drop_0, <- (notes_length pd I), firstn_all.
Qed.

Lemma nrb_serialize_ok (pd : NRB_DATA) (out : stream) :
  doc_inv pd -> 1 <= note_count pd ->
  nrb_serialize pd out = Done 1 (out ++ nrb_image 0 (0, 0, 0, 0) pd).
Proof.
  intros I Hnc.
  pose proof (inv_sect_count _ I) as Hsc.
  pose proof (inv_note_count _ I) as Hnc'.
  unfold NRB_MAXSECT, NRB_MAXNOTE in *.
  unfold nrb_serialize, bind, ret.
  destruct (note_count pd >? 0) eqn:E; [|lia].
  unfold to_uint16, to_uint32.
  rewrite (Z.mod_small NRB_SIGPRI), (Z.mod_small NRB_SIGSEC)
    by (vm_compute; split; [discriminate|reflexivity]).
  rewrite !Z.mod_small by lia.
  rewrite (nrb_writeUint32_ok NRB_SIGPRI), (nrb_writeUint32_ok NRB_SIGSEC)
    by (vm_compute; split; [discriminate|reflexivity]).
  rewrite !nrb_writeByte_ok by lia.
  rewrite nrb_writeUint16_ok by lia.
  rewrite !nrb_writeUint32_ok by lia.
  rewrite write_sect_loop_all, write_note_loop_all by done.
  unfold nrb_image, version_bytes, counts_bytes, tables_bytes.
  now rewrite <- !app_assoc.
Qed.

(** ** Documents built through the interface *)

Lemma nrb_append_done_valid (pd pd' : NRB_DATA) (pn : NRB_NOTE) (st : Z) :
  nrb_append pn pd = Done st pd' -> note_valid pd pn.
Proof.
  unfold nrb_append, bind.
  destruct (check_note pn pd) as [u pd1|] eqn:Ec; [|discriminate].
  intros _. now apply check_note_inv in Ec as [_ ?].
Qed.

Lemma nrb_append_inv (pd pd' : NRB_DATA) (pn : NRB_NOTE) (st : Z) :
  doc_inv pd -> note_typed pn ->
  nrb_append pn pd = Done st pd' -> doc_inv pd'.
Proof.
  intros I Ht H. pose proof (nrb_append_done_valid _ _ _ _ H) as Hv.
  destruct (Z.lt_ge_cases (note_count pd) NRB_MAXNOTE) as [Hlt|Hge].
  - destruct (nrb_append_ok pd pn I Ht Hv Hlt) as (pd1 & H1 & I1 & _).
    rewrite H1 in H. now injection H as _ <-.
  - rewrite nrb_append_full in H by done. now injection H as _ <-.
Qed.

Lemma nrb_sect_inv (pd pd' : NRB_DATA) (offset st : Z) :
  doc_inv pd -> offset <= NRB_MAXUINT64 ->
  nrb_sect offset pd = Done st pd' -> doc_inv pd'.
Proof.
  intros I Hmax H. pose proof (nrb_sect_done_valid _ _ _ _ H) as Hv.
  pose proof (inv_sect_count _ I) as Hsc.
  destruct (Z.lt_ge_cases (sect_count pd) NRB_MAXSECT) as [Hlt|Hge].
  - destruct (nrb_sect_ok pd offset I Hv Hmax Hlt) as (pd1 & H1 & I1 & _).
    rewrite H1 in H. now injection H as _ <-.
  - rewrite nrb_sect_full in H by (try done; lia). now injection H as _ <-.
Qed.

Section Constructed.
Variable qsort : qsort_type.
Hypothesis qsort_ok : qsort_contract qsort.

Lemma constructed_inv (pd : NRB_DATA) : constructed qsort pd -> doc_inv pd.
Proof.
  induction 1 as [|pf pd ver rest Hp|pd offset st pd' _ IH Ho Hs
                  |pd pn st pd' _ IH Ht Ha|pd i pn pd' _ IH Ht Hs
                  |pd pd' _ IH Hs].
  - exact nrb_alloc_inv.
  - now apply nrb_parse_inv in Hp as (_ & _ & _ & _ & _ & _ & ? & _).
  - apply (nrb_sect_inv pd pd' offset st); try done.
    unfold NRB_MAXUINT64. lia.
  - now apply (nrb_append_inv pd pd' pn st).
  - now apply (nrb_set_inv pd pd' i pn tt).
  - now apply (nrb_sort_inv qsort qsort_ok pd pd' tt).
Qed.

Lemma constructed_append_each (l : list NRB_NOTE) :
  forall (pd pd' : NRB_DATA) (st : Z),
    constructed qsort pd -> Forall note_typed l ->
    append_each nrb_append l pd = Done st pd' ->
    constructed qsort pd'.
Proof.
  induction l as [|pn l IH]; intros pd pd' st Hc Hl H.
  - simpl in H. now injection H as _ <-.
  - apply Forall_cons in Hl as [Ht Hl]. simpl in H. unfold bind in H.
    destruct (nrb_append pn pd) as [st1 pd1|] eqn:E; [|discriminate].
    assert (Hc1 : constructed qsort pd1)
      by now apply (constructed_append qsort pd pn st1 pd1).
    destruct (st1 =? 0).
    + now injection H as _ <-.
    + now apply (IH pd1 pd' st).
Qed.
End Constructed.

Lemma sample_doc_constructed : constructed insertion_qsort sample_doc.
Proof.
  apply (constructed_append_each insertion_qsort growth_notes nrb_alloc
           sample_doc 1).
  - constructor.
  - repeat constructor; vm_compute; congruence.
  - vm_compute. reflexivity.
Qed.

(** C4. Reference integrity: in every document built through the
    interface (allocated or parsed, then changed by calls of [nrb_sect],
    [nrb_append], [nrb_set] and [nrb_sort] that returned), every note
    index below the note count is readable with [nrb_get], and the note
    read has a section index below the section count and a start time not
    before the offset [nrb_offset] returns for that section. *)
Theorem reference_integrity (qsort : qsort_type) (pd : NRB_DATA)
    (note_i : Z) :
  qsort_contract qsort -> constructed qsort pd ->
  0 <= note_i < note_count pd ->
  exists pn off,
    nrb_get note_i pd = Done pn pd /\
    0 <= sect pn < sect_count pd /\
    nrb_offset (sect pn) pd = Done off pd /\
    off <= start pn.
Proof.
  intros Hq Hc Hi. pose proof (constructed_inv qsort Hq pd Hc) as I.
  pose proof (notes_length pd I) as Hlen.
  assert (Hx : notes pd !! Z.to_nat note_i
               = Some (notes pd !!! Z.to_nat note_i))
    by (apply list_lookup_lookup_total_lt; lia).
  destruct (Forall_lookup_1 _ _ _ _ (inv_notes _ I) Hx)
    as [_ (_ & _ & _ & _ & _ & Hs & Ho)].
  exists (notes pd !!! Z.to_nat note_i), 
         (sections pd !!! Z.to_nat (sect (notes pd !!! Z.to_nat note_i))).
  split; [now apply nrb_get_ok|]. split; [done|].
  split; [now apply nrb_offset_ok|done].
Qed.

Lemma reference_integrity_witness :
  exists pn off,
    nrb_get 1 sample_doc = Done pn sample_doc /\
    0 <= sect pn < sect_count sample_doc /\
    nrb_offset (sect pn) sample_doc = Done off sample_doc /\
    off <= start pn.
Proof.
  apply (reference_integrity insertion_qsort sample_doc 1).
  - exact insertion_qsort_contract.
  - exact sample_doc_constructed.
  - vm_compute. split; congruence.
Defined.

(** ** Round trip *)

Lemma trimmed_sections (pd : NRB_DATA) :
  doc_inv pd -> sections (trimmed pd) = sections pd.
Proof.
  intros I. unfold sections at 1. simpl. apply take_all.
  now apply sections_length.
Qed.

Lemma trimmed_notes (pd : NRB_DATA) :
  doc_inv pd -> notes (trimmed pd) = notes pd.
Proof.
  intros I. unfold notes at 1. simpl. apply take_all.
  now apply notes_length.
Qed.

(** C1. Round trip: for a document built through the interface that holds
    at least one note, [nrb_serialize] on an empty output returns 1, and
    [nrb_parse] on the bytes written returns a document with the same
    section count and section table and the same note count and note
    table (notes in the same order), consumes every byte, and reports
    [NRB_VER_OK]. *)
Theorem serialize_parse_roundtrip (qsort : qsort_type) (pd : NRB_DATA) :
  qsort_contract qsort -> constructed qsort pd -> 1 <= note_count pd ->
  exists (bytes : stream) (pd' : NRB_DATA),
    nrb_serialize pd [] = Done 1 bytes /\
    nrb_parse bytes = Done (Some pd', NRB_VER_OK) [] /\
    sect_count pd' = sect_count pd /\
    sections pd' = sections pd /\
    note_count pd' = note_count pd /\
    notes pd' = notes pd.
Proof.
  intros Hq Hc Hn. pose proof (constructed_inv qsort Hq pd Hc) as I.
  exists (nrb_image 0 (0, 0, 0, 0) pd), (trimmed pd).
  split; [now rewrite nrb_serialize_ok|]. split.
  - rewrite <- (app_nil_r (nrb_image _ _ _)).
    assert (Hr : rsv_ok (0, 0, 0, 0))
      by (repeat split; vm_compute; congruence).
    now rewrite nrb_parse_image.
  - split; [reflexivity|]. split; [now apply trimmed_sections|].
    split; [reflexivity|now apply trimmed_notes].
Qed.

Lemma serialize_parse_roundtrip_witness :
  exists (bytes : stream) (pd' : NRB_DATA),
    nrb_serialize sample_doc [] = Done 1 bytes /\
    nrb_parse bytes = Done (Some pd', NRB_VER_OK) [] /\
    sect_count pd' = sect_count sample_doc /\
    sections pd' = sections sample_doc /\
    note_count pd' = note_count sample_doc /\
    notes pd' = notes sample_doc.
Proof.
  apply (serialize_parse_roundtrip insertion_qsort sample_doc).
  - exact insertion_qsort_contract.
  - exact sample_doc_constructed.
  - vm_compute. congruence.
Defined.

(** ** The section table on read *)

(** C3, as the code has it.  The loop of [nrb_parse] over a table of [n]
    section offsets always returns, and it succeeds with table [tbl] and
    remaining stream [rest] exactly when the stream starts with the [n]
    offsets of [tbl] as 8-byte big-endian values, the first offset is 0,
    each further offset is at least its predecessor, and every offset is at
    most 2^63 - 1.  An offset of 2^63 or more fails the parse like a read
    failure. *)
Theorem section_table_accepted (n : nat) (s rest : stream) (tbl : list Z) :
  (parse_sect_loop n 0 (replicate n 0) s = Done (Some tbl) rest <->
   length tbl = n /\ s = flat_map be64 tbl ++ rest /\ sect_table_ok tbl) /\
  (exists r s', parse_sect_loop n 0 (replicate n 0) s = Done r s').
Proof.
  split; [|apply parse_sect_loop_total].
  split.
  - intros H. change 0 with (Z.of_nat (length (@nil Z))) in H at 1.
    apply (parse_sect_loop_inv n []) in H as (vs & Hlen & -> & -> & Hok).
    + done.
    + split; [discriminate|]. split; [discriminate|constructor].
  - intros (<- & -> & Hok).
    change 0 with (Z.of_nat (length (@nil Z))) at 1.
    now apply (parse_sect_loop_ok tbl []).
Qed.

(** C3 as stated fails: the offsets 0 and 2^63 are 8-byte unsigned values
    in non-decreasing order with the first equal to 0, all sixteen bytes
    are there to be read, and yet the section loop, and with it
    [nrb_parse], fails. *)
Lemma section_table_counterexample :
  let tbl := [0; 9223372036854775808] in
  tbl !! 0%nat = Some 0 /\
  StronglySorted Z.le tbl /\
  Forall (fun v => 0 <= v < 2 ^ 64) tbl /\
  parse_sect_loop 2 0 (replicate 2 0) (flat_map be64 tbl) = Done None [] /\
  value_of (nrb_parse high_offset_stream) = Some (None, NRB_VER_OK).
Proof.
  cbv zeta. split; [reflexivity|]. split.
  { repeat constructor. lia. }
  split.
  { repeat constructor; vm_compute; congruence. }
  split; vm_compute; reflexivity.
Qed.

(** ** Scenario B *)

(** C7, as the code has it.  A stream with the two signatures, major
    version 1, minor version 1, one section of offset 0, the one note of
    scenario B and four reserved fields of at most 2^31 - 1 each parses
    successfully, whatever follows the note record: the document returned
    has a note count of 1 and holds that note, and the version status is
    [NRB_VER_MINOR].  The bound on the reserved fields is needed, see the
    counterexample below. *)
Theorem scenario_b_parses (rsv : Z * Z * Z * Z) (rest : stream) :
  rsv_ok rsv ->
  exists pd,
    nrb_parse (version_bytes 1 ++ counts_bytes 1 1 rsv ++
               tables_bytes [0] [scenario_b_note] ++ rest)
    = Done (Some pd, NRB_VER_MINOR) rest /\
    nrb_notes pd = Done 1 pd /\
    nrb_sections pd = Done 1 pd /\
    nrb_offset 0 pd = Done 0 pd /\
    nrb_get 0 pd = Done scenario_b_note pd.
Proof.
  intros Hr.
  set (pd := mkData 1 1 1 1 [0] [scenario_b_note]).
  assert (I : doc_inv pd).
  { split.
    - simpl. unfold NRB_MAXSECT. lia.
    - simpl. unfold NRB_MAXSECT. lia.
    - reflexivity.
    - simpl. unfold NRB_MAXNOTE. lia.
    - simpl. unfold NRB_MAXNOTE. lia.
    - reflexivity.
    - change (sections pd) with [0].
      split; [now intros x [= <-]|]. split.
      + intros [|i] x y; [|destruct i]; discriminate.
      + repeat constructor. unfold NRB_MAXUINT64. lia.
    - change (notes pd) with [scenario_b_note].
      repeat constructor; vm_compute; congruence. }
  exists pd. split; [|repeat split].
  pose proof (nrb_parse_image 1 rsv pd rest I) as H.
  unfold nrb_image in H. rewrite <- !app_assoc in H.
  apply H; [simpl; lia|lia|done].
Qed.

Lemma scenario_b_parses_witness :
  rsv_ok (0, 0, 0, 0) /\
  exists pd,
    nrb_parse scenario_b = Done (Some pd, NRB_VER_MINOR) [] /\
    nrb_notes pd = Done 1 pd /\
    nrb_sections pd = Done 1 pd /\
    nrb_offset 0 pd = Done 0 pd /\
    nrb_get 0 pd = Done scenario_b_note pd.
Proof.
  assert (Hr : rsv_ok (0, 0, 0, 0))
    by (repeat split; vm_compute; congruence).
  split; [exact Hr|].
  exact (scenario_b_parses (0, 0, 0, 0) [] Hr).
Defined.

(** C7 as stated fails: the stream below has the two signatures, major
    version 1, minor version 1, one section of offset 0 and the one note of
    scenario B, all of its 64 bytes are there to be read and each reserved
    field is a 32-bit unsigned value; the first reserved field is 2^31,
    and [nrb_parse] returns [NULL]. *)
Lemma scenario_b_counterexample :
  let rsv := (2147483648, 0, 0, 0) in
  let s := version_bytes 1 ++ counts_bytes 1 1 rsv ++
           tables_bytes [0] [scenario_b_note] in
  length s = 64%nat /\
  s = reserved_high_stream /\
  (forall i : nat, i <> 16%nat -> s !! i = scenario_b !! i) /\
  ~ rsv_ok rsv /\
  nrb_parse s = Done (None, NRB_VER_MINOR) (drop 20 s) /\
  ~ exists pd ver rest, nrb_parse s = Done (Some pd, ver) rest.
Proof.
  cbv zeta.
  assert (Hs : version_bytes 1 ++ counts_bytes 1 1 (2147483648, 0, 0, 0) ++
               tables_bytes [0] [scenario_b_note] = reserved_high_stream)
    by (vm_compute; reflexivity).
  rewrite Hs.
  assert (Hp : nrb_parse reserved_high_stream
               = Done (None, NRB_VER_MINOR) (drop 20 reserved_high_stream))
    by (vm_compute; reflexivity).
  split; [vm_compute; reflexivity|]. split; [reflexivity|]. split.
  { intros i Hi. do 16 (destruct i as [|i]; [reflexivity|]).
    destruct i as [|i]; [done|]. reflexivity. }
  split.
  { unfold rsv_ok, NRB_MAXUINT32. lia. }
  split; [exact Hp|].
  intros (pd & ver & rest & H). rewrite Hp in H. discriminate.
Qed.

(** ** What the parser reads *)

Lemma length_flat_map_const {A} (f : A -> stream) (k : nat) (l : list A) :
  (forall x, length (f x) = k) -> length (flat_map f l) = (k * length l)%nat.
Proof.
  intros Hf. induction l as [|x l IH]; simpl; [lia|].
  rewrite length_app, Hf, IH. lia.
Qed.

Lemma length_nrb_image (minor : Z) (rsv : Z * Z * Z * Z) (pd : NRB_DATA) :
  length (nrb_image minor rsv pd)
  = (32 + 8 * length (sections pd) + 24 * length (notes pd))%nat.
Proof.
  destruct rsv as [[[r1 r2] r3] r4].
  unfold nrb_image, version_bytes, counts_bytes, tables_bytes.
  rewrite !length_app.
  rewrite (length_flat_map_const be64 8) by reflexivity.
  rewrite (length_flat_map_const note_bytes 24) by reflexivity.
  simpl. lia.
Qed.

(** C10. Trailing data is ignored.  When [nrb_parse] succeeds, the bytes it
    consumed are the 32 header bytes, 8 bytes per section and 24 bytes per
    note; the parse of these bytes followed by anything else returns the
    same document and version status and leaves what follows unread.  In
    particular, appending bytes to the stream changes neither. *)
Theorem trailing_data_ignored (s rest : stream) (pd : NRB_DATA) (ver : Z) :
  nrb_parse s = Done (Some pd, ver) rest ->
  exists file : stream,
    s = file ++ rest /\
    Z.of_nat (length file) = 32 + 8 * sect_count pd + 24 * note_count pd /\
    (forall extra, nrb_parse (file ++ extra) = Done (Some pd, ver) extra) /\
    (forall extra,
       nrb_parse (s ++ extra) = Done (Some pd, ver) (rest ++ extra)).
Proof.
  intros H.
  apply nrb_parse_inv in H
    as (minor & rsv & Hm & Hr & -> & -> & I & Hn & Ht).
  assert (Hfile : forall extra,
            nrb_parse (nrb_image minor rsv pd ++ extra)
            = Done (Some pd, ver_of_minor minor) extra).
  { intros extra. rewrite nrb_parse_image by done. now rewrite Ht. }
  exists (nrb_image minor rsv pd).
  split; [reflexivity|]. split; [|split; [exact Hfile|]].
  - rewrite length_nrb_image, (sections_length pd I), (notes_length pd I).
    pose proof (inv_sect_count _ I). lia.
  - intros extra. now rewrite <- app_assoc.
Qed.

Lemma trailing_data_ignored_witness :
  exists file : stream,
    scenario_b ++ [x2a; x2b] = file ++ [x2a; x2b] /\
    Z.of_nat (length file)
    = 32 + 8 * sect_count scenario_b_doc + 24 * note_count scenario_b_doc /\
    (forall extra,
       nrb_parse (file ++ extra)
       = Done (Some scenario_b_doc, NRB_VER_MINOR) extra) /\
    (forall extra,
       nrb_parse ((scenario_b ++ [x2a; x2b]) ++ extra)
       = Done (Some scenario_b_doc, NRB_VER_MINOR) ([x2a; x2b] ++ extra)).
Proof.
  apply (trailing_data_ignored (scenario_b ++ [x2a; x2b]) [x2a; x2b]
           scenario_b_doc NRB_VER_MINOR).
  vm_compute. reflexivity.
Defined.

(** ** The reserved fields *)

Lemma parse_version_prefix (p t1 t2 : stream) :
  length p = 10%nat ->
  value_of (parse_version (p ++ t1)) = value_of (parse_version (p ++ t2)).
Proof.
  intros Hp.
  do 10 (destruct p as [|? p]; [discriminate|]).
  destruct p; [|discriminate]. clear Hp.
  unfold parse_version, bind, ret. cbn [app].
  rewrite !nrb_readUint32_ok by (simpl; lia). cbn [take drop].
  destruct (negb (_ =? NRB_SIGPRI)); [reflexivity|].
  rewrite !nrb_readUint32_ok by (simpl; lia).
  repeat first
    [ reflexivity
    | progress cbn [take drop nrb_readByte]
    | match goal with
      | |- context [if ?b then _ else _] => destruct b
      end ].
Qed.

Lemma nrb_parse_ver (s r : stream) (pdo : option NRB_DATA) (ver : Z) :
  nrb_parse s = Done (pdo, ver) r ->
  exists st s1, parse_version s = Done (st, ver) s1.
Proof.
  unfold nrb_parse, bind, ret. intros H.
  destruct (parse_version s) as [[st v] s1|]; [|discriminate].
  exists st, s1. destruct st; cbn [negb] in H;
    [|now injection H as _ <- _].
  destruct (parse_counts s1) as [[[sc nc]|] s2|]; try discriminate;
    [|now injection H as _ <- _].
  destruct (parse_sect_loop _ _ _ _) as [[tbl|] s3|]; try discriminate;
    [|now injection H as _ <- _].
  destruct (parse_note_loop _ _ _ _ _ _ _) as [[nts|] s4|]; try discriminate;
    now injection H as _ <- _.
Qed.

Lemma differ_take_drop (s1 s2 : stream) :
  differ_in_reserved_only s1 s2 ->
  take 16 s1 = take 16 s2 /\ drop 32 s1 = drop 32 s2.
Proof.
  intros [Hlen Hag]. split; apply list_eq; intros i.
  - destruct (decide (i < 16)%nat).
    + rewrite !lookup_take_lt by done. apply Hag. lia.
    + now rewrite !lookup_take_ge by lia.
  - rewrite !lookup_drop. apply Hag. lia.
Qed.

Lemma differ_sym (s1 s2 : stream) :
  differ_in_reserved_only s1 s2 -> differ_in_reserved_only s2 s1.
Proof. intros [Hlen Hag]. split; [done|]. intros i Hi. now rewrite Hag. Qed.

Lemma differ_intro (pre m1 m2 post : stream) :
  length pre = 16%nat -> length m1 = 16%nat -> length m2 = 16%nat ->
  differ_in_reserved_only (pre ++ m1 ++ post) (pre ++ m2 ++ post).
Proof.
  intros Hp H1 H2. split.
  - rewrite !length_app. lia.
  - intros i [Hi|Hi].
    + rewrite (lookup_app_l pre (m1 ++ post)),
        (lookup_app_l pre (m2 ++ post)) by lia. reflexivity.
    + rewrite (lookup_app_r pre (m1 ++ post)),
        (lookup_app_r pre (m2 ++ post)) by lia.
      rewrite (lookup_app_r m1 post), (lookup_app_r m2 post) by lia.
      now rewrite H1, H2.
Qed.

Lemma version_agree (s1 s2 r1 r2 : stream) (p1 p2 : option NRB_DATA)
    (v1 v2 : Z) :
  differ_in_reserved_only s1 s2 ->
  nrb_parse s1 = Done (p1, v1) r1 -> nrb_parse s2 = Done (p2, v2) r2 ->
  v1 = v2.
Proof.
  intros Hd H1 H2.
  apply nrb_parse_ver in H1 as (st1 & q1 & H1).
  apply nrb_parse_ver in H2 as (st2 & q2 & H2).
  assert (Ht : take 10 s1 = take 10 s2).
  { destruct (differ_take_drop _ _ Hd) as [Ht _].
    apply (f_equal (take 10)) in Ht.
    now rewrite !take_take in Ht. }
  destruct Hd as [Hlen _].
  destruct (decide (10 <= length s1)%nat) as [Hl|Hl].
  - pose proof (parse_version_prefix (take 10 s1) (drop 10 s1) (drop 10 s2))
      as Hp.
    rewrite take_drop, Ht, take_drop, H1, H2 in Hp.
    assert (Hl2 : length (take 10 s2) = 10%nat)
      by (rewrite length_take; lia).
    specialize (Hp Hl2). simpl in Hp. congruence.
  - rewrite !take_ge in Ht by lia. subst s2. congruence.
Qed.

Lemma split_16_16 (s : stream) :
  s = take 16 s ++ take 16 (drop 16 s) ++ drop 32 s.
Proof.
  rewrite <- (take_drop 16 s) at 1. f_equal.
  rewrite <- (take_drop 16 (drop 16 s)) at 1. f_equal.
  now rewrite drop_drop.
Qed.

Lemma be_val_4_top (m0 m1 m2 m3 : byte) :
  byte_val m0 < 128 -> 0 <= be_val [m0; m1; m2; m3] <= NRB_MAXUINT32.
Proof.
  intros Htop.
  pose proof (byte_val_range m0). pose proof (byte_val_range m1).
  pose proof (byte_val_range m2). pose proof (byte_val_range m3).
  unfold be_val, NRB_MAXUINT32. simpl. lia.
Qed.

Lemma reserved_chunks (mid : stream) :
  length mid = 16%nat ->
  (forall k b, (k < 4)%nat -> mid !! (4 * k)%nat = Some b ->
               byte_val b < 128) ->
  exists rsv,
    rsv_ok rsv /\
    mid = (let '(r1, r2, r3, r4) := rsv in
           be32 r1 ++ be32 r2 ++ be32 r3 ++ be32 r4).
Proof.
  intros Hlen Htop.
  do 16 (destruct mid as [|? mid]; [discriminate|]).
  destruct mid; [|discriminate]. clear Hlen.
  exists (be_val [b; b0; b1; b2], be_val [b3; b4; b5; b6],
          be_val [b7; b8; b9; b10], be_val [b11; b12; b13; b14]).
  split.
  - split; [|split; [|split]]; apply be_val_4_top.
    + apply (Htop 0%nat); [lia|reflexivity].
    + apply (Htop 1%nat); [lia|reflexivity].
    + apply (Htop 2%nat); [lia|reflexivity].
    + apply (Htop 3%nat); [lia|reflexivity].
  - now rewrite !be32_be_val by reflexivity.
Qed.

Lemma image_split (minor : Z) (rsv : Z * Z * Z * Z) (pd : NRB_DATA)
    (rest : stream) :
  nrb_image minor rsv pd ++ rest
  = (version_bytes minor ++ be16 (sect_count pd) ++ be32 (note_count pd)) ++
    (let '(r1, r2, r3, r4) := rsv in
     be32 r1 ++ be32 r2 ++ be32 r3 ++ be32 r4) ++
    (tables_bytes (sections pd) (notes pd) ++ rest).
Proof.
  destruct rsv as [[[r1 r2] r3] r4]. unfold nrb_image, counts_bytes.
  now rewrite <- !app_assoc.
Qed.

Lemma reserved_transfer (s1 s2 rest : stream) (pd : NRB_DATA) (ver : Z) :
  differ_in_reserved_only s1 s2 -> reserved_in_range s2 ->
  nrb_parse s1 = Done (Some pd, ver) rest ->
  nrb_parse s2 = Done (Some pd, ver) rest.
Proof.
  intros Hd Hr2 H1.
  apply nrb_parse_inv in H1
    as (minor & rsv1 & Hm & _ & -> & -> & I & Hn & Ht).
  destruct (differ_take_drop _ _ Hd) as [Htk Hdr].
  destruct Hd as [Hlen _].
  rewrite image_split in Htk, Hdr, Hlen.
  set (pre := version_bytes minor ++ be16 (sect_count pd)
              ++ be32 (note_count pd)) in *.
  set (post := tables_bytes (sections pd) (notes pd) ++ rest) in *.
  assert (Hpre : length pre = 16%nat) by reflexivity.
  assert (Hmid1 : length (let '(r1, r2, r3, r4) := rsv1 in
                          be32 r1 ++ be32 r2 ++ be32 r3 ++ be32 r4)
                  = 16%nat) by now destruct rsv1 as [[[? ?] ?] ?].
  rewrite take_app_length' in Htk by done.
  rewrite app_assoc, drop_app_length' in Hdr
    by (rewrite length_app; lia).
  rewrite !length_app in Hlen.
  destruct (reserved_chunks (take 16 (drop 16 s2))) as (rsv2 & Hr & Hmid2).
  { rewrite length_take, length_drop. lia. }
  { intros k b Hk Hb. apply (Hr2 k b Hk).
    rewrite lookup_take_lt, lookup_drop in Hb by lia. exact Hb. }
  rewrite (split_16_16 s2), <- Htk, <- Hdr, Hmid2.
  subst pre post. rewrite <- image_split.
  rewrite nrb_parse_image by done. now rewrite Ht.
Qed.

Lemma parsed_reserved_in_range (s rest : stream) (pd : NRB_DATA) (ver : Z) :
  nrb_parse s = Done (Some pd, ver) rest -> reserved_in_range s.
Proof.
  intros H.
  apply nrb_parse_inv in H as (minor & rsv & _ & Hr & _ & -> & _).
  destruct rsv as [[[r1 r2] r3] r4].
  destruct Hr as (R1 & R2 & R3 & R4). unfold NRB_MAXUINT32 in *.
  rewrite image_split.
  intros k b Hk.
  rewrite lookup_app_r by (simpl; lia).
  change (length (version_bytes minor ++ be16 (sect_count pd)
                  ++ be32 (note_count pd))) with 16%nat.
  replace (16 + 4 * k - 16)%nat with (4 * k)%nat by lia.
  unfold be32. cbn [app].
  destruct k as [|[|[|[|k]]]]; [| | | |lia]; simpl; intros [= <-];
    rewrite byte_val_of_Z by ediv; ediv.
Qed.

(** C2, as the code has it.  The reserved fields are read with
    [nrb_readUint32], which returns -1 both when the stream ends and when
    the value read exceeds 2^31 - 1, and [nrb_parse] fails on -1.  So:
    [nrb_parse] gives the same result (document or [NULL], and version
    status) on two streams of the same length that differ only within
    bytes 16 to 31, provided that in both every reserved field is at most
    2^31 - 1; and a stream that parses successfully has all four reserved
    fields at most 2^31 - 1. *)
Theorem reserved_fields_ignored (s1 s2 : stream) :
  (differ_in_reserved_only s1 s2 ->
   reserved_in_range s1 -> reserved_in_range s2 ->
   value_of (nrb_parse s1) = value_of (nrb_parse s2)) /\
  (forall pd ver rest,
     nrb_parse s1 = Done (Some pd, ver) rest -> reserved_in_range s1).
Proof.
  split; [|intros pd ver rest; apply parsed_reserved_in_range].
  intros Hd Hr1 Hr2.
  destruct (nrb_parse_total s1) as (p1 & v1 & q1 & H1).
  destruct (nrb_parse_total s2) as (p2 & v2 & q2 & H2).
  pose proof (version_agree _ _ _ _ _ _ _ _ Hd H1 H2) as <-.
  destruct p1 as [pd1|].
  - pose proof (reserved_transfer s1 s2 q1 pd1 v1 Hd Hr2 H1) as H2'.
    now rewrite H1, H2'.
  - destruct p2 as [pd2|].
    + pose proof (reserved_transfer s2 s1 q2 pd2 v1 (differ_sym _ _ Hd)
                    Hr1 H2) as H1'.
      rewrite H1' in H1. discriminate.
    + now rewrite H1, H2.
Qed.

Lemma scenario_b_split :
  scenario_b
  = take 16 scenario_b ++ take 16 (drop 16 scenario_b) ++ drop 32 scenario_b.
Proof. reflexivity. Qed.

Lemma reserved_in_range_intro (s : stream) :
  (forall b, s !! 16%nat = Some b -> byte_val b < 128) ->
  (forall b, s !! 20%nat = Some b -> byte_val b < 128) ->
  (forall b, s !! 24%nat = Some b -> byte_val b < 128) ->
  (forall b, s !! 28%nat = Some b -> byte_val b < 128) ->
  reserved_in_range s.
Proof.
  intros H0 H1 H2 H3 k b Hk.
  destruct k as [|[|[|[|k]]]]; [apply H0|apply H1|apply H2|apply H3|lia].
Qed.

Lemma reserved_fields_ignored_witness :
  value_of (nrb_parse scenario_b) = value_of (nrb_parse reserved_low_stream) /\
  (forall pd ver rest,
     nrb_parse scenario_b = Done (Some pd, ver) rest ->
     reserved_in_range scenario_b).
Proof.
  destruct (reserved_fields_ignored scenario_b reserved_low_stream)
    as [H1 H2].
  split; [|exact H2]. apply H1.
  - rewrite scenario_b_split. apply differ_intro; reflexivity.
  - apply reserved_in_range_intro; intros b [= <-]; vm_compute; reflexivity.
  - apply reserved_in_range_intro; intros b [= <-]; vm_compute; reflexivity.
Defined.

(** C2 as stated fails: the two streams below have the same length and
    differ in byte 16 only, every byte of both is there to be read, the
    first parses successfully and the second does not. *)
Lemma reserved_fields_counterexample :
  differ_in_reserved_only scenario_b reserved_high_stream /\
  nrb_parse scenario_b = Done (Some scenario_b_doc, NRB_VER_MINOR) [] /\
  length reserved_high_stream = 64%nat /\
  value_of (nrb_parse reserved_high_stream) = Some (None, NRB_VER_MINOR).
Proof.
  split; [|split; [|split]]; try (vm_compute; reflexivity).
  rewrite scenario_b_split.
  change reserved_high_stream
    with (take 16 scenario_b ++ (x80 :: take 15 (drop 17 scenario_b)) ++
          drop 32 scenario_b).
  apply differ_intro; reflexivity.
Qed.

(** * Further properties of the codec *)

(** ** Integers on the wire *)

(** X1. Writing an integer and reading it back returns it, for every value
    of the format's range: 16 bits in full, 31 bits of the 32-bit fields
    and 63 bits of the 64-bit fields.  The writers append two, four and
    eight bytes and leave what was written before in place; the readers
    consume exactly these bytes. *)
Theorem codec_roundtrip (v16 v32 v64 : Z) (out rest : stream) :
  0 <= v16 <= 65535 -> 0 <= v32 <= 2147483647 ->
  0 <= v64 <= 9223372036854775807 ->
  (exists bs, nrb_writeUint16 v16 out = Done tt (out ++ bs) /\
              length bs = 2%nat /\
              nrb_readUint16 (bs ++ rest) = Done v16 rest) /\
  (exists bs, nrb_writeUint32 v32 out = Done tt (out ++ bs) /\
              length bs = 4%nat /\
              nrb_readUint32 (bs ++ rest) = Done v32 rest) /\
  (exists bs, nrb_writeUint64 v64 out = Done tt (out ++ bs) /\
              length bs = 8%nat /\
              nrb_readUint64 (bs ++ rest) = Done v64 rest).
Proof.
  intros H16 H32 H64. split; [|split].
  - exists (be16 v16). rewrite nrb_writeUint16_ok by lia.
    split; [done|]. split; [done|]. now apply nrb_readUint16_be16.
  - exists (be32 v32). rewrite nrb_writeUint32_ok by lia.
    split; [done|]. split; [done|]. now apply nrb_readUint32_be32.
  - exists (be64 v64). rewrite nrb_writeUint64_ok by lia.
    split; [done|]. split; [done|]. now apply nrb_readUint64_be64.
Qed.

Lemma codec_roundtrip_witness :
  (exists bs, nrb_writeUint16 65535 [x00] = Done tt ([x00] ++ bs) /\
              length bs = 2%nat /\
              nrb_readUint16 (bs ++ [x01]) = Done 65535 [x01]) /\
  (exists bs, nrb_writeUint32 1048576 [x00] = Done tt ([x00] ++ bs) /\
              length bs = 4%nat /\
              nrb_readUint32 (bs ++ [x01]) = Done 1048576 [x01]) /\
  (exists bs, nrb_writeUint64 1000 [x00] = Done tt ([x00] ++ bs) /\
              length bs = 8%nat /\
              nrb_readUint64 (bs ++ [x01]) = Done 1000 [x01]).
Proof. apply (codec_roundtrip 65535 1048576 1000 [x00] [x01]); lia. Defined.

(** X2. The writers take the whole unsigned range, the readers do not: a
    32-bit value of 2^31 or more and a 64-bit value of 2^63 or more are
    written without a fault, and reading the bytes written consumes them
    and returns -1. *)
Theorem top_bit_reads_as_failure (v32 v64 : Z) (out rest : stream) :
  2147483648 <= v32 < 4294967296 ->
  9223372036854775808 <= v64 < 18446744073709551616 ->
  (exists bs, nrb_writeUint32 v32 out = Done tt (out ++ bs) /\
              nrb_readUint32 (bs ++ rest) = Done (-1) rest) /\
  (exists bs, nrb_writeUint64 v64 out = Done tt (out ++ bs) /\
              nrb_readUint64 (bs ++ rest) = Done (-1) rest).
Proof.
  intros H32 H64. split.
  - exists (be32 v32). rewrite nrb_writeUint32_ok by lia. split; [done|].
    rewrite nrb_readUint32_ok by (rewrite length_app; simpl; lia).
    change (take 4 (be32 v32 ++ rest)) with (be32 v32).
    change (drop 4 (be32 v32 ++ rest)) with rest.
    rewrite be_val_be32 by lia. unfold NRB_MAXUINT32.
    destruct (v32 >? 2147483647) eqn:E; [reflexivity|lia].
  - exists (be64 v64). rewrite nrb_writeUint64_ok by lia. split; [done|].
    rewrite nrb_readUint64_ok by (rewrite length_app; simpl; lia).
    change (take 8 (be64 v64 ++ rest)) with (be64 v64).
    change (drop 8 (be64 v64 ++ rest)) with rest.
    rewrite be_val_be64 by lia. unfold NRB_MAXUINT64.
    destruct (v64 >? 9223372036854775807) eqn:E; [reflexivity|lia].
Qed.

Lemma top_bit_reads_as_failure_witness :
  (exists bs, nrb_writeUint32 2147483648 [] = Done tt ([] ++ bs) /\
              nrb_readUint32 (bs ++ [x07]) = Done (-1) [x07]) /\
  (exists bs, nrb_writeUint64 9223372036854775808 [] = Done tt ([] ++ bs) /\
              nrb_readUint64 (bs ++ [x07]) = Done (-1) [x07]).
Proof.
  apply (top_bit_reads_as_failure 2147483648 9223372036854775808 [] [x07]);
    lia.
Defined.

(** X3. A stream that ends inside an integer: with fewer than two, four or
    eight bytes left, the readers return -1 and leave the stream at its
    end, the bytes of the incomplete field having been consumed. *)
Theorem read_past_end (s : stream) :
  ((length s < 2)%nat -> nrb_readUint16 s = Done (-1) []) /\
  ((length s < 4)%nat -> nrb_readUint32 s = Done (-1) []) /\
  ((length s < 8)%nat -> nrb_readUint64 s = Done (-1) []).
Proof.
  split; [|split]; intros H.
  - now apply nrb_readUint16_eof.
  - now apply nrb_readUint32_eof.
  - now apply nrb_readUint64_eof.
Qed.

Lemma read_past_end_witness :
  nrb_readUint16 [x05] = Done (-1) [] /\
  nrb_readUint32 [x05] = Done (-1) [] /\
  nrb_readUint64 [x05] = Done (-1) [].
Proof.
  destruct (read_past_end [x05]) as (H1 & H2 & H3).
  split; [apply H1|split; [apply H2|apply H3]]; simpl; lia.
Defined.

(** ** What [nrb_parse] reports *)

Lemma parse_version_codes (s s1 : stream) (st : bool) (ver : Z) :
  parse_version s = Done (st, ver) s1 ->
  (st = true /\ (ver = NRB_VER_OK \/ ver = NRB_VER_MINOR)) \/
  (st = false /\ (ver = NRB_VER_ERROR \/ ver = NRB_VER_MAJOR)).
Proof.
  unfold parse_version, bind, ret.
  destruct (nrb_readUint32_total s) as (g1 & q1 & ->).
  destruct (negb (g1 =? NRB_SIGPRI)); [intros [= <- <- _]; tauto|].
  destruct (nrb_readUint32_total q1) as (g2 & q2 & ->).
  destruct (negb (g2 =? NRB_SIGSEC)); [intros [= <- <- _]; tauto|].
  destruct (nrb_readByte_total q2) as (c1 & q3 & ->).
  destruct (c1 <? 0); [intros [= <- <- _]; tauto|].
  destruct (nrb_readByte_total q3) as (c2 & q4 & ->).
  destruct (c2 <? 0); [intros [= <- <- _]; tauto|].
  destruct (negb (c1 =? 1)); [intros [= <- <- _]; tauto|].
  destruct (c2 =? 0); intros [= <- <- _]; tauto.
Qed.

Lemma nrb_parse_status (s r : stream) (pdo : option NRB_DATA) (ver : Z) :
  nrb_parse s = Done (pdo, ver) r ->
  exists st s1, parse_version s = Done (st, ver) s1 /\
                (st = false -> pdo = None).
Proof.
  unfold nrb_parse, bind, ret. intros H.
  destruct (parse_version s) as [[st v] s1|]; [|discriminate].
  exists st, s1. destruct st; cbn [negb] in H.
  - split; [|discriminate].
    destruct (parse_counts s1) as [[[sc nc]|] s2|]; try discriminate;
      [|now injection H as _ <- _].
    destruct (parse_sect_loop _ _ _ _) as [[tbl|] s3|]; try discriminate;
      [|now injection H as _ <- _].
    destruct (parse_note_loop _ _ _ _ _ _ _) as [[nts|] s4|];
      try discriminate; now injection H as _ <- _.
  - injection H as <- <- _. done.
Qed.

(** X4. [nrb_parse] returns on every input: no byte stream makes it reach
    [abort()].  The version status is one of the four [NRB_VER] codes, a
    document comes only with [NRB_VER_OK] or [NRB_VER_MINOR], and with
    [NRB_VER_MAJOR] or [NRB_VER_ERROR] the result is [NULL]. *)
Theorem nrb_parse_always_returns (s : stream) :
  exists pdo ver rest,
    nrb_parse s = Done (pdo, ver) rest /\
    (ver = NRB_VER_OK \/ ver = NRB_VER_MINOR \/
     ver = NRB_VER_MAJOR \/ ver = NRB_VER_ERROR) /\
    (ver = NRB_VER_MAJOR \/ ver = NRB_VER_ERROR -> pdo = None) /\
    (forall pd, pdo = Some pd -> ver = NRB_VER_OK \/ ver = NRB_VER_MINOR).
Proof.
  destruct (nrb_parse_total s) as (pdo & ver & rest & H).
  exists pdo, ver, rest. split; [exact H|].
  apply nrb_parse_status in H as (st & s1 & Hv & Hst).
  apply parse_version_codes in Hv as [[-> Hc]|[-> Hc]].
  - split; [tauto|]. split; [|tauto].
    unfold NRB_VER_OK, NRB_VER_MINOR, NRB_VER_MAJOR, NRB_VER_ERROR in *. lia.
  - split; [tauto|]. split; [auto|].
    intros pd ->. now specialize (Hst eq_refl).
Qed.

(** X5. Scenario A: a stream whose first eight bytes are not the two
    signatures, or that has fewer than eight bytes, yields [NULL] and
    [NRB_VER_ERROR], whatever the remaining bytes are. *)
Theorem signature_mismatch (s : stream) :
  take 8 s <> be32 NRB_SIGPRI ++ be32 NRB_SIGSEC ->
  value_of (nrb_parse s) = Some (None, NRB_VER_ERROR).
Proof.
  intros Hsig.
  assert (Hv : exists s1, parse_version s = Done (false, NRB_VER_ERROR) s1).
  { unfold parse_version, bind, ret.
    destruct (nrb_readUint32 s) as [g1 q1|] eqn:R1;
      [|destruct (nrb_readUint32_total s) as (? & ? & ?); congruence].
    destruct (g1 =? NRB_SIGPRI) eqn:E1; cbn [negb]; [|eauto].
    destruct (nrb_readUint32 q1) as [g2 q2|] eqn:R2;
      [|destruct (nrb_readUint32_total q1) as (? & ? & ?); congruence].
    destruct (g2 =? NRB_SIGSEC) eqn:E2; cbn [negb]; [|eauto].
    exfalso. apply Hsig. apply Z.eqb_eq in E1, E2. subst g1 g2.
    destruct (nrb_readUint32_inv _ _ _ R1) as [_ ->];
      [unfold NRB_SIGPRI; lia|].
    destruct (nrb_readUint32_inv _ _ _ R2) as [_ ->];
      [unfold NRB_SIGSEC; lia|].
    reflexivity. }
  destruct Hv as (s1 & Hv). unfold nrb_parse, bind. now rewrite Hv.
Qed.

Lemma signature_mismatch_witness :
  value_of (nrb_parse ([x73] ++ drop 1 scenario_b))
  = Some (None, NRB_VER_ERROR).
Proof.
  apply (signature_mismatch ([x73] ++ drop 1 scenario_b)).
  vm_compute. discriminate.
Defined.

(** X6. After the two signatures, a major version byte other than 1 yields
    [NULL] and [NRB_VER_MAJOR] whatever follows, provided the minor version
    byte is there; when the stream ends before both version bytes are
    read, the result is [NULL] and [NRB_VER_ERROR]. *)
Theorem major_version_rejected (bmaj bmin : byte) (rest short : stream) :
  byte_val bmaj <> 1 -> (length short < 2)%nat ->
  value_of (nrb_parse (be32 NRB_SIGPRI ++ be32 NRB_SIGSEC ++
                       bmaj :: bmin :: rest))
  = Some (None, NRB_VER_MAJOR) /\
  value_of (nrb_parse (be32 NRB_SIGPRI ++ be32 NRB_SIGSEC ++ short))
  = Some (None, NRB_VER_ERROR).
Proof.
  intros Hmaj Hshort.
  assert (Hsig : forall t,
            parse_version (be32 NRB_SIGPRI ++ be32 NRB_SIGSEC ++ t)
            = (let* ver_major := nrb_readByte in
               if ver_major <? 0 then ret (false, NRB_VER_ERROR) else
               let* ver_minor := nrb_readByte in
               if ver_minor <? 0 then ret (false, NRB_VER_ERROR) else
               if negb (ver_major =? 1) then ret (false, NRB_VER_MAJOR) else
               if ver_minor =? 0 then ret (true, NRB_VER_OK)
               else ret (true, NRB_VER_MINOR)) t).
  { intros t. unfold parse_version, bind at 1.
    rewrite nrb_readUint32_be32 by (vm_compute; split; discriminate).
    rewrite Z.eqb_refl. cbn [negb]. unfold bind at 1.
    rewrite nrb_readUint32_be32 by (vm_compute; split; discriminate).
    rewrite Z.eqb_refl. reflexivity. }
  split.
  - unfold nrb_parse, bind at 1. rewrite Hsig. unfold bind, ret.
    cbn [nrb_readByte].
    pose proof (byte_val_range bmaj). pose proof (byte_val_range bmin).
    destruct (byte_val bmaj <? 0) eqn:E1; [lia|]. cbn [nrb_readByte].
    destruct (byte_val bmin <? 0) eqn:E2; [lia|].
    destruct (byte_val bmaj =? 1) eqn:E3; [lia|]. reflexivity.
  - unfold nrb_parse, bind at 1. rewrite Hsig. unfold bind, ret.
    destruct short as [|b1 [|b2 short]]; [reflexivity| |simpl in Hshort; lia].
    cbn [nrb_readByte]. pose proof (byte_val_range b1).
    destruct (byte_val b1 <? 0) eqn:E1; [lia|]. reflexivity.
Qed.

Lemma major_version_rejected_witness :
  value_of (nrb_parse (be32 NRB_SIGPRI ++ be32 NRB_SIGSEC ++
                       x02 :: x00 :: drop 10 scenario_b))
  = Some (None, NRB_VER_MAJOR) /\
  value_of (nrb_parse (be32 NRB_SIGPRI ++ be32 NRB_SIGSEC ++ [x01]))
  = Some (None, NRB_VER_ERROR).
Proof.
  apply (major_version_rejected x02 x00 (drop 10 scenario_b) [x01]).
  - vm_compute. discriminate.
  - simpl. lia.
Defined.

(** X7. A document returned by [nrb_parse] has between 1 and 65,535
    sections and between 1 and 1,048,576 notes, never zero notes, and its
    two arrays are allocated to exactly these counts. *)
Theorem parsed_document_shape (s rest : stream) (pd : NRB_DATA) (ver : Z) :
  nrb_parse s = Done (Some pd, ver) rest ->
  1 <= sect_count pd <= NRB_MAXSECT /\
  1 <= note_count pd <= NRB_MAXNOTE /\
  sect_cap pd = sect_count pd /\ note_cap pd = note_count pd /\
  Z.of_nat (length (pSect pd)) = sect_count pd /\
  Z.of_nat (length (pNote pd)) = note_count pd.
Proof.
  intros H.
  apply nrb_parse_inv in H as (_ & _ & _ & _ & _ & _ & I & Hn & Ht).
  pose proof (inv_sect_count _ I). pose proof (inv_note_count _ I).
  assert (Hsc : sect_cap pd = sect_count pd) by now rewrite <- Ht at 1.
  assert (Hnc : note_cap pd = note_count pd) by now rewrite <- Ht at 1.
  split; [done|]. split; [lia|]. split; [done|]. split; [done|].
  rewrite (inv_sect_len _ I), (inv_note_len _ I), Hsc, Hnc. lia.
Qed.

Lemma parsed_document_shape_witness :
  1 <= sect_count scenario_b_doc <= NRB_MAXSECT /\
  1 <= note_count scenario_b_doc <= NRB_MAXNOTE /\
  sect_cap scenario_b_doc = sect_count scenario_b_doc /\
  note_cap scenario_b_doc = note_count scenario_b_doc /\
  Z.of_nat (length (pSect scenario_b_doc)) = sect_count scenario_b_doc /\
  Z.of_nat (length (pNote scenario_b_doc)) = note_count scenario_b_doc.
Proof.
  apply (parsed_document_shape scenario_b [] scenario_b_doc NRB_VER_MINOR).
  vm_compute. reflexivity.
Defined.

Lemma take_16_image (minor : Z) (rsv : Z * Z * Z * Z) (pd : NRB_DATA)
    (rest : stream) :
  take 16 (nrb_image minor rsv pd ++ rest)
  = version_bytes minor ++ be16 (sect_count pd) ++ be32 (note_count pd).
Proof. rewrite image_split. now apply take_app_length'. Qed.

Lemma image_counts_inj (m1 m2 : Z) (r1 r2 : Z * Z * Z * Z)
    (pd1 pd2 : NRB_DATA) (t1 t2 : stream) :
  doc_inv pd1 -> doc_inv pd2 ->
  take 16 (nrb_image m1 r1 pd1 ++ t1) = take 16 (nrb_image m2 r2 pd2 ++ t2) ->
  sect_count pd1 = sect_count pd2 /\ note_count pd1 = note_count pd2.
Proof.
  intros I1 I2 H. rewrite !take_16_image in H.
  pose proof (inv_sect_count _ I1). pose proof (inv_sect_count _ I2).
  pose proof (inv_note_count _ I1). pose proof (inv_note_count _ I2).
  unfold NRB_MAXSECT, NRB_MAXNOTE in *.
  apply (f_equal (drop 10)) in H.
  change (be16 (sect_count pd1) ++ be32 (note_count pd1)
          = be16 (sect_count pd2) ++ be32 (note_count pd2)) in H.
  split.
  - apply (f_equal (take 2)) in H.
    change (be16 (sect_count pd1) = be16 (sect_count pd2)) in H.
    apply (f_equal be_val) in H. now rewrite !be_val_be16 in H by lia.
  - apply (f_equal (drop 2)) in H.
    change (be32 (note_count pd1) = be32 (note_count pd2)) in H.
    apply (f_equal be_val) in H. now rewrite !be_val_be32 in H by lia.
Qed.

(** X8. A truncated file is rejected: when [nrb_parse] succeeds on a
    stream, it returns [NULL] on every prefix of the stream that stops
    before the last byte of the note table. *)
Theorem truncated_file_rejected (s rest : stream) (pd : NRB_DATA) (ver : Z)
    (n : nat) :
  nrb_parse s = Done (Some pd, ver) rest ->
  (n + length rest < length s)%nat ->
  exists ver' rest', nrb_parse (take n s) = Done (None, ver') rest'.
Proof.
  intros H Hn.
  apply nrb_parse_inv in H as (minor & rsv & _ & _ & _ & -> & I & _ & _).
  rewrite length_app in Hn.
  destruct (nrb_parse_total (take n (nrb_image minor rsv pd ++ rest)))
    as ([pd'|] & ver' & rest' & H'); [|eauto].
  exfalso.
  assert (H2 := H').
  apply nrb_parse_inv in H2 as (m' & rsv' & _ & _ & _ & E & I' & _ & _).
  assert (Hlen : (length (nrb_image m' rsv' pd') <= n)%nat).
  { apply (f_equal length) in E. rewrite length_take, !length_app in E.
    lia. }
  assert (H32 : (32 <= length (nrb_image m' rsv' pd'))%nat)
    by (rewrite length_nrb_image; lia).
  assert (E16 : take 16 (nrb_image minor rsv pd ++ rest)
                = take 16 (nrb_image m' rsv' pd' ++ rest')).
  { rewrite <- E, take_take. f_equal. lia. }
  destruct (image_counts_inj _ _ _ _ _ _ _ _ I I' E16) as [Hsc Hnc].
  rewrite !length_nrb_image in *.
  rewrite (sections_length _ I), (notes_length _ I) in Hn.
  rewrite (sections_length _ I'), (notes_length _ I') in Hlen.
  rewrite Hsc, Hnc in Hn. lia.
Qed.

Lemma truncated_file_rejected_witness :
  exists ver' rest',
    nrb_parse (take 63 scenario_b) = Done (None, ver') rest'.
Proof.
  apply (truncated_file_rejected scenario_b [] scenario_b_doc NRB_VER_MINOR
           63).
  - vm_compute. reflexivity.
  - vm_compute. lia.
Defined.

(** X9. Parsing and writing back: the bytes [nrb_parse] consumed are the
    file image of the document it returned, for the minor version and the
    reserved fields the stream carried; [nrb_serialize] on that document
    writes the same image with minor version 0 and zero reserved fields.
    For a stream of version 1.0 with zero reserved fields the bytes written
    are the bytes consumed. *)
Theorem parse_then_serialize (s rest : stream) (pd : NRB_DATA) (ver : Z) :
  nrb_parse s = Done (Some pd, ver) rest ->
  exists minor rsv,
    s = nrb_image minor rsv pd ++ rest /\
    ver = ver_of_minor minor /\
    nrb_serialize pd [] = Done 1 (nrb_image 0 (0, 0, 0, 0) pd) /\
    (ver = NRB_VER_OK -> rsv = (0, 0, 0, 0) ->
     exists bytes, nrb_serialize pd [] = Done 1 bytes /\ s = bytes ++ rest).
Proof.
  intros H.
  apply nrb_parse_inv in H as (minor & rsv & Hm & _ & -> & -> & I & Hn & _).
  exists minor, rsv. split; [done|]. split; [done|].
  assert (Hs : nrb_serialize pd [] = Done 1 (nrb_image 0 (0, 0, 0, 0) pd))
    by now rewrite nrb_serialize_ok.
  split; [exact Hs|]. intros Hv ->.
  exists (nrb_image 0 (0, 0, 0, 0) pd). split; [exact Hs|].
  unfold ver_of_minor in Hv. destruct (minor =? 0) eqn:E.
  - apply Z.eqb_eq in E. now subst minor.
  - discriminate.
Qed.

Lemma parse_then_serialize_witness :
  exists minor rsv,
    scenario_b = nrb_image minor rsv scenario_b_doc ++ [] /\
    NRB_VER_MINOR = ver_of_minor minor /\
    nrb_serialize scenario_b_doc []
    = Done 1 (nrb_image 0 (0, 0, 0, 0) scenario_b_doc) /\
    (NRB_VER_MINOR = NRB_VER_OK -> rsv = (0, 0, 0, 0) ->
     exists bytes, nrb_serialize scenario_b_doc [] = Done 1 bytes /\
                   scenario_b = bytes ++ []).
Proof.
  apply (parse_then_serialize scenario_b [] scenario_b_doc NRB_VER_MINOR).
  vm_compute. reflexivity.
Defined.

(** ** Documents built through the interface, continued *)

Lemma sect_table_ok_mono (l : list Z) (i j : nat) (a b : Z) :
  sect_table_ok l -> (i <= j)%nat ->
  l !! i = Some a -> l !! j = Some b -> a <= b.
Proof.
  intros Hok Hij Ha. revert b. induction Hij as [|j Hij IH]; intros b Hb.
  - rewrite Ha in Hb. injection Hb as <-. lia.
  - destruct (l !! j) as [c|] eqn:Ec.
    + specialize (IH c eq_refl). destruct Hok as (_ & Hadj & _).
      specialize (Hadj j c b Ec Hb). lia.
    + apply lookup_ge_None in Ec. apply lookup_lt_Some in Hb. lia.
Qed.

(** X10. Monotonicity: in every document built through the interface,
    [nrb_offset] returns 0 for section 0, and the offsets it returns for
    two sections in index order are in non-decreasing order and not
    negative. *)
Theorem section_offsets_monotone (qsort : qsort_type) (pd : NRB_DATA)
    (i j : Z) :
  qsort_contract qsort -> constructed qsort pd ->
  0 <= i <= j -> j < sect_count pd ->
  exists a b,
    nrb_offset 0 pd = Done 0 pd /\
    nrb_offset i pd = Done a pd /\
    nrb_offset j pd = Done b pd /\
    0 <= a <= b.
Proof.
  intros Hq Hc Hij Hj. pose proof (constructed_inv qsort Hq pd Hc) as I.
  pose proof (sections_length pd I) as Hlen.
  pose proof (inv_sections _ I) as Hok.
  assert (Hl : forall k, 0 <= k < sect_count pd ->
             sections pd !! Z.to_nat k
             = Some (sections pd !!! Z.to_nat k))
    by (intros k Hk; apply list_lookup_lookup_total_lt; lia).
  exists (sections pd !!! Z.to_nat i), (sections pd !!! Z.to_nat j).
  rewrite !nrb_offset_ok by lia.
  split.
  - f_equal. destruct Hok as (H0 & _). apply H0.
    apply (Hl 0). lia.
  - split; [done|]. split; [done|]. split.
    + apply (sect_table_ok_nonneg _ (Z.to_nat i) _ Hok). apply Hl. lia.
    + apply (sect_table_ok_mono _ (Z.to_nat i) (Z.to_nat j) _ _ Hok);
        [lia|apply Hl; lia|apply Hl; lia].
Qed.

Lemma sectioned_doc_constructed : constructed insertion_qsort sectioned_doc.
Proof.
  apply (constructed_sect insertion_qsort
           (match nrb_sect 7 nrb_alloc with
            | Done _ pd => pd
            | Fault pd => pd
            end) 12 1); [|lia|vm_compute; reflexivity].
  apply (constructed_sect insertion_qsort nrb_alloc 7 1);
    [|lia|vm_compute; reflexivity].
  constructor.
Qed.

Lemma section_offsets_monotone_witness :
  exists a b,
    nrb_offset 0 sectioned_doc = Done 0 sectioned_doc /\
    nrb_offset 1 sectioned_doc = Done a sectioned_doc /\
    nrb_offset 2 sectioned_doc = Done b sectioned_doc /\
    0 <= a <= b.
Proof.
  apply (section_offsets_monotone insertion_qsort sectioned_doc 1 2).
  - exact insertion_qsort_contract.
  - exact sectioned_doc_constructed.
  - lia.
  - vm_compute. reflexivity.
Defined.

(** X11. Every note that [nrb_get] returns from a document built through
    the interface satisfies the field rules of the validator: a start time
    that is not negative, a release after the start, a pitch within
    [NRB_MINPITCH, NRB_MAXPITCH], an articulation index (low six bits) of
    at most [NRB_MAXART] and a ramp of at most [NRB_MAXRAMP]. *)
Theorem stored_notes_valid (qsort : qsort_type) (pd : NRB_DATA)
    (note_i : Z) :
  qsort_contract qsort -> constructed qsort pd ->
  0 <= note_i < note_count pd ->
  exists pn,
    nrb_get note_i pd = Done pn pd /\
    0 <= start pn /\ start pn < release pn /\
    NRB_MINPITCH <= pitch pn <= NRB_MAXPITCH /\
    Z.land (art pn) 63 <= NRB_MAXART /\
    0 <= ramp pn <= NRB_MAXRAMP.
Proof.
  intros Hq Hc Hi. pose proof (constructed_inv qsort Hq pd Hc) as I.
  pose proof (notes_length pd I) as Hlen.
  assert (Hx : notes pd !! Z.to_nat note_i
               = Some (notes pd !!! Z.to_nat note_i))
    by (apply list_lookup_lookup_total_lt; lia).
  destruct (Forall_lookup_1 _ _ _ _ (inv_notes _ I) Hx)
    as [(_ & _ & _ & _ & Hr & _) (H1 & H2 & H3 & H4 & H5 & _)].
  exists (notes pd !!! Z.to_nat note_i).
  split; [now apply nrb_get_ok|]. repeat split; try done; lia.
Qed.

Lemma stored_notes_valid_witness :
  exists pn,
    nrb_get 1 sample_doc = Done pn sample_doc /\
    0 <= start pn /\ start pn < release pn /\
    NRB_MINPITCH <= pitch pn <= NRB_MAXPITCH /\
    Z.land (art pn) 63 <= NRB_MAXART /\
    0 <= ramp pn <= NRB_MAXRAMP.
Proof.
  apply (stored_notes_valid insertion_qsort sample_doc 1).
  - exact insertion_qsort_contract.
  - exact sample_doc_constructed.
  - vm_compute. split; congruence.
Defined.

Lemma check_note_result (pd : NRB_DATA) (pn : NRB_NOTE) :
  check_note pn pd = Done tt pd \/ check_note pn pd = Fault pd.
Proof.
  unfold check_note, bind, gets, nrb_offset, ret, abort.
  repeat match goal with
  | |- context [if ?b then _ else _] => destruct b
  end; auto.
Qed.

Lemma check_note_invalid (pd : NRB_DATA) (pn : NRB_NOTE) :
  ~ note_valid pd pn -> check_note pn pd = Fault pd.
Proof.
  intros Hn. destruct (check_note_result pd pn) as [H|H]; [|exact H].
  now apply check_note_inv in H as [_ ?].
Qed.

(** X12. A note that breaks any of the seven rules of the validator makes
    both [nrb_append] and [nrb_set] reach [abort()], and so does an index
    out of bounds for [nrb_set]; the document at the abort is the document
    passed in. *)
Theorem invalid_arguments_abort (pd : NRB_DATA) (pn : NRB_NOTE) (note_i : Z) :
  (~ note_valid pd pn -> nrb_append pn pd = Fault pd) /\
  (~ note_valid pd pn \/ note_i < 0 \/ note_count pd <= note_i ->
   nrb_set note_i pn pd = Fault pd).
Proof.
  split.
  - intros Hn. unfold nrb_append, bind. now rewrite check_note_invalid.
  - intros Hn. unfold nrb_set, bind, gets, abort.
    destruct ((note_i <? 0) || (note_i >=? note_count pd)) eqn:E;
      [reflexivity|].
    destruct Hn as [Hn|Hn]; [|lia]. now rewrite check_note_invalid.
Qed.

Lemma invalid_arguments_abort_witness :
  nrb_append (mkNote 0 10 49 0 0 0 0) sample_doc = Fault sample_doc /\
  nrb_set 2 (mkNote 0 10 49 0 0 0 0) sample_doc = Fault sample_doc.
Proof.
  assert (Hn : ~ note_valid sample_doc (mkNote 0 10 49 0 0 0 0)).
  { intros (_ & _ & Hp & _). vm_compute in Hp. destruct Hp as [_ Hp].
    now apply Hp. }
  destruct (invalid_arguments_abort sample_doc (mkNote 0 10 49 0 0 0 0) 2)
    as [H1 H2].
  split; [now apply H1|]. apply H2. now left.
Defined.

(** X13. [nrb_set] followed by [nrb_get]: on a document built through the
    interface, setting a valid note at an index within bounds returns, the
    note is read back at that index, every other index reads as before,
    and the note count and the section table are as before. *)
Theorem nrb_set_then_get (qsort : qsort_type) (pd : NRB_DATA) (note_i : Z)
    (pn : NRB_NOTE) :
  qsort_contract qsort -> constructed qsort pd ->
  note_typed pn -> note_valid pd pn -> 0 <= note_i < note_count pd ->
  exists pd',
    nrb_set note_i pn pd = Done tt pd' /\
    nrb_get note_i pd' = Done pn pd' /\
    (forall j, 0 <= j < note_count pd -> j <> note_i ->
               value_of (nrb_get j pd') = value_of (nrb_get j pd)) /\
    note_count pd' = note_count pd /\
    sect_count pd' = sect_count pd /\
    sections pd' = sections pd.
Proof.
  intros Hq Hc Ht Hv Hi. pose proof (constructed_inv qsort Hq pd Hc) as I.
  pose proof (notes_length pd I) as Hlen.
  assert (Hs : nrb_set note_i pn pd
               = Done tt (set_pNote pd (<[Z.to_nat note_i := pn]> (pNote pd)))).
  { unfold nrb_set, bind, gets.
    destruct ((note_i <? 0) || (note_i >=? note_count pd)) eqn:E; [lia|].
    now rewrite check_note_ok. }
  destruct (nrb_set_inv _ _ _ _ _ I Ht Hs)
    as (I' & _ & _ & Hn & Hnc & Hsc & Hps).
  eexists. split; [exact Hs|].
  split; [|split; [|split; [done|split; [done|]]]].
  - rewrite nrb_get_ok by (rewrite Hnc; lia). rewrite Hn.
    now rewrite list_lookup_total_insert_eq by lia.
  - intros j Hj Hne. rewrite !nrb_get_ok by (rewrite ?Hnc; lia).
    rewrite Hn. simpl. f_equal.
    apply list_lookup_total_insert_ne. lia.
  - unfold sections. now rewrite Hsc, Hps.
Qed.

Lemma nrb_set_then_get_witness :
  exists pd',
    nrb_set 0 (mkNote 3 4 5 6 7 0 8) sample_doc = Done tt pd' /\
    nrb_get 0 pd' = Done (mkNote 3 4 5 6 7 0 8) pd' /\
    (forall j, 0 <= j < note_count sample_doc -> j <> 0 ->
               value_of (nrb_get j pd') = value_of (nrb_get j sample_doc)) /\
    note_count pd' = note_count sample_doc /\
    sect_count pd' = sect_count sample_doc /\
    sections pd' = sections sample_doc.
Proof.
  apply (nrb_set_then_get insertion_qsort sample_doc 0
           (mkNote 3 4 5 6 7 0 8)).
  - exact insertion_qsort_contract.
  - exact sample_doc_constructed.
  - repeat split; vm_compute; congruence.
  - repeat split; vm_compute; congruence.
  - vm_compute. split; congruence.
Defined.

(** X14. [nrb_append] on any document built through the interface,
    allocated or parsed: with a valid note and a note count below
    [NRB_MAXNOTE] it returns 1, the note count grows by one, the note is
    read back at the last index, all earlier notes read as before and the
    section table is as before. *)
Theorem nrb_append_extends (qsort : qsort_type) (pd : NRB_DATA)
    (pn : NRB_NOTE) :
  qsort_contract qsort -> constructed qsort pd ->
  note_typed pn -> note_valid pd pn -> note_count pd < NRB_MAXNOTE ->
  exists pd',
    nrb_append pn pd = Done 1 pd' /\
    note_count pd' = note_count pd + 1 /\
    nrb_get (note_count pd) pd' = Done pn pd' /\
    (forall j, 0 <= j < note_count pd ->
               value_of (nrb_get j pd') = value_of (nrb_get j pd)) /\
    sect_count pd' = sect_count pd /\
    sections pd' = sections pd.
Proof.
  intros Hq Hc Ht Hv Hlt. pose proof (constructed_inv qsort Hq pd Hc) as I.
  pose proof (notes_length pd I) as Hlen.
  pose proof (inv_note_count _ I) as Hnc.
  destruct (nrb_append_ok pd pn I Ht Hv Hlt)
    as (pd' & H & I' & Hn & Hc' & Hs & Hp).
  exists pd'. split; [exact H|]. split; [exact Hc'|].
  split; [|split; [|split; [done|]]].
  - rewrite nrb_get_ok by lia. rewrite Hn. f_equal.
    apply list_lookup_total_middle. lia.
  - intros j Hj. rewrite !nrb_get_ok by lia. rewrite Hn. simpl. f_equal.
    apply lookup_total_app_l. lia.
  - unfold sections. now rewrite Hs, Hp.
Qed.

Lemma nrb_append_extends_witness :
  exists pd',
    nrb_append (mkNote 3 4 5 6 7 0 8) scenario_b_doc = Done 1 pd' /\
    note_count pd' = note_count scenario_b_doc + 1 /\
    nrb_get (note_count scenario_b_doc) pd'
    = Done (mkNote 3 4 5 6 7 0 8) pd' /\
    (forall j, 0 <= j < note_count scenario_b_doc ->
               value_of (nrb_get j pd')
               = value_of (nrb_get j scenario_b_doc)) /\
    sect_count pd' = sect_count scenario_b_doc /\
    sections pd' = sections scenario_b_doc.
Proof.
  apply (nrb_append_extends insertion_qsort scenario_b_doc
           (mkNote 3 4 5 6 7 0 8)).
  - exact insertion_qsort_contract.
  - apply (constructed_parse insertion_qsort scenario_b scenario_b_doc
             NRB_VER_MINOR []).
    vm_compute. reflexivity.
  - repeat split; vm_compute; congruence.
  - repeat split; vm_compute; congruence.
  - vm_compute. reflexivity.
Defined.

(** X15. The contract of [nrb_sect] on a document built through the
    interface, [last] being the offset of the last section: an offset that
    is negative or below [last] reaches [abort()] with the document as it
    was; an offset of at least [last], with a section count below
    [NRB_MAXSECT], returns 1, is read back by [nrb_offset] at the new last
    index, and leaves the earlier offsets, the note count and the notes as
    they were. *)
Theorem nrb_sect_contract (qsort : qsort_type) (pd : NRB_DATA) (offset : Z) :
  qsort_contract qsort -> constructed qsort pd ->
  offset <= 9223372036854775807 ->
  exists last,
    nrb_offset (sect_count pd - 1) pd = Done last pd /\
    (offset < 0 \/ offset < last -> nrb_sect offset pd = Fault pd) /\
    (0 <= offset -> last <= offset -> sect_count pd < NRB_MAXSECT ->
     exists pd',
       nrb_sect offset pd = Done 1 pd' /\
       sect_count pd' = sect_count pd + 1 /\
       nrb_offset (sect_count pd) pd' = Done offset pd' /\
       (forall k, 0 <= k < sect_count pd ->
                  value_of (nrb_offset k pd') = value_of (nrb_offset k pd)) /\
       note_count pd' = note_count pd /\
       notes pd' = notes pd).
Proof.
  intros Hq Hc Hmax. pose proof (constructed_inv qsort Hq pd Hc) as I.
  pose proof (inv_sect_count _ I) as Hsc.
  pose proof (sections_length pd I) as Hlen.
  exists (sections pd !!! Z.to_nat (sect_count pd - 1)).
  split; [apply nrb_offset_ok; lia|]. split.
  - intros Hbad. unfold nrb_sect, bind, gets, abort.
    destruct (offset <? 0) eqn:E0; [reflexivity|].
    rewrite nrb_offset_ok by lia.
    destruct (offset <? sections pd !!! Z.to_nat (sect_count pd - 1)) eqn:E1;
      [reflexivity|lia].
  - intros H0 Hl Hlt.
    destruct (nrb_sect_ok pd offset I (conj H0 Hl) Hmax Hlt)
      as (pd' & H & I' & Hs & Hc' & Hn & Hp).
    exists pd'. split; [exact H|]. split; [exact Hc'|].
    split; [|split; [|split; [done|]]].
    + rewrite nrb_offset_ok by lia. rewrite Hs. f_equal.
      apply list_lookup_total_middle. lia.
    + intros k Hk. rewrite !nrb_offset_ok by lia. rewrite Hs. simpl.
      f_equal. apply lookup_total_app_l. lia.
    + unfold notes. now rewrite Hn, Hp.
Qed.

Lemma nrb_sect_contract_witness :
  exists last,
    nrb_offset (sect_count sample_doc - 1) sample_doc = Done last sample_doc /\
    (7 < 0 \/ 7 < last -> nrb_sect 7 sample_doc = Fault sample_doc) /\
    (0 <= 7 -> last <= 7 -> sect_count sample_doc < NRB_MAXSECT ->
     exists pd',
       nrb_sect 7 sample_doc = Done 1 pd' /\
       sect_count pd' = sect_count sample_doc + 1 /\
       nrb_offset (sect_count sample_doc) pd' = Done 7 pd' /\
       (forall k, 0 <= k < sect_count sample_doc ->
                  value_of (nrb_offset k pd')
                  = value_of (nrb_offset k sample_doc)) /\
       note_count pd' = note_count sample_doc /\
       notes pd' = notes sample_doc).
Proof.
  apply (nrb_sect_contract insertion_qsort sample_doc 7).
  - exact insertion_qsort_contract.
  - exact sample_doc_constructed.
  - lia.
Defined.

(** X16. [nrb_serialize] never reaches [abort()] on a document built
    through the interface.  Without notes it returns 0 and writes nothing;
    with notes it returns 1 and appends 32 bytes of header, 8 bytes per
    section and 24 bytes per note to what the output already holds. *)
Theorem nrb_serialize_result (qsort : qsort_type) (pd : NRB_DATA)
    (out : stream) :
  qsort_contract qsort -> constructed qsort pd ->
  (note_count pd = 0 -> nrb_serialize pd out = Done 0 out) /\
  (1 <= note_count pd ->
   exists bytes,
     nrb_serialize pd out = Done 1 (out ++ bytes) /\
     Z.of_nat (length bytes)
     = 32 + 8 * sect_count pd + 24 * note_count pd).
Proof.
  intros Hq Hc. pose proof (constructed_inv qsort Hq pd Hc) as I. split.
  - intros H0. unfold nrb_serialize. now rewrite H0.
  - intros Hn. exists (nrb_image 0 (0, 0, 0, 0) pd).
    split; [now apply nrb_serialize_ok|].
    rewrite length_nrb_image, (sections_length pd I), (notes_length pd I).
    pose proof (inv_sect_count _ I). lia.
Qed.

Lemma nrb_serialize_result_witness :
  (note_count sample_doc = 0 ->
   nrb_serialize sample_doc [x2a] = Done 0 [x2a]) /\
  (1 <= note_count sample_doc ->
   exists bytes,
     nrb_serialize sample_doc [x2a] = Done 1 ([x2a] ++ bytes) /\
     Z.of_nat (length bytes)
     = 32 + 8 * sect_count sample_doc + 24 * note_count sample_doc).
Proof.
  apply (nrb_serialize_result insertion_qsort sample_doc [x2a]).
  - exact insertion_qsort_contract.
  - exact sample_doc_constructed.
Defined.

(** ** Parsing a file by path *)

(** X17. [nrb_parse_path] never reaches [abort()] and leaves the file
    system as it was.  A path that cannot be opened yields [NULL] and
    [NRB_VER_ERROR]; a path that can yields what [nrb_parse] yields on the
    content of the file; and a document is returned only for a file of at
    least 64 bytes. *)
Theorem nrb_parse_path_result (pPath : string)
    (fs : string -> option (list byte)) :
  exists pdo ver,
    nrb_parse_path pPath fs = Done (pdo, ver) fs /\
    (fs pPath = None -> pdo = None /\ ver = NRB_VER_ERROR) /\
    (forall fp, fs pPath = Some fp ->
                value_of (nrb_parse fp) = Some (pdo, ver)) /\
    (forall pd, pdo = Some pd ->
                exists fp, fs pPath = Some fp /\ (64 <= length fp)%nat).
Proof.
  unfold nrb_parse_path. destruct (fs pPath) as [fp|] eqn:E.
  - destruct (nrb_parse_total fp) as (pdo & ver & rest & H).
    exists pdo, ver. rewrite H. split; [done|]. split; [done|]. split.
    + intros fp' [= <-]. now rewrite H.
    + intros pd ->. exists fp. split; [done|].
      apply nrb_parse_inv in H as (minor & rsv & _ & _ & _ & -> & I & Hn & _).
      rewrite length_app, length_nrb_image, (sections_length pd I),
        (notes_length pd I).
      pose proof (inv_sect_count _ I). lia.
  - exists None, NRB_VER_ERROR. split; [done|]. split; [done|].
    split; [discriminate|discriminate].
Qed.

(** ** The report of [nrbwalk] *)

Lemma fprintf_run (text : string) (po : list byte) :
  fprintf text po = Done tt (po ++ String.list_byte_of_string text).
Proof. reflexivity. Qed.

Lemma report_sect_loop_ok (pd : NRB_DATA) (n : nat) :
  forall (i : nat) (po : list byte),
    doc_inv pd -> (i + n <= Z.to_nat (sect_count pd))%nat ->
    report_sect_loop n (Z.of_nat i) pd po
    = Done tt (po ++ sect_lines (Z.of_nat i) (take n (drop i (sections pd)))).
Proof.
  induction n as [|n IH]; intros i po I Hi.
  - simpl. now rewrite app_nil_r.
  - pose proof (sections_length pd I) as Hlen.
    cbn [report_sect_loop]. unfold bind, on_doc.
    rewrite nrb_offset_ok, Nat2Z.id by lia. rewrite fprintf_run.
    assert (Hx : sections pd !! i = Some (sections pd !!! i))
      by (apply list_lookup_lookup_total_lt; lia).
    replace (Z.of_nat i + 1) with (Z.of_nat (S i)) by lia.
    rewrite IH by (try done; lia).
    rewrite (drop_S _ _ _ Hx). cbn [take sect_lines].
    replace (Z.of_nat i + 1) with (Z.of_nat (S i)) by lia.
    now rewrite <- app_assoc.
Qed.

Lemma report_note_loop_ok (pd : NRB_DATA) (n : nat) :
  forall (i : nat) (po : list byte),
    doc_inv pd -> (i + n <= Z.to_nat (note_count pd))%nat ->
    report_note_loop n (Z.of_nat i) pd po
    = Done tt (po ++ flat_map
                 (fun pn => String.list_byte_of_string (note_text pn))
                 (take n (drop i (notes pd)))).
Proof.
  induction n as [|n IH]; intros i po I Hi.
  - simpl. now rewrite app_nil_r.
  - pose proof (notes_length pd I) as Hlen.
    cbn [report_note_loop]. unfold bind, on_doc.
    rewrite nrb_get_ok, Nat2Z.id by lia. rewrite fprintf_run.
    assert (Hx : notes pd !! i = Some (notes pd !!! i))
      by (apply list_lookup_lookup_total_lt; lia).
    replace (Z.of_nat i + 1) with (Z.of_nat (S i)) by lia.
    rewrite IH by (try done; lia).
    rewrite (drop_S _ _ _ Hx). cbn [take flat_map].
    now rewrite <- app_assoc.
Qed.

Lemma report_ok (pd : NRB_DATA) (po : list byte) :
  doc_inv pd -> report pd po = Done tt (po ++ report_bytes pd).
Proof.
  intros I. unfold report, bind, on_doc, nrb_sections, nrb_notes.
  rewrite !fprintf_run.
  pose proof (report_sect_loop_ok pd (Z.to_nat (sect_count pd)) 0) as Hs.
  change (Z.of_nat 0) with 0 in Hs. rewrite Hs by (try done; lia).
  rewrite fprintf_run.
  pose proof (report_note_loop_ok pd (Z.to_nat (note_count pd)) 0) as Hn.
  change (Z.of_nat 0) with 0 in Hn. rewrite Hn by (try done; lia).
  rewrite !drop_0.
  rewrite <- (sections_length pd I), <- (notes_length pd I), !firstn_all.
  unfold report_bytes. now rewrite <- !app_assoc.
Qed.

Lemma to_int64_small (x : Z) :
  -9223372036854775808 <= x <= 9223372036854775807 -> to_int64 x = x.
Proof. intros Hx. unfold to_int64. rewrite Z.mod_small by lia. lia. Qed.

(** X18. On a document built through the interface, [report] never reaches
    [abort()]: every index it passes to [nrb_offset] and [nrb_get] is
    within bounds.  It appends to the output the two count lines, one line
    per section in index order and one line per note in table order, and
    the duration it prints for a note is the release time minus the start
    time, a positive number that fits the 64-bit subtraction. *)
Theorem report_output (qsort : qsort_type) (pd : NRB_DATA) (po : list byte) :
  qsort_contract qsort -> constructed qsort pd ->
  report pd po = Done tt (po ++ report_bytes pd) /\
  Forall (fun pn => to_int64 (release pn - start pn)
                    = release pn - start pn /\
                    0 < release pn - start pn)
         (notes pd).
Proof.
  intros Hq Hc. pose proof (constructed_inv qsort Hq pd Hc) as I.
  split; [now apply report_ok|].
  eapply Forall_impl; [apply (inv_notes _ I)|].
  intros pn [(T1 & T2 & _) (H1 & H2 & _)].
  split; [apply to_int64_small|]; lia.
Qed.

Lemma report_output_witness :
  report sample_doc [x2a] = Done tt ([x2a] ++ report_bytes sample_doc) /\
  Forall (fun pn => to_int64 (release pn - start pn)
                    = release pn - start pn /\
                    0 < release pn - start pn)
         (notes sample_doc).
Proof.
  apply (report_output insertion_qsort sample_doc [x2a]).
  - exact insertion_qsort_contract.
  - exact sample_doc_constructed.
Defined.

(** ** The entry point of [nrbwalk] *)

Lemma on_stderr_fprintf (text : string) (io : walk_io) :
  on_stderr (fprintf text) io
  = Done tt (mkIO (io_stdin io) (io_stdout io)
                  (io_stderr io ++ String.list_byte_of_string text)).
Proof. reflexivity. Qed.

Lemma append_empty_r (a b : string) : a +:+ b = EmptyString -> b = EmptyString.
Proof. destruct a; [trivial|discriminate]. Qed.

Lemma message_nonempty (a b : string) :
  b <> EmptyString -> String.list_byte_of_string (a +:+ b) <> [].
Proof.
  intros Hb H. apply Hb, (append_empty_r a).
  rewrite <- (String.string_of_list_byte_of_string (a +:+ b)), H.
  reflexivity.
Qed.

(** The version message and the failure message of [main], as appended to
    standard error. *)
Lemma main_parse_spec (pModule : string) (io : walk_io)
    (pdo : option NRB_DATA) (ver : Z) (rest : list byte) :
  nrb_parse (io_stdin io) = Done (pdo, ver) rest ->
  exists diag,
    main_parse pModule io
    = Done (match pdo with Some _ => true | None => false end, pdo)
           (mkIO rest (io_stdout io) (io_stderr io ++ diag)) /\
    (diag = [] <-> ver = NRB_VER_OK /\ pdo <> None).
Proof.
  intros H. unfold main_parse, bind, on_stdin. rewrite H.
  destruct (ver =? NRB_VER_OK) eqn:E0; cbn [negb].
  - apply Z.eqb_eq in E0. destruct pdo as [pd|].
    + exists []. unfold ret. cbn [io_stdin io_stdout io_stderr].
      rewrite app_nil_r. split; [done|]. split; [done|done].
    + eexists. unfold ret. rewrite on_stderr_fprintf.
      cbn [io_stdin io_stdout io_stderr]. split; [reflexivity|].
      split; [|intros [_ ?]; done].
      intros Hd. now apply message_nonempty in Hd.
  - apply Z.eqb_neq in E0.
    assert (Hv : exists t, t <> EmptyString /\
      (if ver =? NRB_VER_MINOR
       then on_stderr (fprintf
         (pModule +:+ ": WARNING: Unsupported minor NRB version!" +:+ nl))
       else if ver =? NRB_VER_MAJOR
       then on_stderr (fprintf
         (pModule +:+ ": ERROR: Unsupported major NRB version!" +:+ nl))
       else on_stderr (fprintf
         (pModule +:+ ": Couldn't read valid NRB version!" +:+ nl)))
        (mkIO rest (io_stdout io) (io_stderr io))
      = Done tt (mkIO rest (io_stdout io)
           (io_stderr io ++ String.list_byte_of_string (pModule +:+ t)))).
    { destruct (ver =? NRB_VER_MINOR); [|destruct (ver =? NRB_VER_MAJOR)];
        eexists;
        (split; [|rewrite on_stderr_fprintf;
                  cbn [io_stdin io_stdout io_stderr]; reflexivity]);
        discriminate. }
    destruct Hv as (t & Ht & ->).
    destruct pdo as [pd|].
    + eexists. unfold ret. split; [reflexivity|].
      split; [|intros [? _]; done].
      intros Hd. now apply message_nonempty in Hd.
    + eexists. unfold ret. rewrite on_stderr_fprintf.
      cbn [io_stdin io_stdout io_stderr]. rewrite <- app_assoc.
      split; [reflexivity|]. split; [|intros [? _]; done].
      intros Hd. apply app_eq_nil in Hd as [Hd _].
      now apply message_nonempty in Hd.
Qed.

Lemma main_too_many (a0 a1 a2 : string) (argv : list string) (io : walk_io) :
  exists diag,
    main (a0 :: a1 :: a2 :: argv) io
    = Done 1 (mkIO (io_stdin io) (io_stdout io) (io_stderr io ++ diag)) /\
    diag <> [].
Proof.
  eexists. unfold main.
  assert (E : (Z.of_nat (length (a0 :: a1 :: a2 :: argv)) >? 2) = true).
  { cbn [length]. apply Z.gtb_lt. lia. }
  rewrite E. unfold bind at 1 2. rewrite on_stderr_fprintf.
  unfold ret, bind. cbn [andb]. split; [reflexivity|].
  now apply message_nonempty.
Qed.

Lemma main_bad_arg (a0 a1 : string) (io : walk_io) :
  a1 <> "-check" ->
  exists diag,
    main [a0; a1] io
    = Done 1 (mkIO (io_stdin io) (io_stdout io) (io_stderr io ++ diag)) /\
    diag <> [].
Proof.
  intros Ha. eexists. unfold main.
  change (Z.of_nat (length [a0; a1])) with 2.
  change (2 >? 2) with false. change (2 =? 2) with true.
  change ([a0; a1] !!! 1%nat) with a1.
  apply String.eqb_neq in Ha. rewrite Ha.
  unfold bind, ret. cbn [negb andb]. rewrite on_stderr_fprintf.
  split; [reflexivity|]. now apply message_nonempty.
Qed.

Lemma main_check (a0 : string) (io : walk_io)
    (pdo : option NRB_DATA) (ver : Z) (rest : list byte) :
  nrb_parse (io_stdin io) = Done (pdo, ver) rest ->
  exists diag,
    main [a0; "-check"] io
    = Done (match pdo with Some _ => 0 | None => 1 end)
           (mkIO rest (io_stdout io) (io_stderr io ++ diag)) /\
    (diag = [] <-> ver = NRB_VER_OK /\ pdo <> None).
Proof.
  intros H. destruct (main_parse_spec a0 io pdo ver rest H) as (diag & Hm & Hd).
  exists diag. split; [|exact Hd]. unfold main.
  change (Z.of_nat (length [a0; "-check"])) with 2.
  change (2 >? 2) with false. change (2 =? 2) with true.
  change ([a0; "-check"] !!! 1%nat) with "-check".
  change (String.eqb "-check" "-check") with true.
  unfold bind, ret. cbn [negb andb]. rewrite Hm. now destruct pdo.
Qed.

Lemma main_plain (argv : list string) (io : walk_io)
    (pdo : option NRB_DATA) (ver : Z) (rest : list byte) :
  (length argv <= 1)%nat ->
  nrb_parse (io_stdin io) = Done (pdo, ver) rest ->
  exists diag,
    main argv io
    = Done (match pdo with Some _ => 0 | None => 1 end)
           (mkIO rest
                 (io_stdout io ++
                  match pdo with Some pd => report_bytes pd | None => [] end)
                 (io_stderr io ++ diag)) /\
    (diag = [] <-> ver = NRB_VER_OK /\ pdo <> None).
Proof.
  intros Hl H.
  set (pModule := match argv with a :: _ => a | [] => "nrbwalk" end).
  destruct (main_parse_spec pModule io pdo ver rest H) as (diag & Hm & Hd).
  exists diag. split; [|exact Hd]. unfold main. fold pModule.
  assert (E1 : (Z.of_nat (length argv) >? 2) = false).
  { destruct (Z.gtb_spec (Z.of_nat (length argv)) 2); [lia|done]. }
  assert (E2 : (Z.of_nat (length argv) =? 2) = false) by (apply Z.eqb_neq; lia).
  rewrite E1, E2. unfold bind, ret. cbn [andb]. rewrite Hm.
  destruct pdo as [pd|]; cbn [andb negb].
  - unfold on_stdout. cbn [io_stdin io_stdout io_stderr].
    assert (I : doc_inv pd).
    { apply nrb_parse_inv in H as (minor & rsv & _ & _ & _ & _ & I & _).
      exact I. }
    now rewrite (report_ok pd _ I).
  - now rewrite app_nil_r.
Qed.

Lemma args_ok_cases (argv : list string) :
  ((length argv <= 1)%nat) \/
  (exists a0, argv = [a0; "-check"]) \/
  (exists a0 a1, argv = [a0; a1] /\ a1 <> "-check") \/
  (exists a0 a1 a2 l, argv = a0 :: a1 :: a2 :: l).
Proof.
  destruct argv as [|a0 [|a1 [|a2 l]]].
  - left. simpl. lia.
  - left. simpl. lia.
  - destruct (String.eqb_spec a1 "-check") as [->|Hn].
    + right. left. now exists a0.
    + right. right. left. now exists a0, a1.
  - right. right. right. now exists a0, a1, a2, l.
Qed.

Lemma args_ok_not_bad (a0 a1 : string) :
  a1 <> "-check" -> ~ args_ok [a0; a1].
Proof.
  intros Hn [Hl|(p & [= _ ->])]; [simpl in Hl; lia|done].
Qed.

Lemma args_ok_not_many (a0 a1 a2 : string) (l : list string) :
  ~ args_ok (a0 :: a1 :: a2 :: l).
Proof. intros [Hl|(p & [=])]. simpl in Hl. lia. Qed.

(** X19. [main] never reaches [abort()] and returns 0 or 1.  It returns 0
    exactly when the arguments are acceptable (at most one beyond the
    program name, and that one [-check]) and [nrb_parse] returns a document
    for standard input; an unsupported minor version does not change the
    exit status. *)
Theorem main_exit_status (argv : list string) (io : walk_io) :
  exists code io',
    main argv io = Done code io' /\
    (code = 0 \/ code = 1) /\
    (code = 0 <->
     args_ok argv /\
     exists pd ver rest, nrb_parse (io_stdin io) = Done (Some pd, ver) rest).
Proof.
  destruct (nrb_parse_total (io_stdin io)) as (pdo & ver & rest & H).
  destruct (args_ok_cases argv)
    as [Hl|[(a0 & ->)|[(a0 & a1 & -> & Hn)|(a0 & a1 & a2 & l & ->)]]].
  - destruct (main_plain argv io pdo ver rest Hl H) as (diag & -> & _).
    eexists _, _. split; [reflexivity|]. destruct pdo as [pd|].
    + split; [now left|]. split; [|done]. intros _. split; [now left|].
      now exists pd, ver, rest.
    + split; [now right|]. split; [done|].
      intros (_ & pd & v & r & H'). rewrite H in H'. discriminate.
  - destruct (main_check a0 io pdo ver rest H) as (diag & -> & _).
    eexists _, _. split; [reflexivity|]. destruct pdo as [pd|].
    + split; [now left|]. split; [|done]. intros _.
      split; [right; now exists a0|]. now exists pd, ver, rest.
    + split; [now right|]. split; [done|].
      intros (_ & pd & v & r & H'). rewrite H in H'. discriminate.
  - destruct (main_bad_arg a0 a1 io Hn) as (diag & -> & _).
    eexists _, _. split; [reflexivity|]. split; [now right|].
    split; [done|]. intros [Ha _]. now apply args_ok_not_bad in Ha.
  - destruct (main_too_many a0 a1 a2 l io) as (diag & -> & _).
    eexists _, _. split; [reflexivity|]. split; [now right|].
    split; [done|]. intros [Ha _]. now apply args_ok_not_many in Ha.
Qed.

(** X20. What [main] writes to standard output.  Called with no argument
    beyond the program name on an input that [nrb_parse] accepts, it
    appends the report of the parsed document and leaves the unread rest of
    the input; whenever it has a second argument (so also with [-check])
    or returns 1, standard output is left as it was. *)
Theorem main_stdout (argv : list string) (io io' : walk_io) (code : Z) :
  main argv io = Done code io' ->
  (forall pd ver rest,
     (length argv <= 1)%nat ->
     nrb_parse (io_stdin io) = Done (Some pd, ver) rest ->
     io_stdout io' = io_stdout io ++ report_bytes pd /\
     io_stdin io' = rest) /\
  ((1 < length argv)%nat \/ code = 1 -> io_stdout io' = io_stdout io).
Proof.
  intros Hm.
  destruct (nrb_parse_total (io_stdin io)) as (pdo & ver & rest & H).
  destruct (args_ok_cases argv)
    as [Hl|[(a0 & ->)|[(a0 & a1 & -> & Hn)|(a0 & a1 & a2 & l & ->)]]].
  - destruct (main_plain argv io pdo ver rest Hl H) as (diag & Hr & _).
    rewrite Hr in Hm. injection Hm as <- <-. split.
    + intros pd v r _ H'. rewrite H in H'. injection H' as -> -> ->.
      now cbn [io_stdout io_stdin].
    + intros [Hgt| Hc]; [lia|]. destruct pdo; [discriminate|].
      cbn [io_stdout]. now rewrite app_nil_r.
  - destruct (main_check a0 io pdo ver rest H) as (diag & Hr & _).
    rewrite Hr in Hm. injection Hm as <- <-. split; [|done].
    intros pd v r Hl. simpl in Hl. lia.
  - destruct (main_bad_arg a0 a1 io Hn) as (diag & Hr & _).
    rewrite Hr in Hm. injection Hm as <- <-. split; [|done].
    intros pd v r Hl. simpl in Hl. lia.
  - destruct (main_too_many a0 a1 a2 l io) as (diag & Hr & _).
    rewrite Hr in Hm. injection Hm as <- <-. split; [|done].
    intros pd v r Hl. simpl in Hl. lia.
Qed.

Lemma main_stdout_witness :
  (forall pd ver rest,
     (length ["nrbwalk"] <= 1)%nat ->
     nrb_parse (io_stdin sample_io) = Done (Some pd, ver) rest ->
     io_stdout sample_io_report = io_stdout sample_io ++ report_bytes pd /\
     io_stdin sample_io_report = rest) /\
  ((1 < length ["nrbwalk"])%nat \/ 0 = 1 ->
   io_stdout sample_io_report = io_stdout sample_io).
Proof.
  apply (main_stdout ["nrbwalk"] sample_io sample_io_report 0).
  vm_compute. reflexivity.
Defined.

(** X21. What [main] writes to standard error.  It only ever appends to
    it, and it appends nothing exactly when the arguments are acceptable
    and [nrb_parse] returns a document with [NRB_VER_OK]: every rejected
    command line, every unreadable input and every unsupported minor
    version leaves a message. *)
Theorem main_stderr (argv : list string) (io io' : walk_io) (code : Z) :
  main argv io = Done code io' ->
  exists diag,
    io_stderr io' = io_stderr io ++ diag /\
    (diag = [] <->
     args_ok argv /\
     exists pd rest,
       nrb_parse (io_stdin io) = Done (Some pd, NRB_VER_OK) rest).
Proof.
  intros Hm.
  destruct (nrb_parse_total (io_stdin io)) as (pdo & ver & rest & H).
  assert (Hp : (ver = NRB_VER_OK /\ pdo <> None) <->
               exists pd r,
                 nrb_parse (io_stdin io) = Done (Some pd, NRB_VER_OK) r).
  { split.
    - intros [-> Hs]. destruct pdo as [pd|]; [|done]. now exists pd, rest.
    - intros (pd & r & H'). rewrite H in H'. injection H' as -> -> _.
      done. }
  destruct (args_ok_cases argv)
    as [Hl|[(a0 & ->)|[(a0 & a1 & -> & Hn)|(a0 & a1 & a2 & l & ->)]]].
  - destruct (main_plain argv io pdo ver rest Hl H) as (diag & Hr & Hd).
    rewrite Hr in Hm. injection Hm as <- <-. exists diag.
    split; [done|]. rewrite Hd, Hp. split; [|tauto].
    intros Hx. split; [now left|done].
  - destruct (main_check a0 io pdo ver rest H) as (diag & Hr & Hd).
    rewrite Hr in Hm. injection Hm as <- <-. exists diag.
    split; [done|]. rewrite Hd, Hp. split; [|tauto].
    intros Hx. split; [right; now exists a0|done].
  - destruct (main_bad_arg a0 a1 io Hn) as (diag & Hr & Hd).
    rewrite Hr in Hm. injection Hm as <- <-. exists diag.
    split; [done|]. split; [done|].
    intros [Ha _]. now apply args_ok_not_bad in Ha.
  - destruct (main_too_many a0 a1 a2 l io) as (diag & Hr & Hd).
    rewrite Hr in Hm. injection Hm as <- <-. exists diag.
    split; [done|]. split; [done|].
    intros [Ha _]. now apply args_ok_not_many in Ha.
Qed.

Lemma main_stderr_witness :
  exists diag,
    io_stderr sample_io_check = io_stderr sample_io ++ diag /\
    (diag = [] <->
     args_ok ["nrbwalk"; "-check"] /\
     exists pd rest,
       nrb_parse (io_stdin sample_io) = Done (Some pd, NRB_VER_OK) rest).
Proof.
  apply (main_stderr ["nrbwalk"; "-check"] sample_io sample_io_check 0).
  vm_compute. reflexivity.
Defined.

(** ** The comparison function and the biased byte *)

(** X22. [nrb_cmp] is a comparison function as [qsort] requires one.  It
    never reaches its [abort()] branch and leaves the array alone; its
    result is -1, 0 or 1 with the sign of the difference of the two start
    times, so two notes of equal start compare equal whatever their other
    fields; and swapping the arguments negates the result. *)
Theorem nrb_cmp_consistent (pa pb : NRB_NOTE) (s : list NRB_NOTE) :
  exists r,
    nrb_cmp pa pb s = Done r s /\
    (r = -1 \/ r = 0 \/ r = 1) /\
    (r < 0 <-> start pa < start pb) /\
    (r = 0 <-> start pa = start pb) /\
    (0 < r <-> start pb < start pa) /\
    nrb_cmp pb pa s = Done (- r) s.
Proof.
  unfold nrb_cmp, ret.
  destruct (Z.ltb_spec (start pa) (start pb)) as [H1|H1].
  - exists (-1). destruct (Z.ltb_spec (start pb) (start pa)) as [H2|H2]; [lia|].
    destruct (Z.gtb_spec (start pb) (start pa)) as [H3|H3]; [|lia].
    repeat split; (reflexivity || lia).
  - destruct (Z.gtb_spec (start pa) (start pb)) as [H2|H2].
    + exists 1. destruct (Z.ltb_spec (start pb) (start pa)) as [H3|H3]; [|lia].
      repeat split; (reflexivity || lia).
    + exists 0. destruct (Z.eqb_spec (start pa) (start pb)) as [H3|H3]; [|lia].
      destruct (Z.ltb_spec (start pb) (start pa)) as [H4|H4]; [lia|].
      destruct (Z.gtb_spec (start pb) (start pa)) as [H5|H5]; [lia|].
      destruct (Z.eqb_spec (start pb) (start pa)) as [H6|H6]; [|lia].
      repeat split; (reflexivity || lia).
Qed.

(** X23. The biased byte outside the round trip.  [nrb_writeBias8] reaches
    [abort()] for a value below -128 or above 127 and writes nothing.
    [nrb_readBias8] never aborts; it fails only at the end of the stream,
    leaving the caller's variable as it was; on any byte it succeeds with a
    value in [-128, 127], and writing that value back gives the byte that
    was read. *)
Theorem bias8_limits (v pv0 : Z) (out pf : list byte) :
  (v < -128 \/ 127 < v -> nrb_writeBias8 v out = Fault out) /\
  exists (st : bool) (rv : Z),
    nrb_readBias8 pv0 pf = Done (st, rv) (drop 1 pf) /\
    (st = false <-> pf = []) /\
    (st = false -> rv = pv0) /\
    (st = true ->
     -128 <= rv <= 127 /\
     nrb_writeBias8 rv out = Done tt (out ++ take 1 pf)).
Proof.
  split.
  - intros Hv. unfold nrb_writeBias8, NRB_MINBIAS8, NRB_MAXBIAS8, abort.
    destruct (Z.ltb_spec v (-128)) as [H1|H1]; [reflexivity|].
    destruct (Z.gtb_spec v 127) as [H2|H2]; [reflexivity|lia].
  - destruct pf as [|b pf].
    + exists false, pv0. rewrite nrb_readBias8_nil.
      split; [reflexivity|]. split; [done|]. split; [done|discriminate].
    + exists true, (byte_val b - 128). rewrite nrb_readBias8_cons.
      pose proof (byte_val_range b) as Hb.
      split; [reflexivity|]. split; [split; discriminate|].
      split; [discriminate|]. intros _. split; [lia|].
      rewrite nrb_writeBias8_ok by lia. cbn [take]. do 3 f_equal.
      replace (byte_val b - 128 + 128) with (byte_val b) by lia.
      apply byte_of_Z_val.
Qed.

Lemma bias8_limits_witness :
  (200 < -128 \/ 127 < 200 -> nrb_writeBias8 200 [x01] = Fault [x01]) /\
  exists (st : bool) (rv : Z),
    nrb_readBias8 0 [x59; x02] = Done (st, rv) (drop 1 [x59; x02]) /\
    (st = false <-> [x59; x02] = []) /\
    (st = false -> rv = 0) /\
    (st = true ->
     -128 <= rv <= 127 /\
     nrb_writeBias8 rv [x01] = Done tt ([x01] ++ take 1 [x59; x02])).
Proof. apply (bias8_limits 200 0 [x01] [x59; x02]). Defined.

(** ** From the interface to the report *)

Lemma report_bytes_trimmed (pd : NRB_DATA) :
  doc_inv pd -> report_bytes (trimmed pd) = report_bytes pd.
Proof.
  intros I. unfold report_bytes.
  rewrite (trimmed_sections pd I), (trimmed_notes pd I). reflexivity.
Qed.

(** X24. From the interface to the tool: when a document built through the
    interface, with at least one note, is written by [nrb_serialize] and
    the bytes, followed by anything, are the standard input of [nrbwalk],
    then [main] returns 0, consumes exactly the bytes written and writes
    nothing to standard error; without argument it appends the report of
    that very document to standard output, with [-check] it leaves standard
    output alone. *)
Theorem walk_serialized (qsort : qsort_type) (pd : NRB_DATA)
    (bytes extra : list byte) (argv : list string) (prog : string)
    (io : walk_io) :
  qsort_contract qsort -> constructed qsort pd -> 1 <= note_count pd ->
  nrb_serialize pd [] = Done 1 bytes ->
  io_stdin io = bytes ++ extra ->
  (length argv <= 1)%nat ->
  main argv io
  = Done 0 (mkIO extra (io_stdout io ++ report_bytes pd) (io_stderr io)) /\
  main [prog; "-check"] io
  = Done 0 (mkIO extra (io_stdout io) (io_stderr io)).
Proof.
  intros Hq Hc Hn Hs Hin Hl.
  pose proof (constructed_inv qsort Hq pd Hc) as I.
  rewrite (nrb_serialize_ok pd [] I Hn) in Hs. injection Hs as <-.
  assert (Hr : rsv_ok (0, 0, 0, 0))
    by (repeat split; vm_compute; congruence).
  assert (Hp : nrb_parse (io_stdin io)
               = Done (Some (trimmed pd), NRB_VER_OK) extra).
  { rewrite Hin. cbn [app].
    now rewrite (nrb_parse_image 0 (0, 0, 0, 0) pd extra I Hn) by done. }
  split.
  - destruct (main_plain argv io _ _ _ Hl Hp) as (diag & -> & Hd).
    rewrite (proj2 Hd) by done.
    now rewrite app_nil_r, (report_bytes_trimmed pd I).
  - destruct (main_check prog io _ _ _ Hp) as (diag & -> & Hd).
    rewrite (proj2 Hd) by done. now rewrite app_nil_r.
Qed.

Lemma walk_serialized_witness :
  main ["nrbwalk"]
       (mkIO (nrb_image 0 (0, 0, 0, 0) sample_doc ++ [x2a]) [] [])
  = Done 0 (mkIO [x2a] ([] ++ report_bytes sample_doc) []) /\
  main ["nrbwalk"; "-check"]
       (mkIO (nrb_image 0 (0, 0, 0, 0) sample_doc ++ [x2a]) [] [])
  = Done 0 (mkIO [x2a] [] []).
Proof.
  apply (walk_serialized insertion_qsort sample_doc
           (nrb_image 0 (0, 0, 0, 0) sample_doc) [x2a] ["nrbwalk"] "nrbwalk"
           (mkIO (nrb_image 0 (0, 0, 0, 0) sample_doc ++ [x2a]) [] [])).
  - exact insertion_qsort_contract.
  - exact sample_doc_constructed.
  - vm_compute. congruence.
  - vm_compute. reflexivity.
  - reflexivity.
  - simpl. lia.
Defined.
